(** * H264TcpSource: framing parsers, access-unit assembler and lifecycle

    A shallow embedding of [h264_tcp_source.cpp] (the worker [loop], its
    helpers [isVclNal], [isIdrNal], [findStartCode], the lambda
    [emit_access_unit], and the controller methods [start]/[stop]) together
    with the properties the design document states about them.

    Conventions.
    - A byte ([std::uint8_t]) is a [Byte.byte]; its value is [u8 b : Z].
    - A [std::vector<std::uint8_t>] is a [list byte]; a [(pointer, size)] pair
      into such a vector is the corresponding sub-list.
    - [std::size_t] indices and sizes are [nat]; the 32-bit length of the
      AVCC framing is a [Z] wrapped with [u32].
    - The socket is an explicit value: the queue of segments still to arrive.
    - [timestamp_us] is read from [std::chrono::steady_clock]; it does not
      depend on the input and is left out of [H264AccessUnit].

    The last sections of the first part embed what surrounds the worker:
    [connectTcp] with the calls it makes ([Net]), the sink
    [EncodedVideoSource::captureEncodedFrame] ([EncodedVideoSource]), and
    the callback and the command line of the example program
    ([Example]).  The operating system, the FFI, [std::stoi], [std::stoul]
    and [std::getenv] are parameters there. *)

From Stdlib Require Import List ZArith NArith Bool Arith Lia.
From Stdlib Require Import Strings.Byte.
From Stdlib Require Strings.String Strings.Ascii.
Import ListNotations.

(** ** Bytes and vectors *)

Definition u8 (b : byte) : Z := Z.of_N (Byte.to_N b).

(** [buf[i]] for an index the source keeps in range. *)
Definition at_ (buf : list byte) (i : nat) : byte := nth i buf x00.

(** [(data + off, len)]: the [len] bytes of [buf] from index [off]. *)
Definition slice (buf : list byte) (off len : nat) : list byte :=
  firstn len (skipn off buf).

(** [v.erase(v.begin(), v.begin() + n)]. *)
Definition erase_front (n : nat) (buf : list byte) : list byte := skipn n buf.

(** ** Constants *)

Definition kMaxNalSize : Z := 4 * 1024 * 1024.
Definition kReadChunkSize : nat := 64 * 1024.
Definition kStartCode : list byte := [x00; x00; x00; x01].

(** The short start code of the byte stream, [00 00 01]. *)
Definition kStartCode3 : list byte := [x00; x00; x01].

(** ** NAL classification *)

Definition isVclNal (nal : list byte) : bool :=
  match nal with
  | [] => false
  | b :: _ =>
      let type := Z.land (u8 b) 0x1f in
      (type =? 1)%Z || (type =? 5)%Z
  end.

Definition isIdrNal (nal : list byte) : bool :=
  match nal with
  | [] => false
  | b :: _ => (Z.land (u8 b) 0x1f =? 5)%Z
  end.

(** The derived NAL type of the data model: first byte & 0x1F. *)
Definition nal_type (nal : list byte) : option Z :=
  match nal with
  | [] => None
  | b :: _ => Some (Z.land (u8 b) 0x1f)
  end.

(** ** Start-code scanning *)

Record StartCode := mkStartCode { offset : nat; size : nat }.

(** The [for] loop of [findStartCode]; [n] bounds the iterations that are
    left, [i] is the loop variable. *)
Fixpoint findStartCode_from (n : nat) (buf : list byte) (i : nat)
  : option StartCode :=
  match n with
  | O => None
  | S n' =>
      if i + 3 <? length buf then
        if (u8 (at_ buf i) =? 0)%Z && (u8 (at_ buf (i + 1)) =? 0)%Z then
          if (u8 (at_ buf (i + 2)) =? 1)%Z then
            Some (mkStartCode i 3)
          else if (i + 4 <? length buf)
                  && (u8 (at_ buf (i + 2)) =? 0)%Z
                  && (u8 (at_ buf (i + 3)) =? 1)%Z then
            Some (mkStartCode i 4)
          else findStartCode_from n' buf (i + 1)
        else findStartCode_from n' buf (i + 1)
      else None
  end.

(** [findStartCode(buf, start, out)]: [Some out] for [true], [None] for
    [false].  The loop runs while [i + 3 < buf.size()], hence at most
    [buf.size() - start] times. *)
Definition findStartCode (buf : list byte) (start : nat) : option StartCode :=
  findStartCode_from (length buf - start) buf start.

(** ** Access units and the assembler *)

Inductive H264Framing := Avcc | AnnexB.

Record H264AccessUnit := mkAccessUnit {
  data : list byte;
  is_keyframe : bool
}.

(** The locals [access_unit] and [has_idr] of [loop] that the lambda
    captures by reference. *)
Record Assembler := mkAssembler {
  access_unit : list byte;
  has_idr : bool
}.

Definition assembler_init : Assembler := mkAssembler [] false.

(** The lambda [emit_access_unit].  [callback_] tells whether the
    [std::function] given at construction holds a target; the second
    component of the result lists the units handed to it by this call. *)
Definition emit_access_unit (callback_ : bool) (nal : list byte)
    (is_vcl : bool) (a : Assembler) : Assembler * list H264AccessUnit :=
  let access_unit' := access_unit a ++ kStartCode ++ nal in
  let has_idr' := if isIdrNal nal then true else has_idr a in
  if negb is_vcl then
    (mkAssembler access_unit' has_idr', [])
  else
    let au := mkAccessUnit access_unit' has_idr' in
    (assembler_init, if callback_ then [au] else []).

(** ** The socket

    What the peer will still deliver: a queue of segments.  [Data bytes] is
    a run of bytes that one [recv] can return at most; [Error] makes one
    [recv] fail; the empty queue is the orderly shutdown of the peer. *)

Inductive Segment :=
| Data (bytes : list byte)
| Error.

Definition Socket := list Segment.

Record RecvResult := mkRecv {
  recv_n : Z;                 (* the return value of [recv] *)
  recv_bytes : list byte;     (* the bytes written to the buffer *)
  recv_rest : Socket          (* the socket afterwards *)
}.

(** [recv(fd, buf, want, 0)] on a blocking socket. *)
Definition recv (want : nat) (s : Socket) : RecvResult :=
  match s with
  | [] => mkRecv 0 [] []
  | Error :: s' => mkRecv (-1) [] s'
  | Data bytes :: s' =>
      let got := firstn want bytes in
      let left := skipn want bytes in
      mkRecv (Z.of_nat (length got)) got
             (match left with [] => s' | _ :: _ => Data left :: s' end)
  end.

(** The bytes a socket delivers before the first [recv] that returns 0 or
    fails, and a bound on the number of [recv] calls that return data. *)
Fixpoint socket_bytes (s : Socket) : list byte :=
  match s with
  | [] => []
  | Data [] :: _ => []
  | Data bytes :: s' => bytes ++ socket_bytes s'
  | Error :: _ => []
  end.

Fixpoint socket_size (s : Socket) : nat :=
  match s with
  | [] => 0
  | Data bytes :: s' => S (length bytes + socket_size s')
  | Error :: s' => S (socket_size s')
  end.

(** ** The worker state

    [running_] is the atomic liveness flag, [fd] the socket, [asm] the
    assembler locals and [delivered] the access units handed to
    [callback_] so far, oldest first. *)

Record Worker := mkWorker {
  running_ : bool;
  fd : Socket;
  asm : Assembler;
  delivered : list H264AccessUnit
}.

(** ** Annex-B: the inner [while (findStartCode(stream_buf, parse_pos, sc))] *)

Record Parse := mkParse {
  stream_buf : list byte;
  parse_pos : nat;
  p_asm : Assembler;
  p_out : list H264AccessUnit
}.

(** One evaluation of the loop condition and body: [None] when the loop is
    left (condition false, or [break]), [Some] the state the next
    iteration starts from otherwise. *)
Definition parse_step (callback_ : bool) (p : Parse) : option Parse :=
  match findStartCode (stream_buf p) (parse_pos p) with
  | None => None
  | Some sc =>
      if (parse_pos p =? 0) && (0 <? offset sc) then
        Some (mkParse (erase_front (offset sc) (stream_buf p)) 0
                      (p_asm p) (p_out p))
      else
        let next_start := offset sc + size sc in
        match findStartCode (stream_buf p) next_start with
        | None => None
        | Some next_sc =>
            let nal_start := offset sc + size sc in
            let nal_size := offset next_sc - nal_start in
            let '(a, out) :=
              if 0 <? nal_size then
                let nal_data := slice (stream_buf p) nal_start nal_size in
                emit_access_unit callback_ nal_data (isVclNal nal_data)
                                 (p_asm p)
              else (p_asm p, []) in
            Some (mkParse (stream_buf p) (offset next_sc) a (p_out p ++ out))
        end
  end.

Fixpoint parse_iter (callback_ : bool) (fuel : nat) (p : Parse) : Parse :=
  match fuel with
  | O => p
  | S fuel' =>
      match parse_step callback_ p with
      | None => p
      | Some p' => parse_iter callback_ fuel' p'
      end
  end.

(** Every iteration shortens [stream_buf] or advances [parse_pos]. *)
Definition parse_measure (p : Parse) : nat :=
  length (stream_buf p) - parse_pos p.

Definition parse_loop (callback_ : bool) (p : Parse) : Parse :=
  parse_iter callback_ (S (parse_measure p)) p.

(** The body of the outer loop after a successful [recv]: append the
    chunk, run the inner loop from [parse_pos = 0], drop the consumed
    front. *)
Definition annexb_feed (callback_ : bool) (chunk : list byte)
    (st : list byte * Assembler)
  : (list byte * Assembler) * list H264AccessUnit :=
  let p := parse_loop callback_
             (mkParse (fst st ++ chunk) 0 (snd st) []) in
  let buf := if 0 <? parse_pos p
             then erase_front (parse_pos p) (stream_buf p)
             else stream_buf p in
  ((buf, p_asm p), p_out p).

(** ** Annex-B: the outer [while (running_.load())] *)

Fixpoint annexb_loop (callback_ : bool) (fuel : nat) (w : Worker)
    (stream_buf : list byte) : Worker * list byte :=
  match fuel with
  | O => (w, stream_buf)
  | S fuel' =>
      if running_ w then
        let r := recv kReadChunkSize (fd w) in
        if (recv_n r <=? 0)%Z then
          (mkWorker false (recv_rest r) (asm w) (delivered w), stream_buf)
        else
          let '((buf, a), out) :=
            annexb_feed callback_ (recv_bytes r) (stream_buf, asm w) in
          annexb_loop callback_ fuel'
            (mkWorker (running_ w) (recv_rest r) a (delivered w ++ out)) buf
      else (w, stream_buf)
  end.

(** ** AVCC *)

Definition u32 (z : Z) : Z := z mod 2 ^ 32.

(** The big-endian length decoded from [lenBuf]. *)
Definition be32 (lenBuf : list byte) : Z :=
  Z.lor (Z.lor (Z.lor (u32 (Z.shiftl (u8 (at_ lenBuf 0)) 24))
                      (u32 (Z.shiftl (u8 (at_ lenBuf 1)) 16)))
               (u32 (Z.shiftl (u8 (at_ lenBuf 2)) 8)))
        (u32 (u8 (at_ lenBuf 3))).

(** [while (filled < want && running_.load())]: read until [want] bytes are
    there or a [recv] fails.  [got] is the part of the buffer filled so
    far, so [filled = length got]. *)
Fixpoint recv_exact (fuel want : nat) (w : Worker) (got : list byte)
  : Worker * list byte :=
  match fuel with
  | O => (w, got)
  | S fuel' =>
      if (length got <? want) && running_ w then
        let r := recv (want - length got) (fd w) in
        if (recv_n r <=? 0)%Z then
          (mkWorker false (recv_rest r) (asm w) (delivered w), got)
        else
          recv_exact fuel' want
            (mkWorker (running_ w) (recv_rest r) (asm w) (delivered w))
            (got ++ recv_bytes r)
      else (w, got)
  end.

Inductive Flow := Continue | Break.

(** One iteration of the AVCC [while (running_.load())] body. *)
Definition avcc_iter (callback_ : bool) (w : Worker) : Flow * Worker :=
  let '(w1, lenBuf) := recv_exact 4 4 w [] in
  if negb (running_ w1) || (length lenBuf <? 4) then (Break, w1)
  else
    let nalLen := be32 lenBuf in
    if (nalLen =? 0)%Z || (nalLen >? kMaxNalSize)%Z then
      (Break, mkWorker false (fd w1) (asm w1) (delivered w1))
    else
      let '(w2, nal) :=
        recv_exact (Z.to_nat nalLen) (Z.to_nat nalLen) w1 [] in
      if negb (running_ w2) || (length nal <? Z.to_nat nalLen) then
        (Break, w2)
      else
        let '(a, out) := emit_access_unit callback_ nal (isVclNal nal)
                                          (asm w2) in
        (Continue, mkWorker (running_ w2) (fd w2) a (delivered w2 ++ out)).

Fixpoint avcc_loop (callback_ : bool) (fuel : nat) (w : Worker) : Worker :=
  match fuel with
  | O => w
  | S fuel' =>
      if running_ w then
        match avcc_iter callback_ w with
        | (Break, w') => w'
        | (Continue, w') => avcc_loop callback_ fuel' w'
        end
      else w
  end.

(** ** [H264TcpSource::loop]

    [conn] is the outcome of [connectTcp]: [None] for
    [INVALID_SOCKET_VALUE], [Some s] for a connected socket that will
    deliver [s].  The thread is started by [start] after it has set
    [running_]; [stop] is not called while this run lasts. *)
Definition loop (callback_ : bool) (framing_ : H264Framing)
    (conn : option Socket) : Worker :=
  match conn with
  | None => mkWorker false [] assembler_init []
  | Some s =>
      let w0 := mkWorker true s assembler_init [] in
      let w :=
        match framing_ with
        | AnnexB => fst (annexb_loop callback_ (S (socket_size s)) w0 [])
        | Avcc => avcc_loop callback_ (S (socket_size s)) w0
        end in
      mkWorker false (fd w) (asm w) (delivered w)
  end.

(** ** Some concrete runs *)

Definition sps_nal : list byte := [x67; x42; xc0; x1f].
Definition pps_nal : list byte := [x68; xce; x3c; x80].
Definition idr_nal : list byte := [x65; x88; x84; x21].
Definition slice_nal : list byte := [x41; x9a; x02; x05].
Definition aud_nal : list byte := [x09; xf0].

(** [00 00 00 01 SPS 00 00 01 IDR], and the same followed by a start code
    and the first byte of a further unit. *)
Definition sps_idr_stream : list byte :=
  kStartCode ++ sps_nal ++ kStartCode3 ++ idr_nal.

Definition sps_idr_stream_closed : list byte :=
  sps_idr_stream ++ kStartCode3 ++ [x09].

(** A stream cut into chunks of one byte. *)
Definition bytewise (stream : list byte) : list (list byte) :=
  map (fun b => [b]) stream.

(** ** Notions used in the statements *)

(** The test the loop body makes at index [i]: the size of the start code
    it reports there, if any. *)
Definition sc_at (buf : list byte) (i : nat) : option nat :=
  if i + 3 <? length buf then
    if (u8 (at_ buf i) =? 0)%Z && (u8 (at_ buf (i + 1)) =? 0)%Z then
      if (u8 (at_ buf (i + 2)) =? 1)%Z then Some 3
      else if (i + 4 <? length buf)
              && (u8 (at_ buf (i + 2)) =? 0)%Z
              && (u8 (at_ buf (i + 3)) =? 1)%Z then Some 4
      else None
    else None
  else None.

(** A start code seen from [k] bytes earlier. *)
Definition shift_sc (k : nat) (sc : StartCode) : StartCode :=
  mkStartCode (k + offset sc) (size sc).

(** The state of the inner loop with [y] appended to its buffer. *)
Definition p_app (y : list byte) (p : Parse) : Parse :=
  mkParse (stream_buf p ++ y) (parse_pos p) (p_asm p) (p_out p).

(** [parse_pos] is 0 or the offset of a start code that [findStartCode]
    reports there. *)
Definition anchored (p : Parse) : Prop :=
  parse_pos p = 0 \/
  exists z, findStartCode (stream_buf p) (parse_pos p)
            = Some (mkStartCode (parse_pos p) z).

(** [q] is [p] with the first [k] bytes of the buffer erased and the
    units delivered so far, [o0], taken off the record. *)
Definition shifted (k : nat) (o0 : list H264AccessUnit) (p q : Parse) : Prop :=
  stream_buf q = skipn k (stream_buf p) /\
  parse_pos p = k + parse_pos q /\
  p_asm q = p_asm p /\
  p_out p = o0 ++ p_out q.

(** Both loops hand every NAL unit to the lambda as
    [emit_access_unit(nal, size, isVclNal(nal, size))]; [assemble] is that
    call made for each unit of [nals] in turn. *)
Fixpoint assemble (callback_ : bool) (nals : list (list byte)) (a : Assembler)
  : Assembler * list H264AccessUnit :=
  match nals with
  | [] => (a, [])
  | nal :: rest =>
      let '(a1, o1) := emit_access_unit callback_ nal (isVclNal nal) a in
      let '(a2, o2) := assemble callback_ rest a1 in
      (a2, o1 ++ o2)
  end.

(** The units of [g], each behind the canonical start code. *)
Definition frame (g : list (list byte)) : list byte :=
  concat (map (fun nal => kStartCode ++ nal) g).

(** The access units of the data model: the NAL sequence cut after every
    VCL unit.  [pending] is the group still open; the result is the list
    of closed groups and the group left open at the end. *)
Fixpoint group_nals (pending : list (list byte)) (nals : list (list byte))
  : list (list (list byte)) * list (list byte) :=
  match nals with
  | [] => ([], pending)
  | nal :: rest =>
      if isVclNal nal then
        let '(gs, p) := group_nals [] rest in ((pending ++ [nal]) :: gs, p)
      else group_nals (pending ++ [nal]) rest
  end.

(** The unit is not empty and its first byte & 0x1F is [t]. *)
Definition has_type (t : Z) (nal : list byte) : Prop := nal_type nal = Some t.

(** Some unit of the group is an IDR slice. *)
Definition contains_idr (g : list (list byte)) : bool := existsb isIdrNal g.

(** The access unit made of the group [g]. *)
Definition unit_of (g : list (list byte)) : H264AccessUnit :=
  mkAccessUnit (frame g) (contains_idr g).

(** From assembler [a] with [o] delivered, some non-empty NAL units were
    handed to the lambda, leaving assembler [a'] and [o'] delivered. *)
Definition fed (callback_ : bool) (a : Assembler) (o : list H264AccessUnit)
    (a' : Assembler) (o' : list H264AccessUnit) : Prop :=
  exists nals out,
    Forall (fun nal : list byte => nal <> []) nals /\
    assemble callback_ nals a = (a', out) /\
    o' = o ++ out.

(** A payload as an Annex-B stream carries it: no [00 00 00] and no
    [00 00 01] inside, and the last byte is not [00]. *)
Fixpoint nal_clean (nal : list byte) : bool :=
  match nal with
  | [] => true
  | b0 :: tl =>
      (if (u8 b0 =? 0)%Z then
         match tl with
         | [] => false
         | b1 :: tl' =>
             if (u8 b1 =? 0)%Z then
               match tl' with
               | [] => false
               | b2 :: _ => negb (u8 b2 =? 0)%Z && negb (u8 b2 =? 1)%Z
               end
             else true
         end
       else true) && nal_clean tl
  end.

(** The two start codes of the byte stream. *)
Definition is_start_code (sc : list byte) : Prop :=
  sc = kStartCode3 \/ sc = kStartCode.

(** ** The two wire formats, as a sender writes them *)

(** The byte of value [z mod 256]. *)
Definition byte_of_Z (z : Z) : byte :=
  match Byte.of_N (Z.to_N (z mod 256)) with
  | Some b => b
  | None => x00
  end.

(** The 4-byte big-endian unsigned representation of [n]. *)
Definition be32_bytes (n : Z) : list byte :=
  [byte_of_Z (n / 2 ^ 24); byte_of_Z (n / 2 ^ 16);
   byte_of_Z (n / 2 ^ 8); byte_of_Z n].

(** AVCC: every NAL unit behind its length. *)
Definition avcc_stream (nals : list (list byte)) : list byte :=
  concat (map (fun nal => be32_bytes (Z.of_nat (length nal)) ++ nal) nals).

(** A NAL unit AVCC can carry: not empty, at most 4 MiB. *)
Definition avcc_nal_ok (nal : list byte) : Prop :=
  (0 < Z.of_nat (length nal) <= kMaxNalSize)%Z.

(** Annex-B: every NAL unit behind a start code of its own;
    a unit is the pair of the start code and the payload. *)
Definition annexb_stream (units : list (list byte * list byte)) : list byte :=
  concat (map (fun u => fst u ++ snd u) units).

Definition annexb_unit_ok (u : list byte * list byte) : Prop :=
  is_start_code (fst u) /\ nal_clean (snd u) = true /\ snd u <> [].

(** * The lifecycle controller

    [start], [stop] and [running] act on [running_] and [thread_]; the
    worker acts on [running_].  Calls of the controller and steps of the
    worker are the events of a trace; each event is atomic. *)

Module Lifecycle.

Record Instance := mkInstance {
  running_ : bool;     (* [std::atomic<bool> running_] *)
  joinable : bool;     (* [thread_.joinable()] *)
  workers : nat;       (* threads of execution that are inside [loop] *)
  connecting : bool;   (* the newest worker has not left [connectTcp] yet *)
  spawned : nat        (* threads created by [start] so far *)
}.

(** The constructor: [running_{false}], a default [thread_]. *)
Definition construct : Instance := mkInstance false false 0 false 0.

Definition running (i : Instance) : bool := running_ i.

Inductive Outcome :=
| Alive (i : Instance)
| Terminated          (* [std::terminate] was called *)
| Stuck.              (* the event cannot happen in this state *)

(** [start()]: [running_.exchange(true)] returns the old value; if it was
    [false] a thread is created and move-assigned to [thread_], which calls
    [std::terminate] when [thread_] is still joinable. *)
Definition start (i : Instance) : Outcome :=
  if running_ i then
    Alive (mkInstance true (joinable i) (workers i) (connecting i) (spawned i))
  else if joinable i then Terminated
  else Alive (mkInstance true true (S (workers i)) true (S (spawned i))).

(** [stop()] is [running_.store(false)] followed, when [thread_] is
    joinable, by [thread_.join()], which returns once the worker has left
    [loop]. *)
Definition stop_store (i : Instance) : Instance :=
  mkInstance false (joinable i) (workers i) (connecting i) (spawned i).

Definition stop_join (i : Instance) : Outcome :=
  if joinable i then
    if workers i =? 0
    then Alive (mkInstance (running_ i) false 0 (connecting i) (spawned i))
    else Stuck
  else Alive i.

Inductive Event :=
| CallStart            (* the controller calls [start()] *)
| StopStore            (* [stop()]: the store *)
| StopJoin             (* [stop()]: the join returns *)
| ConnectFails         (* worker: [connectTcp] failed; store, return *)
| Connected            (* worker: [connectTcp] returned a socket *)
| WorkerStore          (* worker: [running_.store(false)] inside a loop *)
| WorkerReturns.       (* worker: the final store, [loop] returns *)

Definition step (e : Event) (i : Instance) : Outcome :=
  match e with
  | CallStart => start i
  | StopStore => Alive (stop_store i)
  | StopJoin => stop_join i
  | ConnectFails =>
      if (0 <? workers i) && connecting i
      then Alive (mkInstance false (joinable i) (pred (workers i)) false
                             (spawned i))
      else Stuck
  | Connected =>
      if (0 <? workers i) && connecting i
      then Alive (mkInstance (running_ i) (joinable i) (workers i) false
                             (spawned i))
      else Stuck
  | WorkerStore =>
      if (0 <? workers i) && negb (connecting i)
      then Alive (mkInstance false (joinable i) (workers i) false (spawned i))
      else Stuck
  | WorkerReturns =>
      if (0 <? workers i) && negb (connecting i)
      then Alive (mkInstance false (joinable i) (pred (workers i)) false
                             (spawned i))
      else Stuck
  end.

Fixpoint exec (trace : list Event) (i : Instance) : Outcome :=
  match trace with
  | [] => Alive i
  | e :: trace' =>
      match step e i with
      | Alive i' => exec trace' i'
      | o => o
      end
  end.

(** [running()] never returns [true] at any point of [trace] after its
    first event. *)
Definition never_running (trace : list Event) : Prop :=
  forall k i, 0 < k <= length trace ->
              exec (firstn k trace) construct = Alive i ->
              running i = false.

End Lifecycle.

(** ** Notions and examples used below *)

(** What the controller keeps true: one thread handle, one worker. *)
Definition lifecycle_inv (i : Lifecycle.Instance) : Prop :=
  Lifecycle.workers i <= 1 /\
  (Lifecycle.workers i = 1 -> Lifecycle.joinable i = true) /\
  (Lifecycle.running_ i = true -> Lifecycle.workers i = 1).



(** The state after a failed connect, as long as [start()] is not called
    again. *)
Definition after_connect_failure (i : Lifecycle.Instance) : Prop :=
  Lifecycle.running_ i = false /\ Lifecycle.workers i = 0 /\
  Lifecycle.spawned i = 1.

(** A worker whose socket holds one AVCC record of four bytes, split over
    two segments, and one byte more. *)
Definition avcc_worker_example : Worker :=
  mkWorker true [Data [x00; x00; x00; x04; x65]; Data [x88; x84; x21; xff]]
           assembler_init [].

(** An AVCC socket: a parameter set, an IDR slice, and a truncated
    length prefix. *)
Definition avcc_socket_example : Socket :=
  [Data [x00; x00; x00; x04]; Data sps_nal;
   Data [x00; x00; x00; x04; x65; x88]; Data [x84; x21; x00]].

(** A worker at the head of its loop with a parameter set already
    accumulated, on a socket that fails after two bytes. *)
Definition pending_worker_example : Worker :=
  mkWorker true [Data [x00; x00]; Error]
           (mkAssembler (kStartCode ++ sps_nal) false) [].

(** The inner loop on a buffer that begins with two adjacent start codes. *)
Definition adjacent_parse_example : Parse :=
  mkParse (kStartCode3 ++ kStartCode3 ++ idr_nal) 0
          assembler_init [].

(** ** Further notions *)

(** Bytes on which the AVCC loop stops without handing anything to the
    assembler: fewer than four bytes, a length prefix of 0 or above
    [kMaxNalSize], or a valid prefix with fewer payload bytes behind it
    than it announces. *)
Definition avcc_stops (bytes : list byte) : Prop :=
  length bytes < 4 \/
  exists lenBuf rest,
    bytes = lenBuf ++ rest /\ length lenBuf = 4 /\
    ((be32 lenBuf = 0 \/ be32 lenBuf > kMaxNalSize)%Z \/
     ((0 < be32 lenBuf <= kMaxNalSize)%Z /\
      length rest < Z.to_nat (be32 lenBuf))).

(** Two states of the inner loop, or two workers, that differ at most in
    what has been delivered. *)
Definition parse_agree (p q : Parse) : Prop :=
  stream_buf p = stream_buf q /\ parse_pos p = parse_pos q /\
  p_asm p = p_asm q.

Definition worker_agree (w v : Worker) : Prop :=
  running_ w = running_ v /\ fd w = fd v /\ asm w = asm v.

(** ** Opening the connection *)

Module Net.

Section WithAddr.

Variable Addr : Type.

(** What the operating system answers to the calls of [connectTcp]:
    [wsa_startup] is [None] in a build without [_WIN32], where the call is
    not compiled in, and else tells whether [WSAStartup] returned 0;
    [getaddrinfo] fails or yields a list [res] with a first entry;
    [socket] fails or yields a descriptor; [connect] and [setsockopt]
    succeed ([true]) or fail. *)
Record Os := mkOs {
  wsa_startup : option bool;
  getaddrinfo : option (Addr * list Addr);
  socket : Addr -> option nat;
  connect : nat -> Addr -> bool;
  setsockopt : nat -> bool
}.

Inductive Call :=
| WsaStartup
| GetAddrInfo
| FreeAddrInfo
| SocketCall (a : Addr)
| ConnectCall (fd : nat) (a : Addr)
| SetSockOpt (fd : nat)
| CloseSocket (fd : nat).

(** [connectTcp]: the descriptor, or [None] for [INVALID_SOCKET_VALUE],
    and the calls made in order. *)
Definition connectTcp (os : Os) : option nat * list Call :=
  match wsa_startup os with
  | Some false => (None, [WsaStartup])
  | started =>
      let wsa := match started with Some _ => [WsaStartup] | None => [] end in
      match getaddrinfo os with
      | None => (None, wsa ++ [GetAddrInfo])
      | Some (res, _) =>
          match socket os res with
          | None => (None, wsa ++ [GetAddrInfo; SocketCall res; FreeAddrInfo])
          | Some fd =>
              if negb (connect os fd res) then
                (None, wsa ++ [GetAddrInfo; SocketCall res;
                               ConnectCall fd res; CloseSocket fd;
                               FreeAddrInfo])
              else
                let _ := setsockopt os fd in
                (Some fd, wsa ++ [GetAddrInfo; SocketCall res;
                                  ConnectCall fd res; FreeAddrInfo;
                                  SetSockOpt fd])
          end
      end
  end.

(** The calls of [loop] on the address list and on the descriptor; the
    [recv] calls of the two read loops lie between [connectTcp] and the
    final [close_socket]. *)
Definition loop_calls (os : Os) : list Call :=
  match connectTcp os with
  | (None, calls) => calls
  | (Some fd, calls) => calls ++ [CloseSocket fd]
  end.

(** A run over a list of calls that tracks whether the address list is
    allocated and which descriptor is open, and fails on a use of a freed
    or never obtained resource and on a second release.  [got_addr] and
    [got_fd] say what [getaddrinfo] and [socket] returned.  ([WSAStartup]
    obtains neither; the source has no [WSACleanup].) *)
Record Held := mkHeld {
  addr_live : bool;
  fd_open : option nat
}.

Definition track (got_addr : bool) (got_fd : option nat) (c : Call)
    (h : Held) : option Held :=
  match c with
  | WsaStartup => Some h
  | GetAddrInfo =>
      if addr_live h then None else Some (mkHeld got_addr (fd_open h))
  | FreeAddrInfo =>
      if addr_live h then Some (mkHeld false (fd_open h)) else None
  | SocketCall _ =>
      match addr_live h, fd_open h with
      | true, None => Some (mkHeld true got_fd)
      | _, _ => None
      end
  | ConnectCall fd _ =>
      match addr_live h, fd_open h with
      | true, Some fd' => if fd =? fd' then Some h else None
      | _, _ => None
      end
  | SetSockOpt fd =>
      match fd_open h with
      | Some fd' => if fd =? fd' then Some h else None
      | None => None
      end
  | CloseSocket fd =>
      match fd_open h with
      | Some fd' =>
          if fd =? fd' then Some (mkHeld (addr_live h) None) else None
      | None => None
      end
  end.

Fixpoint track_all (got_addr : bool) (got_fd : option nat)
    (calls : list Call) (h : Held) : option Held :=
  match calls with
  | [] => Some h
  | c :: calls' =>
      match track got_addr got_fd c h with
      | Some h' => track_all got_addr got_fd calls' h'
      | None => None
      end
  end.

End WithAddr.

End Net.

(** ** The sink of the example: [EncodedVideoSource::captureEncodedFrame] *)

Module EncodedVideoSource.

(** The [capture_encoded_frame] request; [source_handle] is the same in
    every request of a source and [timestamp_us] is passed through. *)
Record CaptureRequest := mkRequest {
  encoded_data : list byte;
  is_keyframe : bool
}.

(** [handle_] stands for [static_cast<bool>(handle_)]. *)
Record Source := mkSource {
  handle_ : bool;
  capture_supported_ : bool
}.

(** A source together with the requests passed to
    [FfiClient::sendRequest] so far. *)
Record State := mkState {
  source : Source;
  sent : list CaptureRequest
}.

Definition captureSupported (s : Source) : bool := capture_supported_ s.

Section WithFfi.

(** [sendRequest sent req] tells whether the call returns ([true]) or
    throws, given the requests made before. *)
Variable sendRequest : list CaptureRequest -> CaptureRequest -> bool.

(** The overload on [(data, size)]; [None] is the null pointer. *)
Definition captureEncodedFrame_ptr (data : option (list byte))
    (is_keyframe : bool) (st : State) : bool * State :=
  if negb (handle_ (source st)) then (false, st)
  else
    match data with
    | None => (false, st)
    | Some bytes =>
        if length bytes =? 0 then (false, st)
        else if negb (capture_supported_ (source st)) then (false, st)
        else
          let req := mkRequest bytes is_keyframe in
          if sendRequest (sent st) req then
            (true, mkState (source st) (sent st ++ [req]))
          else
            (false, mkState (mkSource (handle_ (source st)) false)
                            (sent st ++ [req]))
    end.

(** The overload on a vector. *)
Definition captureEncodedFrame (encoded_data : list byte)
    (is_keyframe : bool) (st : State) : bool * State :=
  captureEncodedFrame_ptr (Some encoded_data) is_keyframe st.

(** A sequence of calls and their results. *)
Fixpoint capture_all (frames : list (list byte * bool)) (st : State)
  : list bool * State :=
  match frames with
  | [] => ([], st)
  | (bytes, kf) :: frames' =>
      let '(ok, st1) := captureEncodedFrame bytes kf st in
      let '(oks, st2) := capture_all frames' st1 in
      (ok :: oks, st2)
  end.

End WithFfi.

End EncodedVideoSource.

(** ** The example program *)

Module Example.

Import String Ascii.
Local Open Scope string_scope.

(** *** The callback that [main] gives to the source *)

Record Main := mkMain {
  encodedSource : EncodedVideoSource.State;
  g_running : bool
}.

Section WithFfi.

Variable sendRequest :
  list EncodedVideoSource.CaptureRequest ->
  EncodedVideoSource.CaptureRequest -> bool.

Definition callback (au : H264AccessUnit) (m : Main) : Main :=
  let '(ok, st) :=
    EncodedVideoSource.captureEncodedFrame sendRequest (data au)
      (is_keyframe au) (encodedSource m) in
  if negb ok
     || negb (EncodedVideoSource.captureSupported
                (EncodedVideoSource.source st))
  then mkMain st false
  else mkMain st (g_running m).

(** The worker calls the callback once for each access unit, in order. *)
Definition deliver (aus : list H264AccessUnit) (m : Main) : Main :=
  fold_left (fun m au => callback au m) aus m.

End WithFfi.

Definition request_of (au : H264AccessUnit)
  : EncodedVideoSource.CaptureRequest :=
  EncodedVideoSource.mkRequest (data au) (is_keyframe au).

(** *** The command line *)

Record H264TcpArgs := mkH264TcpArgs {
  host : string;
  port : Z;
  width : Z;
  height : Z;
  framing : H264Framing;
  max_bitrate : Z;
  max_framerate : Z
}.

Definition H264TcpArgs_default : H264TcpArgs :=
  mkH264TcpArgs "127.0.0.1" 5004 1280 720 Avcc 0 0.

(** The five reference parameters of [parseArgs]. *)
Record Parsed := mkParsed {
  url : string;
  token : string;
  enable_e2ee : bool;
  e2ee_key : string;
  h264 : H264TcpArgs
}.

Definition empty (s : string) : bool :=
  match s with EmptyString => true | String _ _ => false end.

(** [a.compare(0, n, lit) == 0]. *)
Definition compare0 (a : string) (n : nat) (lit : string) : bool :=
  String.eqb (substring 0 n a) lit.

(** [s.substr(pos)], for [pos <= s.size()]. *)
Definition substr (pos : nat) (s : string) : string :=
  substring pos (String.length s - pos) s.

(** The lambda [getFlag]: the value of the flag [name] at argument [arg],
    and whether the next argument has been consumed for it ([++i]). *)
Definition getFlag (name arg : string) (next : option string)
  : string * bool :=
  if (String.length name <=? String.length arg)%nat
     && compare0 arg (String.length name) name then
    if (String.length name <? String.length arg)%nat
       && match get (String.length name) arg with
          | Some c => Ascii.eqb c "="%char
          | None => false
          end
    then (substr (String.length (name ++ "=")) arg, false)
    else
      match next with
      | Some v => (v, true)
      | None => ("", false)
      end
  else ("", false).

Section WithLibc.

(** [std::stoi] and [std::stoul]: the number, or [None] when they throw. *)
Variable stoi : string -> option Z.
Variable stoul : string -> option Z.
Variable getenv : string -> option string.

Definition set_h264 (f : H264TcpArgs -> H264TcpArgs) (p : Parsed) : Parsed :=
  mkParsed (url p) (token p) (enable_e2ee p) (e2ee_key p) (f (h264 p)).

(** [try { field = std::stoi(v); } catch (...) {}] for a non-empty [v]. *)
Definition stoi_or (v : string) (old : Z) : Z :=
  if empty v then old
  else match stoi v with Some n => n | None => old end.

(** One round of the [for] loop at argument [a]: [None] for
    [return false], else the new values and whether [i] has been advanced
    over the next argument. *)
Definition parse_arg (a : string) (next : option string) (p : Parsed)
  : option (Parsed * bool) :=
  if String.eqb a "-h" || String.eqb a "--help" then None
  else if String.eqb a "--enable_e2ee" then
    Some (mkParsed (url p) (token p) true (e2ee_key p) (h264 p), false)
  else if compare0 a 10 "--h264-tcp" then
    let '(v, used) := getFlag "--h264-tcp" a next in
    let v := if empty v then "127.0.0.1:5004" else v in
    match index 0 ":" v with
    | Some colon =>
        let port' :=
          match stoul (substr (colon + 1) v) with
          | Some n => (n mod 65536)%Z
          | None => 5004%Z
          end in
        Some (set_h264 (fun h =>
                mkH264TcpArgs (substring 0 colon v) port' (width h)
                  (height h) (framing h) (max_bitrate h) (max_framerate h))
                p, used)
    | None =>
        Some (set_h264 (fun h =>
                mkH264TcpArgs v (port h) (width h) (height h) (framing h)
                  (max_bitrate h) (max_framerate h)) p, used)
    end
  else if compare0 a 14 "--h264-framing" then
    let '(v, used) := getFlag "--h264-framing" a next in
    if String.eqb v "annexb" then
      Some (set_h264 (fun h =>
              mkH264TcpArgs (host h) (port h) (width h) (height h) AnnexB
                (max_bitrate h) (max_framerate h)) p, used)
    else if String.eqb v "avcc" || empty v then
      Some (set_h264 (fun h =>
              mkH264TcpArgs (host h) (port h) (width h) (height h) Avcc
                (max_bitrate h) (max_framerate h)) p, used)
    else None
  else if compare0 a 8 "--width" then
    let '(v, used) := getFlag "--width" a next in
    Some (set_h264 (fun h =>
            mkH264TcpArgs (host h) (port h) (stoi_or v (width h)) (height h)
              (framing h) (max_bitrate h) (max_framerate h)) p, used)
  else if compare0 a 9 "--height" then
    let '(v, used) := getFlag "--height" a next in
    Some (set_h264 (fun h =>
            mkH264TcpArgs (host h) (port h) (width h) (stoi_or v (height h))
              (framing h) (max_bitrate h) (max_framerate h)) p, used)
  else if compare0 a 13 "--max-bitrate" then
    let '(v, used) := getFlag "--max-bitrate" a next in
    Some (set_h264 (fun h =>
            mkH264TcpArgs (host h) (port h) (width h) (height h) (framing h)
              (stoi_or v (max_bitrate h)) (max_framerate h)) p, used)
  else if compare0 a 15 "--max-framerate" then
    let '(v, used) := getFlag "--max-framerate" a next in
    Some (set_h264 (fun h =>
            mkH264TcpArgs (host h) (port h) (width h) (height h) (framing h)
              (max_bitrate h) (stoi_or v (max_framerate h))) p, used)
  else if compare0 a 5 "--url" then
    let '(v, used) := getFlag "--url" a next in
    Some (mkParsed (if empty v then url p else v) (token p) (enable_e2ee p)
                   (e2ee_key p) (h264 p), used)
  else if compare0 a 7 "--token" then
    let '(v, used) := getFlag "--token" a next in
    Some (mkParsed (url p) (if empty v then token p else v) (enable_e2ee p)
                   (e2ee_key p) (h264 p), used)
  else if compare0 a 10 "--e2ee_key" then
    let '(v, used) := getFlag "--e2ee_key" a next in
    Some (mkParsed (url p) (token p) (enable_e2ee p)
                   (if empty v then e2ee_key p else v) (h264 p), used)
  else Some (p, false).

(** The [for] loop over [argv[1]], ..., [argv[argc - 1]]: the values when
    it ends and whether it ran to the end. *)
Fixpoint parse_loop (args : list string) (p : Parsed) : Parsed * bool :=
  match args with
  | [] => (p, true)
  | a :: rest =>
      match parse_arg a (hd_error rest) p with
      | None => (p, false)
      | Some (p', used) =>
          match rest with
          | [] => (p', true)
          | _ :: rest' =>
              if used then parse_loop rest' p' else parse_loop rest p'
          end
      end
  end.

Definition env_or (name : string) (v : string) : string :=
  if empty v then
    match getenv name with Some e => e | None => v end
  else v.

(** [parseArgs] on [argv[1..]] and the values that [url], [token] and
    [e2ee_key] hold at the call. *)
Definition parseArgs (argv : list string) (url0 token0 e2ee_key0 : string)
  : bool * Parsed :=
  match parse_loop argv
          (mkParsed url0 token0 false e2ee_key0 H264TcpArgs_default) with
  | (p, false) => (false, p)
  | (p, true) =>
      let p' := mkParsed (env_or "LIVEKIT_URL" (url p))
                         (env_or "LIVEKIT_TOKEN" (token p))
                         (enable_e2ee p)
                         (env_or "LIVEKIT_E2EE_KEY" (e2ee_key p))
                         (h264 p) in
      (negb (empty (url p') || empty (token p')), p')
  end.

End WithLibc.

(** The flags whose test compares as many characters as the name has. *)
Definition eq_form_flags : list string :=
  ["--h264-tcp"; "--h264-framing"; "--max-bitrate"; "--max-framerate";
   "--url"; "--token"; "--e2ee_key"].

End Example.

(** * Properties *)

(** ** Start codes at the ends of a buffer *)

Example findStartCode_3 :
  findStartCode [x00; x00; x01; x67] 0 = Some (mkStartCode 0 3).
Proof. reflexivity. Qed.

Example findStartCode_3_at_end :
  findStartCode [x00; x00; x01] 0 = None.
Proof. reflexivity. Qed.

Example findStartCode_4 :
  findStartCode [xff; x00; x00; x00; x01; x67] 0 = Some (mkStartCode 1 4).
Proof. reflexivity. Qed.

Example findStartCode_4_at_end :
  findStartCode [xff; x00; x00; x00; x01] 0 = None.
Proof. reflexivity. Qed.

(** ** [findStartCode] *)

Lemma findStartCode_from_sc_at n buf i :
  findStartCode_from (S n) buf i =
  if i + 3 <? length buf then
    match sc_at buf i with
    | Some z => Some (mkStartCode i z)
    | None => findStartCode_from n buf (i + 1)
    end
  else None.
Proof.
  unfold sc_at; cbn [findStartCode_from].
  destruct (i + 3 <? length buf); [|reflexivity].
  destruct (_ && _); [|reflexivity].
  destruct (u8 (at_ buf (i + 2)) =? 1)%Z; [reflexivity|].
  destruct (_ && _); reflexivity.
Qed.

Lemma findStartCode_from_enough n buf i :
  length buf - i <= n -> findStartCode_from n buf i = findStartCode buf i.
Proof.
  revert i; induction n as [|n IH]; intros i Hn.
  - unfold findStartCode. replace (length buf - i) with 0 by lia. reflexivity.
  - unfold findStartCode. rewrite findStartCode_from_sc_at.
    destruct (i + 3 <? length buf) eqn:Hlt.
    + apply Nat.ltb_lt in Hlt.
      replace (length buf - i) with (S (length buf - (i + 1))) by lia.
      rewrite findStartCode_from_sc_at.
      apply Nat.ltb_lt in Hlt; rewrite Hlt.
      destruct (sc_at buf i); [reflexivity|].
      rewrite IH by lia. reflexivity.
    + apply Nat.ltb_ge in Hlt.
      destruct (length buf - i) eqn:E; [reflexivity|].
      rewrite findStartCode_from_sc_at.
      apply Nat.ltb_ge in Hlt; rewrite Hlt. reflexivity.
Qed.

(** The loop of [findStartCode], one iteration unrolled. *)
Lemma findStartCode_eq buf i :
  findStartCode buf i =
  if i + 3 <? length buf then
    match sc_at buf i with
    | Some z => Some (mkStartCode i z)
    | None => findStartCode buf (i + 1)
    end
  else None.
Proof.
  rewrite <- (@findStartCode_from_enough (S (length buf - i)) buf i) by lia.
  rewrite findStartCode_from_sc_at.
  rewrite findStartCode_from_enough by lia. reflexivity.
Qed.

Lemma sc_at_some buf i z :
  sc_at buf i = Some z -> i + z < length buf /\ (z = 3 \/ z = 4).
Proof.
  unfold sc_at.
  destruct (i + 3 <? length buf) eqn:H3; [|discriminate].
  apply Nat.ltb_lt in H3.
  destruct (_ && _); [|discriminate].
  destruct (u8 (at_ buf (i + 2)) =? 1)%Z.
  - intros [= <-]. lia.
  - destruct (i + 4 <? length buf) eqn:H4; cbn [andb]; [|discriminate].
    apply Nat.ltb_lt in H4.
    destruct (_ && _); [|discriminate].
    intros [= <-]. lia.
Qed.

(** What a successful search returns: the first index at or after [start]
    where the body's test succeeds. *)
Lemma findStartCode_some buf start sc :
  findStartCode buf start = Some sc ->
  start <= offset sc /\
  sc_at buf (offset sc) = Some (size sc) /\
  forall j, start <= j < offset sc -> sc_at buf j = None.
Proof.
  remember (length buf - start) as n eqn:Hn.
  revert start Hn; induction n as [|n IH]; intros start Hn;
    rewrite findStartCode_eq.
  - assert (Hge : (start + 3 <? length buf) = false)
      by (apply Nat.ltb_ge; lia).
    rewrite Hge. discriminate.
  - destruct (start + 3 <? length buf); [|discriminate].
    destruct (sc_at buf start) as [z|] eqn:Hat.
    + intros [= <-]; cbn. repeat split; [lia|assumption|intros; lia].
    + intros Hrec. apply IH in Hrec; [|lia].
      destruct Hrec as (Hle & Hsz & Hnone).
      repeat split; [lia|assumption|].
      intros j Hj. destruct (Nat.eq_dec j start) as [->|Hne]; [assumption|].
      apply Hnone. lia.
Qed.

Lemma findStartCode_none buf start :
  findStartCode buf start = None ->
  forall j, start <= j -> sc_at buf j = None.
Proof.
  remember (length buf - start) as n eqn:Hn.
  revert start Hn; induction n as [|n IH]; intros start Hn;
    rewrite findStartCode_eq.
  - intros _ j Hj. unfold sc_at.
    assert (Hge : (j + 3 <? length buf) = false) by (apply Nat.ltb_ge; lia).
    rewrite Hge. reflexivity.
  - destruct (start + 3 <? length buf) eqn:H3.
    + destruct (sc_at buf start) eqn:Hat; [discriminate|].
      intros Hrec j Hj.
      destruct (Nat.eq_dec j start) as [->|Hne]; [assumption|].
      apply (IH (start + 1)); [lia|assumption|lia].
    + intros _ j Hj. apply Nat.ltb_ge in H3. unfold sc_at.
      assert (Hge : (j + 3 <? length buf) = false) by (apply Nat.ltb_ge; lia).
      rewrite Hge. reflexivity.
Qed.

Lemma findStartCode_intro buf start o z :
  start <= o ->
  sc_at buf o = Some z ->
  (forall j, start <= j < o -> sc_at buf j = None) ->
  findStartCode buf start = Some (mkStartCode o z).
Proof.
  intros Hle Hat Hnone.
  destruct (findStartCode buf start) as [sc|] eqn:Hf.
  - apply findStartCode_some in Hf. destruct Hf as (Hs & Hsz & Hn).
    destruct sc as [o' z']; cbn in *.
    destruct (Nat.lt_trichotomy o o') as [Hlt|[->|Hgt]].
    + rewrite Hn in Hat by lia. discriminate.
    + congruence.
    + rewrite Hnone in Hsz by lia. discriminate.
  - apply findStartCode_none with (j := o) in Hf; [congruence|assumption].
Qed.

Lemma findStartCode_none_intro buf start :
  (forall j, start <= j -> sc_at buf j = None) ->
  findStartCode buf start = None.
Proof.
  intros Hnone.
  destruct (findStartCode buf start) as [sc|] eqn:Hf; [|reflexivity].
  apply findStartCode_some in Hf. destruct Hf as (Hs & Hsz & _).
  rewrite Hnone in Hsz by assumption. discriminate.
Qed.

Lemma findStartCode_bounds buf start sc :
  findStartCode buf start = Some sc ->
  start <= offset sc /\ offset sc + size sc < length buf /\
  (size sc = 3 \/ size sc = 4).
Proof.
  intros Hf. apply findStartCode_some in Hf. destruct Hf as (Hs & Hsz & _).
  apply sc_at_some in Hsz. tauto.
Qed.

(** Searching again from anywhere up to the result finds it again. *)
Lemma findStartCode_restart buf start sc p :
  findStartCode buf start = Some sc ->
  start <= p <= offset sc ->
  findStartCode buf p = Some sc.
Proof.
  intros Hf Hp. apply findStartCode_some in Hf.
  destruct Hf as (Hs & Hsz & Hn). destruct sc as [o z]; cbn in *.
  apply findStartCode_intro; [lia|assumption|].
  intros j Hj. apply Hn. lia.
Qed.

Lemma at_app_l (x y : list byte) i : i < length x -> at_ (x ++ y) i = at_ x i.
Proof. intros. unfold at_. apply app_nth1. assumption. Qed.

(** Bytes arriving later do not change a test whose window was complete. *)
Lemma sc_at_app_inside x y j :
  j + 4 < length x -> sc_at (x ++ y) j = sc_at x j.
Proof.
  intros Hj. unfold sc_at. rewrite length_app.
  rewrite !at_app_l by lia.
  assert (H3 : (j + 3 <? length x) = true) by (apply Nat.ltb_lt; lia).
  assert (H3' : (j + 3 <? length x + length y) = true)
    by (apply Nat.ltb_lt; lia).
  assert (H4 : (j + 4 <? length x) = true) by (apply Nat.ltb_lt; lia).
  assert (H4' : (j + 4 <? length x + length y) = true)
    by (apply Nat.ltb_lt; lia).
  rewrite H3, H3', H4, H4'. reflexivity.
Qed.

Lemma sc_at_app_some x y i z :
  sc_at x i = Some z -> sc_at (x ++ y) i = Some z.
Proof.
  unfold sc_at. rewrite length_app.
  destruct (i + 3 <? length x) eqn:H3; [|discriminate].
  apply Nat.ltb_lt in H3.
  assert (H3' : (i + 3 <? length x + length y) = true)
    by (apply Nat.ltb_lt; lia).
  rewrite H3'. rewrite !at_app_l by lia.
  destruct (_ && _); [|discriminate].
  destruct (u8 (at_ x (i + 2)) =? 1)%Z; [trivial|].
  destruct (i + 4 <? length x) eqn:H4; cbn [andb]; [|discriminate].
  apply Nat.ltb_lt in H4.
  assert (H4' : (i + 4 <? length x + length y) = true)
    by (apply Nat.ltb_lt; lia).
  rewrite H4'. cbn [andb]. trivial.
Qed.

(** A start code that has been found stays found, at the same place and
    with the same size, when more bytes are appended. *)
Lemma findStartCode_app x y start sc :
  findStartCode x start = Some sc ->
  findStartCode (x ++ y) start = Some sc.
Proof.
  intros Hf. apply findStartCode_some in Hf.
  destruct Hf as (Hs & Hsz & Hn). destruct sc as [o z]; cbn in *.
  pose proof (sc_at_some _ _ _ Hsz) as [Hb Hz].
  apply findStartCode_intro; [assumption|apply sc_at_app_some; assumption|].
  intros j Hj. rewrite sc_at_app_inside by lia. apply Hn. assumption.
Qed.

Lemma sc_at_skipn k buf j : sc_at (skipn k buf) j = sc_at buf (k + j).
Proof.
  unfold sc_at, at_. rewrite length_skipn, !nth_skipn.
  replace (k + (j + 1)) with (k + j + 1) by lia.
  replace (k + (j + 2)) with (k + j + 2) by lia.
  replace (k + (j + 3)) with (k + j + 3) by lia.
  assert (E3 : (j + 3 <? length buf - k) = (k + j + 3 <? length buf)).
  { destruct (k + j + 3 <? length buf) eqn:E;
      [apply Nat.ltb_lt in E; apply Nat.ltb_lt|
       apply Nat.ltb_ge in E; apply Nat.ltb_ge]; lia. }
  assert (E4 : (j + 4 <? length buf - k) = (k + j + 4 <? length buf)).
  { destruct (k + j + 4 <? length buf) eqn:E;
      [apply Nat.ltb_lt in E; apply Nat.ltb_lt|
       apply Nat.ltb_ge in E; apply Nat.ltb_ge]; lia. }
  rewrite E3, E4. reflexivity.
Qed.

(** Searching the buffer with its first [k] bytes erased. *)
Lemma findStartCode_skipn k buf start :
  findStartCode buf (k + start) =
  option_map (shift_sc k) (findStartCode (skipn k buf) start).
Proof.
  destruct (findStartCode (skipn k buf) start) as [sc|] eqn:Hf; cbn.
  - apply findStartCode_some in Hf. destruct Hf as (Hs & Hsz & Hn).
    apply findStartCode_intro.
    + lia.
    + rewrite <- sc_at_skipn. assumption.
    + intros j Hj. replace j with (k + (j - k)) by lia.
      rewrite <- sc_at_skipn. apply Hn. lia.
  - apply findStartCode_none_intro. intros j Hj.
    replace j with (k + (j - k)) by lia. rewrite <- sc_at_skipn.
    eapply findStartCode_none; [eassumption|lia].
Qed.

(** ** The inner Annex-B loop terminates *)

Section ParseLoop.

Variable callback_ : bool.

Lemma parse_step_measure p p' :
  parse_step callback_ p = Some p' -> parse_measure p' < parse_measure p.
Proof.
  unfold parse_step, parse_measure.
  destruct (findStartCode (stream_buf p) (parse_pos p)) as [sc|] eqn:Hsc;
    [|discriminate].
  apply findStartCode_bounds in Hsc. destruct Hsc as (Hs & Hb & Hz).
  destruct ((parse_pos p =? 0) && (0 <? offset sc)) eqn:Hdrop.
  - apply andb_true_iff in Hdrop. destruct Hdrop as [Hp Ho].
    apply Nat.eqb_eq in Hp. apply Nat.ltb_lt in Ho.
    intros [= <-]; cbn. unfold erase_front. rewrite length_skipn. lia.
  - destruct (findStartCode (stream_buf p) (offset sc + size sc))
      as [nsc|] eqn:Hnsc; [|discriminate].
    apply findStartCode_bounds in Hnsc. destruct Hnsc as (Hs' & Hb' & Hz').
    destruct (if 0 <? _ then _ else _) as [a out].
    intros [= <-]; cbn. lia.
Qed.

Lemma parse_iter_done n p :
  parse_measure p < n -> parse_step callback_ (parse_iter callback_ n p) = None.
Proof.
  revert p; induction n as [|n IH]; intros p Hm; [lia|].
  cbn [parse_iter].
  destruct (parse_step callback_ p) as [p'|] eqn:Hstep; [|assumption].
  apply IH. apply parse_step_measure in Hstep. lia.
Qed.

Lemma parse_iter_stable n m p :
  parse_step callback_ (parse_iter callback_ n p) = None ->
  n <= m ->
  parse_iter callback_ m p = parse_iter callback_ n p.
Proof.
  revert m p; induction n as [|n IH]; intros m p Hdone Hle.
  - cbn in *. destruct m; cbn; [reflexivity|]. rewrite Hdone. reflexivity.
  - destruct m as [|m]; [lia|]. cbn [parse_iter] in *.
    destruct (parse_step callback_ p) as [p'|]; [|reflexivity].
    apply IH; [assumption|lia].
Qed.

(** The loop is left because its condition failed (or on [break]), never
    because the iteration bound of the model was reached. *)
Lemma parse_loop_done p :
  parse_step callback_ (parse_loop callback_ p) = None.
Proof. apply parse_iter_done. lia. Qed.

Lemma parse_loop_stop p :
  parse_step callback_ p = None -> parse_loop callback_ p = p.
Proof.
  intros H. unfold parse_loop. cbn [parse_iter]. rewrite H. reflexivity.
Qed.

Lemma parse_loop_step p p' :
  parse_step callback_ p = Some p' ->
  parse_loop callback_ p = parse_loop callback_ p'.
Proof.
  intros Hstep. unfold parse_loop at 1. cbn [parse_iter]. rewrite Hstep.
  apply parse_step_measure in Hstep.
  apply parse_iter_stable; [apply parse_loop_done|lia].
Qed.

(** Induction along the iterations of the loop. *)
Lemma parse_loop_ind (P : Parse -> Parse -> Prop) :
  (forall p, parse_step callback_ p = None -> P p p) ->
  (forall p p' q, parse_step callback_ p = Some p' -> P p' q -> P p q) ->
  forall p, P p (parse_loop callback_ p).
Proof.
  intros Hstop Hstep p.
  remember (parse_measure p) as n eqn:Hn. revert p Hn.
  induction n as [n IH] using lt_wf_ind. intros p Hn.
  destruct (parse_step callback_ p) as [p'|] eqn:E.
  - rewrite (parse_loop_step _ _ E). apply Hstep with p'; [assumption|].
    apply (IH (parse_measure p')); [|reflexivity].
    apply parse_step_measure in E. lia.
  - rewrite (parse_loop_stop _ E). apply Hstop. assumption.
Qed.

(** ** Appending bytes to the buffer of the inner loop *)

Lemma skipn_app_le (x y : list byte) n :
  n <= length x -> skipn n (x ++ y) = skipn n x ++ y.
Proof.
  intros H. rewrite skipn_app. replace (n - length x) with 0 by lia.
  reflexivity.
Qed.

Lemma slice_app (x y : list byte) off len :
  off + len <= length x -> slice (x ++ y) off len = slice x off len.
Proof.
  intros H. unfold slice. rewrite skipn_app_le by lia.
  rewrite firstn_app, length_skipn.
  replace (len - (length x - off)) with 0 by lia.
  cbn. apply app_nil_r.
Qed.

(** An iteration that ran on [x] runs the same way on [x ++ y]. *)
Lemma parse_step_app y p p' :
  parse_step callback_ p = Some p' ->
  parse_step callback_ (p_app y p) = Some (p_app y p').
Proof.
  unfold parse_step, p_app; cbn [stream_buf parse_pos p_asm p_out].
  destruct (findStartCode (stream_buf p) (parse_pos p)) as [sc|] eqn:Hsc;
    [|discriminate].
  rewrite (findStartCode_app _ y _ _ Hsc).
  apply findStartCode_bounds in Hsc. destruct Hsc as (Hs & Hb & Hz).
  destruct ((parse_pos p =? 0) && (0 <? offset sc)).
  - intros [= <-]; cbn. unfold erase_front.
    rewrite skipn_app_le by lia. reflexivity.
  - destruct (findStartCode (stream_buf p) (offset sc + size sc))
      as [nsc|] eqn:Hnsc; [|discriminate].
    rewrite (findStartCode_app _ y _ _ Hnsc).
    apply findStartCode_bounds in Hnsc. destruct Hnsc as (Hs' & Hb' & Hz').
    rewrite slice_app by lia.
    destruct (if 0 <? _ then _ else _) as [a out].
    intros [= <-]; cbn. reflexivity.
Qed.

Lemma parse_loop_app y p :
  parse_loop callback_ (p_app y p) =
  parse_loop callback_ (p_app y (parse_loop callback_ p)).
Proof.
  apply (@parse_loop_ind
           (fun p q => parse_loop callback_ (p_app y p) =
                       parse_loop callback_ (p_app y q))).
  - reflexivity.
  - intros p0 p' q Hstep IH. rewrite <- IH.
    apply parse_loop_step. apply parse_step_app. assumption.
Qed.

(** ** The position of the inner loop sits on a start code *)

Lemma parse_step_anchored p p' :
  parse_step callback_ p = Some p' -> anchored p'.
Proof.
  unfold parse_step.
  destruct (findStartCode (stream_buf p) (parse_pos p)) as [sc|] eqn:Hsc;
    [|discriminate].
  destruct ((parse_pos p =? 0) && (0 <? offset sc)).
  - intros [= <-]. left. reflexivity.
  - destruct (findStartCode (stream_buf p) (offset sc + size sc))
      as [nsc|] eqn:Hnsc; [|discriminate].
    destruct (if 0 <? _ then _ else _) as [a out].
    intros [= <-]. right. exists (size nsc). cbn.
    destruct nsc as [o z]; cbn.
    apply (findStartCode_restart _ _ _ _ Hnsc). cbn.
    apply findStartCode_bounds in Hnsc. cbn in Hnsc. lia.
Qed.

Lemma parse_loop_anchored p :
  anchored p -> anchored (parse_loop callback_ p).
Proof.
  apply (@parse_loop_ind (fun p q => anchored p -> anchored q)).
  - trivial.
  - intros p0 p' q Hstep IH _. apply IH.
    apply (parse_step_anchored _ _ Hstep).
Qed.

Lemma anchored_app y p : anchored p -> anchored (p_app y p).
Proof.
  intros [H0|[z Hz]]; [left; assumption|right].
  exists z. cbn. apply findStartCode_app. assumption.
Qed.

Lemma anchored_pos_le p : anchored p -> parse_pos p <= length (stream_buf p).
Proof.
  intros [H0|[z Hz]]; [lia|].
  apply findStartCode_bounds in Hz. cbn in Hz. lia.
Qed.

(** ** Erasing the consumed front of the buffer *)

Lemma parse_step_shifted k o0 p q :
  shifted k o0 p q -> anchored p ->
  match parse_step callback_ p with
  | None => parse_step callback_ q = None
  | Some p' => exists q', parse_step callback_ q = Some q' /\ shifted k o0 p' q'
  end.
Proof.
  intros (Hbuf & Hpos & Hasm & Hout) Hanch.
  unfold parse_step. rewrite Hbuf, Hpos, Hasm.
  rewrite findStartCode_skipn.
  destruct (findStartCode (skipn k (stream_buf p)) (parse_pos q))
    as [sc|] eqn:Hsc; cbn [option_map]; [|reflexivity].
  assert (Hdrop : (k + parse_pos q =? 0) && (0 <? offset (shift_sc k sc))
                  = (parse_pos q =? 0) && (0 <? offset sc)
                  /\ (((parse_pos q =? 0) && (0 <? offset sc)) = true
                      -> k = 0)).
  { destruct k as [|k]; [split; reflexivity|].
    destruct Hanch as [H0|[z Hz]]; [lia|].
    rewrite Hpos, findStartCode_skipn, Hsc in Hz. cbn in Hz.
    injection Hz as Ho _.
    assert (Ho' : offset sc = parse_pos q) by lia.
    rewrite Ho'. cbn [shift_sc offset].
    assert (E : (0 <? parse_pos q) = negb (parse_pos q =? 0)).
    { destruct (parse_pos q); reflexivity. }
    rewrite E.
    replace (S k + parse_pos q =? 0) with false
      by (symmetry; apply Nat.eqb_neq; lia).
    destruct (parse_pos q =? 0); cbn; split; (reflexivity || discriminate). }
  destruct Hdrop as [Hdrop Hk0]. rewrite Hdrop.
  destruct ((parse_pos q =? 0) && (0 <? offset sc)) eqn:Hd.
  - specialize (Hk0 eq_refl). subst k.
    eexists; split; [reflexivity|].
    repeat split; cbn; try assumption; reflexivity.
  - cbn [shift_sc offset size].
    replace (k + offset sc + size sc) with (k + (offset sc + size sc)) by lia.
    rewrite findStartCode_skipn.
    destruct (findStartCode (skipn k (stream_buf p)) (offset sc + size sc))
      as [nsc|] eqn:Hnsc; cbn [option_map]; [|reflexivity].
    cbn [shift_sc offset size].
    replace (k + offset nsc - (k + (offset sc + size sc)))
      with (offset nsc - (offset sc + size sc)) by lia.
    assert (Hslice : forall len,
               slice (stream_buf p) (k + (offset sc + size sc)) len
               = slice (skipn k (stream_buf p)) (offset sc + size sc) len).
    { intros len. unfold slice. rewrite skipn_skipn.
      replace (offset sc + size sc + k) with (k + (offset sc + size sc))
        by lia. reflexivity. }
    rewrite Hslice.
    destruct (if 0 <? _ then _ else _) as [a out].
    eexists; split; [reflexivity|].
    repeat split; cbn; try assumption; try reflexivity.
    rewrite Hout. symmetry. apply app_assoc.
Qed.

Lemma parse_loop_shifted k o0 p :
  forall q, shifted k o0 p q -> anchored p ->
  shifted k o0 (parse_loop callback_ p) (parse_loop callback_ q).
Proof.
  apply (@parse_loop_ind
           (fun p pf => forall q, shifted k o0 p q -> anchored p ->
                                  shifted k o0 pf (parse_loop callback_ q))).
  - intros p0 Hstop q Hsh Hanch.
    pose proof (parse_step_shifted _ _ _ _ Hsh Hanch) as H. rewrite Hstop in H.
    rewrite (parse_loop_stop _ H). assumption.
  - intros p0 p' pf Hstep IH q Hsh Hanch.
    pose proof (parse_step_shifted _ _ _ _ Hsh Hanch) as H. rewrite Hstep in H.
    destruct H as (q' & Hq & Hsh').
    rewrite (parse_loop_step _ _ Hq). apply IH; [assumption|].
    apply (parse_step_anchored _ _ Hstep).
Qed.

(** ** Feeding the buffer in two parts *)

Lemma annexb_feed_eq chunk st :
  annexb_feed callback_ chunk st =
  let p := parse_loop callback_ (mkParse (fst st ++ chunk) 0 (snd st) []) in
  ((skipn (parse_pos p) (stream_buf p), p_asm p), p_out p).
Proof.
  unfold annexb_feed, erase_front.
  destruct (parse_pos (parse_loop callback_ _)); reflexivity.
Qed.

(** The state after a chunk, and what was delivered while it was
    processed, are those of processing it in two parts. *)
Lemma annexb_feed_app c1 c2 st :
  annexb_feed callback_ (c1 ++ c2) st =
  let '(st1, o1) := annexb_feed callback_ c1 st in
  let '(st2, o2) := annexb_feed callback_ c2 st1 in
  (st2, o1 ++ o2).
Proof.
  rewrite !annexb_feed_eq. cbn beta iota zeta.
  rewrite annexb_feed_eq. cbn beta iota zeta.
  destruct st as [buf a]; cbn [fst snd].
  set (p0 := mkParse (buf ++ c1) 0 a []).
  set (f := parse_loop callback_ p0).
  assert (Hf : anchored f).
  { apply parse_loop_anchored. left. reflexivity. }
  set (q0 := mkParse (skipn (parse_pos f) (stream_buf f) ++ c2) 0 (p_asm f) []).
  assert (Hsh : shifted (parse_pos f) (p_out f) (p_app c2 f) q0).
  { repeat split; cbn.
    - rewrite skipn_app_le by (apply anchored_pos_le; assumption). reflexivity.
    - lia.
    - symmetry. apply app_nil_r. }
  apply parse_loop_shifted in Hsh; [|apply anchored_app; assumption].
  replace (mkParse (buf ++ c1 ++ c2) 0 a []) with (p_app c2 p0)
    by (unfold p_app, p0; cbn; rewrite app_assoc; reflexivity).
  rewrite parse_loop_app. fold f.
  destruct Hsh as (Hbuf & Hpos & Hasm & Hout).
  rewrite Hbuf, skipn_skipn, Hpos, Hasm, Hout.
  replace (parse_pos (parse_loop callback_ q0) + parse_pos f)
    with (parse_pos f + parse_pos (parse_loop callback_ q0)) by lia.
  reflexivity.
Qed.

End ParseLoop.

(** ** [recv] *)

Lemma socket_bytes_map chunks :
  Forall (fun c : list byte => c <> []) chunks ->
  socket_bytes (map Data chunks) = concat chunks.
Proof.
  induction 1 as [|c cs Hc _ IH]; cbn; [reflexivity|].
  rewrite IH. destruct c; [congruence|reflexivity].
Qed.

Lemma socket_bytes_cons (s : Socket) :
  socket_bytes s <> [] -> exists b s', s = Data b :: s' /\ b <> [].
Proof.
  destruct s as [|[b|] s']; cbn; try congruence.
  destruct b; [congruence|]. intros _. eexists _, _.
  split; [reflexivity|discriminate].
Qed.

Lemma recv_fails want s :
  socket_bytes s = [] -> (recv_n (recv want s) <= 0)%Z.
Proof.
  destruct s as [|[b|] s']; cbn; try lia.
  destruct b; [|discriminate]. intros _. rewrite firstn_nil. cbn. lia.
Qed.

Lemma recv_data want b s :
  0 < want -> b <> [] ->
  let r := recv want (Data b :: s) in
  (0 < recv_n r)%Z /\
  recv_n r = Z.of_nat (length (recv_bytes r)) /\
  recv_bytes r = firstn want b /\
  recv_bytes r ++ socket_bytes (recv_rest r) = b ++ socket_bytes s /\
  socket_size (recv_rest r) < socket_size (Data b :: s).
Proof.
  intros Hw Hb. cbn [recv recv_n recv_bytes recv_rest].
  assert (Hlen : 0 < length (firstn want b)).
  { destruct b; [congruence|]. destruct want; [lia|]. cbn. lia. }
  pose proof (firstn_skipn want b) as Hsplit.
  assert (Hl : length (firstn want b) + length (skipn want b) = length b).
  { rewrite <- length_app, Hsplit. reflexivity. }
  destruct (skipn want b) as [|x left] eqn:Hleft.
  - repeat split.
    + lia.
    + rewrite <- Hsplit at 2. rewrite app_nil_r. reflexivity.
    + cbn. lia.
  - repeat split.
    + lia.
    + cbn [socket_bytes]. rewrite app_assoc, Hsplit. reflexivity.
    + cbn [socket_size]. cbn [length] in *. lia.
Qed.

Lemma socket_bytes_data b s :
  b <> [] -> socket_bytes (Data b :: s) = b ++ socket_bytes s.
Proof. destruct b; [congruence|reflexivity]. Qed.

Lemma kReadChunkSize_pos : 0 < kReadChunkSize.
Proof. unfold kReadChunkSize. lia. Qed.

(** ** The Annex-B worker as a function of the bytes received *)

Section AnnexBWorker.

Variable callback_ : bool.

Lemma annexb_loop_fail fuel w buf :
  running_ w = true -> socket_bytes (fd w) = [] ->
  annexb_loop callback_ (S fuel) w buf
  = (mkWorker false (recv_rest (recv kReadChunkSize (fd w)))
              (asm w) (delivered w), buf).
Proof.
  intros Hr Hfd. cbn [annexb_loop]. rewrite Hr.
  pose proof (recv_fails kReadChunkSize _ Hfd) as Hn.
  apply Z.leb_le in Hn. rewrite Hn. reflexivity.
Qed.

Lemma annexb_loop_data fuel :
  forall w buf,
    socket_size (fd w) < fuel -> socket_bytes (fd w) <> [] ->
    running_ w = true ->
    exists fd',
      annexb_loop callback_ fuel w buf =
      let '((buf', a'), out) :=
        annexb_feed callback_ (socket_bytes (fd w)) (buf, asm w) in
      (mkWorker false fd' a' (delivered w ++ out), buf').
Proof.
  induction fuel as [|fuel IH]; intros w buf Hfuel Hne Hrun; [lia|].
  destruct (socket_bytes_cons _ Hne) as (b & s & Hfd & Hb).
  cbn [annexb_loop]. rewrite Hrun, Hfd in *.
  destruct (recv_data _ _ s kReadChunkSize_pos Hb)
    as (Hn & _ & _ & Hbytes & Hsize).
  set (r := recv kReadChunkSize (Data b :: s)) in *.
  replace (recv_n r <=? 0)%Z with false by (symmetry; apply Z.leb_gt; lia).
  rewrite (socket_bytes_data _ s Hb), <- Hbytes.
  rewrite annexb_feed_app.
  destruct (annexb_feed callback_ (recv_bytes r) (buf, asm w))
    as [[buf1 a1] o1] eqn:Hfeed1.
  set (w1 := mkWorker true (recv_rest r) a1 (delivered w ++ o1)).
  destruct (socket_bytes (recv_rest r)) as [|x rest] eqn:Hr'.
  - (* no byte is left: the next [recv] ends the loop *)
    destruct fuel as [|fuel]; [cbn [socket_size] in Hfuel; lia|].
    rewrite (@annexb_loop_fail fuel w1 buf1) by (try reflexivity; assumption).
    cbn [asm delivered fd w1].
    pose proof (annexb_feed_app callback_ (recv_bytes r) [] (buf, asm w)) as H.
    rewrite app_nil_r, Hfeed1 in H.
    destruct (annexb_feed callback_ [] (buf1, a1)) as [[buf2 a2] o2].
    injection H as Hb2 Ha2 Ho2. subst buf2 a2.
    rewrite <- (app_nil_r o1) in Ho2 at 1.
    apply app_inv_head in Ho2. subst o2.
    rewrite app_nil_r. eexists. reflexivity.
  - destruct (IH w1 buf1) as (fd' & Hloop).
    + cbn [fd w1]. lia.
    + cbn [fd w1]. rewrite Hr'. discriminate.
    + reflexivity.
    + exists fd'. rewrite Hloop. cbn [asm delivered fd w1]. rewrite Hr'.
      destruct (annexb_feed callback_ (x :: rest) (buf1, a1))
        as [[buf2 a2] o2].
      rewrite app_assoc. reflexivity.
Qed.

(** What the worker delivers is what one pass over all the bytes it
    receives delivers. *)
Lemma annexb_loop_bytes s :
  delivered (loop callback_ AnnexB (Some s))
  = snd (annexb_feed callback_ (socket_bytes s) ([], assembler_init)).
Proof.
  cbn [loop delivered].
  set (w0 := mkWorker true s assembler_init []).
  destruct (socket_bytes s) as [|x rest] eqn:Hs.
  - rewrite (@annexb_loop_fail (socket_size s) w0 [])
      by (try reflexivity; assumption).
    reflexivity.
  - destruct (@annexb_loop_data (S (socket_size s)) w0 []) as (fd' & Hloop).
    + cbn. lia.
    + cbn [fd w0]. rewrite Hs. discriminate.
    + reflexivity.
    + rewrite Hloop. cbn [fd w0 asm delivered]. rewrite Hs.
      destruct (annexb_feed callback_ (x :: rest) ([], assembler_init))
        as [[buf a] out]. reflexivity.
Qed.

(** Two sockets that deliver the same bytes, however segmented and
    however they end, make the worker deliver the same units. *)
Lemma annexb_loop_same_bytes s1 s2 :
  socket_bytes s1 = socket_bytes s2 ->
  delivered (loop callback_ AnnexB (Some s1))
  = delivered (loop callback_ AnnexB (Some s2)).
Proof. intros E. rewrite !annexb_loop_bytes, E. reflexivity. Qed.

Lemma bytewise_nonempty stream :
  Forall (fun c : list byte => c <> []) (bytewise stream).
Proof.
  unfold bytewise. apply Forall_forall. intros c Hc.
  apply in_map_iff in Hc. destruct Hc as (b & <- & _). discriminate.
Qed.

Lemma concat_bytewise stream : concat (bytewise stream) = stream.
Proof.
  unfold bytewise. induction stream as [|b l IH]; cbn; [|rewrite IH];
    reflexivity.
Qed.

(** One byte at a time. *)
Lemma annexb_loop_bytewise stream :
  delivered (loop callback_ AnnexB (Some (map Data (bytewise stream))))
  = delivered (loop callback_ AnnexB (Some [Data stream])).
Proof.
  apply annexb_loop_same_bytes.
  rewrite (socket_bytes_map _ (bytewise_nonempty stream)), concat_bytewise.
  cbn [socket_bytes]. destruct stream; [reflexivity|].
  rewrite app_nil_r. reflexivity.
Qed.

End AnnexBWorker.

(** ** The assembler on a sequence of NAL units *)

Lemma isVclNal_type nal :
  isVclNal nal = true <-> has_type 1 nal \/ has_type 5 nal.
Proof.
  unfold has_type. destruct nal as [|b nal]; cbn.
  - split; [discriminate|intros [H|H]; discriminate].
  - rewrite orb_true_iff, !Z.eqb_eq.
    split; (intros [H|H]; [left|right]); congruence.
Qed.

Lemma isIdrNal_type nal : isIdrNal nal = true <-> has_type 5 nal.
Proof.
  unfold has_type. destruct nal as [|b nal]; cbn.
  - split; discriminate.
  - rewrite Z.eqb_eq. split; congruence.
Qed.

Lemma isIdrNal_isVclNal nal : isIdrNal nal = true -> isVclNal nal = true.
Proof. rewrite isIdrNal_type, isVclNal_type. tauto. Qed.

Lemma frame_app g1 g2 : frame (g1 ++ g2) = frame g1 ++ frame g2.
Proof. unfold frame. rewrite map_app, concat_app. reflexivity. Qed.

Lemma frame_one nal : frame [nal] = kStartCode ++ nal.
Proof. unfold frame. cbn. rewrite app_nil_r. reflexivity. Qed.

Lemma contains_idr_app g1 g2 :
  contains_idr (g1 ++ g2) = contains_idr g1 || contains_idr g2.
Proof. apply existsb_app. Qed.

Lemma contains_idr_iff g :
  contains_idr g = true <-> exists nal, In nal g /\ has_type 5 nal.
Proof.
  unfold contains_idr. rewrite existsb_exists.
  split; intros (nal & Hin & H); exists nal; split; try assumption;
    apply isIdrNal_type; assumption.
Qed.

(** One call of the lambda, with the pending buffer described by the NAL
    units it holds. *)
Lemma emit_access_unit_pending callback_ pending nal :
  emit_access_unit callback_ nal (isVclNal nal)
                   (mkAssembler (frame pending) (contains_idr pending))
  = if isVclNal nal
    then (assembler_init,
          if callback_ then [unit_of (pending ++ [nal])] else [])
    else (mkAssembler (frame (pending ++ [nal]))
                      (contains_idr (pending ++ [nal])), []).
Proof.
  unfold emit_access_unit, unit_of. cbn [access_unit has_idr].
  rewrite frame_app, frame_one, contains_idr_app. cbn [contains_idr existsb].
  rewrite orb_false_r.
  assert (E : (if isIdrNal nal then true else contains_idr pending)
              = contains_idr pending || isIdrNal nal).
  { destruct (isIdrNal nal), (contains_idr pending); reflexivity. }
  rewrite E. destruct (isVclNal nal); reflexivity.
Qed.

(** The assembler realises the grouping of the data model. *)
Lemma assemble_groups callback_ nals :
  forall pending,
    assemble callback_ nals (mkAssembler (frame pending) (contains_idr pending))
    = let '(gs, p) := group_nals pending nals in
      (mkAssembler (frame p) (contains_idr p),
       if callback_ then map unit_of gs else []).
Proof.
  induction nals as [|nal rest IH]; intros pending; cbn [assemble group_nals].
  - destruct callback_; reflexivity.
  - rewrite emit_access_unit_pending.
    destruct (isVclNal nal).
    + change assembler_init
        with (mkAssembler (frame []) (contains_idr [])).
      rewrite IH. destruct (group_nals [] rest) as [gs p].
      destruct callback_; reflexivity.
    + rewrite IH. destruct (group_nals (pending ++ [nal]) rest) as [gs p].
      reflexivity.
Qed.

Lemma assemble_init_groups callback_ nals :
  assemble callback_ nals assembler_init
  = let '(gs, p) := group_nals [] nals in
    (mkAssembler (frame p) (contains_idr p),
     if callback_ then map unit_of gs else []).
Proof. exact (assemble_groups callback_ nals []). Qed.

(** The groups are consecutive runs of the sequence, each a run of
    non-VCL units closed by one VCL unit. *)
Lemma group_nals_partition nals :
  forall pending,
    Forall (fun nal => isVclNal nal = false) pending ->
    let '(gs, p) := group_nals pending nals in
    concat gs ++ p = pending ++ nals /\
    Forall (fun nal => isVclNal nal = false) p /\
    Forall (fun g => exists pre nal,
                g = pre ++ [nal] /\
                Forall (fun n => isVclNal n = false) pre /\
                isVclNal nal = true) gs.
Proof.
  induction nals as [|nal rest IH]; intros pending Hp; cbn [group_nals].
  - cbn. repeat split; [|assumption|constructor].
    symmetry. apply app_nil_r.
  - destruct (isVclNal nal) eqn:Hv.
    + specialize (IH [] (Forall_nil _)).
      destruct (group_nals [] rest) as [gs p].
      destruct IH as (Hcat & Hpend & Hgs). cbn in Hcat.
      repeat split; [|assumption|].
      * cbn. rewrite <- app_assoc, Hcat, <- app_assoc. reflexivity.
      * constructor; [|assumption]. exists pending, nal. auto.
    + assert (Hp' : Forall (fun n => isVclNal n = false) (pending ++ [nal])).
      { apply Forall_app. split; [assumption|]. constructor; auto. }
      specialize (IH _ Hp').
      destruct (group_nals (pending ++ [nal]) rest) as [gs p].
      destruct IH as (Hcat & Hpend & Hgs).
      repeat split; [|assumption|assumption].
      rewrite Hcat, <- app_assoc. reflexivity.
Qed.

Lemma assemble_app callback_ n1 n2 a :
  assemble callback_ (n1 ++ n2) a =
  let '(a1, o1) := assemble callback_ n1 a in
  let '(a2, o2) := assemble callback_ n2 a1 in
  (a2, o1 ++ o2).
Proof.
  revert a; induction n1 as [|nal n1 IH]; intros a; cbn [assemble app].
  - destruct (assemble callback_ n2 a). reflexivity.
  - destruct (emit_access_unit callback_ nal (isVclNal nal) a) as [a1 o1].
    rewrite IH.
    destruct (assemble callback_ n1 a1) as [a2 o2].
    destruct (assemble callback_ n2 a2) as [a3 o3].
    rewrite app_assoc. reflexivity.
Qed.

(** ** Both loops drive the assembler through [emit_access_unit] only *)

Section Fed.

Variable callback_ : bool.

Lemma fed_refl a o : fed callback_ a o a o.
Proof.
  exists [], []. repeat split; [constructor|]. symmetry. apply app_nil_r.
Qed.

Lemma fed_trans a o a1 o1 a2 o2 :
  fed callback_ a o a1 o1 -> fed callback_ a1 o1 a2 o2 ->
  fed callback_ a o a2 o2.
Proof.
  intros (n1 & out1 & F1 & A1 & E1) (n2 & out2 & F2 & A2 & E2).
  exists (n1 ++ n2), (out1 ++ out2). repeat split.
  - apply Forall_app. split; assumption.
  - rewrite assemble_app, A1, A2. reflexivity.
  - subst. symmetry. apply app_assoc.
Qed.

Lemma fed_emit nal a o a' out :
  nal <> [] ->
  emit_access_unit callback_ nal (isVclNal nal) a = (a', out) ->
  fed callback_ a o a' (o ++ out).
Proof.
  intros Hne He. exists [nal], out. repeat split.
  - constructor; [assumption|constructor].
  - cbn [assemble]. rewrite He, app_nil_r. reflexivity.
Qed.

Lemma slice_length (buf : list byte) off len :
  off + len <= length buf -> length (slice buf off len) = len.
Proof.
  intros H. unfold slice. rewrite length_firstn, length_skipn. lia.
Qed.

Lemma parse_step_fed p p' :
  parse_step callback_ p = Some p' ->
  fed callback_ (p_asm p) (p_out p) (p_asm p') (p_out p').
Proof.
  unfold parse_step.
  destruct (findStartCode (stream_buf p) (parse_pos p)) as [sc|] eqn:Hsc;
    [|discriminate].
  destruct ((parse_pos p =? 0) && (0 <? offset sc)).
  - intros [= <-]. apply fed_refl.
  - destruct (findStartCode (stream_buf p) (offset sc + size sc))
      as [nsc|] eqn:Hnsc; [|discriminate].
    apply findStartCode_bounds in Hnsc. destruct Hnsc as (Hs' & Hb' & _).
    destruct (0 <? offset nsc - (offset sc + size sc)) eqn:Hsz.
    + apply Nat.ltb_lt in Hsz.
      destruct (emit_access_unit _ _ _ _) as [a out] eqn:He.
      intros [= <-]. cbn. eapply fed_emit; [|eassumption].
      intros Hnil. apply (f_equal (@length _)) in Hnil.
      rewrite slice_length in Hnil by lia. cbn in Hnil. lia.
    + intros [= <-]. cbn. rewrite app_nil_r. apply fed_refl.
Qed.

Lemma parse_loop_fed p :
  fed callback_ (p_asm p) (p_out p)
      (p_asm (parse_loop callback_ p)) (p_out (parse_loop callback_ p)).
Proof.
  apply (@parse_loop_ind callback_
           (fun p q => fed callback_ (p_asm p) (p_out p) (p_asm q) (p_out q))).
  - intros. apply fed_refl.
  - intros p0 p' q Hstep IH. eapply fed_trans; [|exact IH].
    apply parse_step_fed. assumption.
Qed.

Lemma annexb_loop_fed fuel :
  forall w buf,
    let w' := fst (annexb_loop callback_ fuel w buf) in
    fed callback_ (asm w) (delivered w) (asm w') (delivered w').
Proof.
  induction fuel as [|fuel IH]; intros w buf; cbn [annexb_loop].
  - apply fed_refl.
  - destruct (running_ w); [|apply fed_refl].
    destruct (recv_n _ <=? 0)%Z; [apply fed_refl|].
    unfold annexb_feed. cbn [fst snd].
    set (p0 := mkParse _ 0 (asm w) []).
    pose proof (parse_loop_fed p0) as Hp. cbn [p0 p_asm p_out] in Hp.
    eapply fed_trans; [|apply IH]. cbn [asm delivered].
    destruct Hp as (nals & out & F & A & E).
    exists nals, out. repeat split; try assumption.
    fold p0. rewrite E. reflexivity.
Qed.

Lemma recv_exact_keeps fuel want :
  forall w got,
    let w' := fst (recv_exact fuel want w got) in
    asm w' = asm w /\ delivered w' = delivered w.
Proof.
  induction fuel as [|fuel IH]; intros w got; cbn [recv_exact].
  - split; reflexivity.
  - destruct (_ && _); [|split; reflexivity].
    destruct (recv_n _ <=? 0)%Z; [split; reflexivity|].
    apply (IH (mkWorker (running_ w) _ (asm w) (delivered w))).
Qed.

Lemma u32_range z : (0 <= u32 z < 2 ^ 32)%Z.
Proof. unfold u32. apply Z.mod_pos_bound. reflexivity. Qed.

Lemma be32_nonneg lenBuf : (0 <= be32 lenBuf)%Z.
Proof.
  unfold be32.
  apply Z.lor_nonneg; split;
    [apply Z.lor_nonneg; split; [apply Z.lor_nonneg; split|]|];
    apply u32_range.
Qed.

Lemma avcc_iter_fed w :
  let w' := snd (avcc_iter callback_ w) in
  fed callback_ (asm w) (delivered w) (asm w') (delivered w').
Proof.
  unfold avcc_iter.
  pose proof (recv_exact_keeps 4 4 w []) as H1.
  destruct (recv_exact 4 4 w []) as [w1 lenBuf]. cbn [fst] in H1.
  destruct H1 as [Ha1 Hd1].
  destruct (_ || _); [cbn; rewrite Ha1, Hd1; apply fed_refl|].
  destruct ((be32 lenBuf =? 0)%Z || (be32 lenBuf >? kMaxNalSize)%Z) eqn:Hlen;
    [cbn; rewrite Ha1, Hd1; apply fed_refl|].
  apply orb_false_iff in Hlen. destruct Hlen as [Hz _].
  apply Z.eqb_neq in Hz.
  pose proof (recv_exact_keeps (Z.to_nat (be32 lenBuf))
                (Z.to_nat (be32 lenBuf)) w1 []) as H2.
  destruct (recv_exact _ _ w1 []) as [w2 nal]. cbn [fst] in H2.
  destruct H2 as [Ha2 Hd2].
  destruct (negb (running_ w2) || (length nal <? Z.to_nat (be32 lenBuf)))
    eqn:Hbrk; [cbn; rewrite Ha2, Hd2, Ha1, Hd1; apply fed_refl|].
  apply orb_false_iff in Hbrk. destruct Hbrk as [_ Hfull].
  apply Nat.ltb_ge in Hfull.
  destruct (emit_access_unit _ _ _ _) as [a out] eqn:He. cbn.
  rewrite <- Ha1, <- Ha2, <- Hd1, <- Hd2.
  eapply fed_emit; [|eassumption].
  intros ->. cbn in Hfull.
  pose proof (be32_nonneg lenBuf). lia.
Qed.

Lemma avcc_loop_fed fuel :
  forall w,
    let w' := avcc_loop callback_ fuel w in
    fed callback_ (asm w) (delivered w) (asm w') (delivered w').
Proof.
  induction fuel as [|fuel IH]; intros w; cbn [avcc_loop].
  - apply fed_refl.
  - destruct (running_ w); [|apply fed_refl].
    pose proof (avcc_iter_fed w) as H.
    destruct (avcc_iter callback_ w) as [[|] w1]; cbn [snd] in H.
    + eapply fed_trans; [exact H|apply IH].
    + exact H.
Qed.

(** Whatever the framing and the socket, what the worker delivers is the
    assembler's output on a sequence of non-empty NAL units. *)
Lemma loop_fed framing_ conn :
  exists nals,
    Forall (fun nal : list byte => nal <> []) nals /\
    delivered (loop callback_ framing_ conn)
    = snd (assemble callback_ nals assembler_init).
Proof.
  destruct conn as [s|]; cbn [loop].
  - set (w0 := mkWorker true s assembler_init []).
    assert (H : forall w, fed callback_ (asm w0) (delivered w0)
                              (asm w) (delivered w) ->
                exists nals,
                  Forall (fun nal : list byte => nal <> []) nals /\
                  delivered w = snd (assemble callback_ nals assembler_init)).
    { intros w (nals & out & F & A & E). exists nals. split; [assumption|].
      cbn in A, E. rewrite A, E. reflexivity. }
    destruct framing_; cbn [delivered]; apply H.
    + apply avcc_loop_fed.
    + apply annexb_loop_fed.
  - exists []. split; [constructor|reflexivity].
Qed.

End Fed.

(** ** The big-endian length *)

Lemma u8_range b : (0 <= u8 b < 256)%Z.
Proof.
  unfold u8. pose proof (Byte.to_N_bounded b). lia.
Qed.

Lemma lor_add_aligned k x lo :
  (0 <= k)%Z -> (x mod 2 ^ k = 0)%Z -> (0 <= lo < 2 ^ k)%Z ->
  Z.lor x lo = (x + lo)%Z.
Proof.
  intros Hk Hx Hlo.
  rewrite <- Z.add_lor_land.
  assert (Hland : Z.land x lo = 0%Z).
  { apply Z.bits_inj'. intros n Hn.
    rewrite Z.land_spec, Z.bits_0.
    destruct (Z.lt_ge_cases n k) as [Hlt|Hge].
    - apply Z.div_exact in Hx; [|lia].
      rewrite Hx, Z.mul_comm, Z.mul_pow2_bits_low by lia. reflexivity.
    - rewrite <- (Z.mod_small lo (2 ^ k)) by lia.
      rewrite Z.mod_pow2_bits_high by lia. apply andb_false_r. }
  rewrite Hland. lia.
Qed.

(** [be32] is the unsigned big-endian reading of the four bytes. *)
Lemma be32_value b0 b1 b2 b3 :
  be32 [b0; b1; b2; b3]
  = (u8 b0 * 2 ^ 24 + u8 b1 * 2 ^ 16 + u8 b2 * 2 ^ 8 + u8 b3)%Z.
Proof.
  unfold be32, at_, u32. cbn [nth].
  pose proof (u8_range b0). pose proof (u8_range b1).
  pose proof (u8_range b2). pose proof (u8_range b3).
  rewrite !Z.shiftl_mul_pow2 by lia.
  assert (E8 : (2 ^ 8 = 256)%Z) by reflexivity.
  assert (E16 : (2 ^ 16 = 65536)%Z) by reflexivity.
  assert (E24 : (2 ^ 24 = 16777216)%Z) by reflexivity.
  assert (E32 : (2 ^ 32 = 4294967296)%Z) by reflexivity.
  rewrite !Z.mod_small by (rewrite ?E8, ?E16, ?E24, ?E32; lia).
  rewrite (@lor_add_aligned 24 (u8 b0 * 2 ^ 24) (u8 b1 * 2 ^ 16)).
  2: lia.
  2: apply Z.mod_mul; rewrite E24; lia.
  2: rewrite E16, E24; lia.
  rewrite (@lor_add_aligned 16 _ (u8 b2 * 2 ^ 8)).
  2: lia.
  2:{ replace (u8 b0 * 2 ^ 24 + u8 b1 * 2 ^ 16)%Z
        with ((u8 b0 * 2 ^ 8 + u8 b1) * 2 ^ 16)%Z
        by (rewrite E8, E16, E24; ring).
      apply Z.mod_mul. rewrite E16; lia. }
  2: rewrite E8, E16; lia.
  rewrite (@lor_add_aligned 8 _ (u8 b3)).
  - reflexivity.
  - lia.
  - replace (u8 b0 * 2 ^ 24 + u8 b1 * 2 ^ 16 + u8 b2 * 2 ^ 8)%Z
      with ((u8 b0 * 2 ^ 16 + u8 b1 * 2 ^ 8 + u8 b2) * 2 ^ 8)%Z
      by (rewrite E8, E16, E24; ring).
    apply Z.mod_mul. rewrite E8; lia.
  - rewrite E8; lia.
Qed.

Lemma be32_range lenBuf : (0 <= be32 lenBuf < 2 ^ 32)%Z.
Proof.
  split; [apply be32_nonneg|].
  unfold be32.
  assert (H : forall a b, (0 <= a < 2 ^ 32 -> 0 <= b < 2 ^ 32 ->
                           0 <= Z.lor a b < 2 ^ 32)%Z).
  { intros a b Ha Hb. split; [apply Z.lor_nonneg; lia|].
    destruct (Z.eq_dec (Z.lor a b) 0) as [->|Hne]; [reflexivity|].
    apply Z.log2_lt_pow2; [pose proof (Z.lor_nonneg a b); lia|].
    rewrite Z.log2_lor by lia.
    destruct (Z.eq_dec a 0) as [->|Ha0]; destruct (Z.eq_dec b 0) as [->|Hb0];
      cbn [Z.log2]; try lia.
    - rewrite Z.max_r by (apply Z.log2_nonneg).
      apply Z.log2_lt_pow2; lia.
    - rewrite Z.max_l by (apply Z.log2_nonneg).
      apply Z.log2_lt_pow2; lia.
    - apply Z.max_lub_lt; apply Z.log2_lt_pow2; lia. }
  repeat apply H; apply u32_range.
Qed.

(** ** Reading an exact number of bytes *)

(** [recv_exact] takes the next [want - length got] bytes of the socket,
    whatever the segments they arrive in; if the socket ends or fails
    before, it clears [running_] and returns what it got. *)
Lemma recv_exact_spec fuel want :
  forall w got,
    want - length got <= fuel ->
    running_ w = true ->
    let k := want - length got in
    let bytes := socket_bytes (fd w) in
    let w' := fst (recv_exact fuel want w got) in
    let got' := snd (recv_exact fuel want w got) in
    asm w' = asm w /\ delivered w' = delivered w /\
    if k <=? length bytes then
      running_ w' = true /\ got' = got ++ firstn k bytes /\
      socket_bytes (fd w') = skipn k bytes
    else
      running_ w' = false /\ got' = got ++ bytes.
Proof.
  induction fuel as [|fuel IH]; intros w got Hfuel Hrun; cbn zeta.
  - cbn [recv_exact fst snd]. replace (want - length got) with 0 by lia.
    cbn. rewrite app_nil_r. auto.
  - cbn [recv_exact]. rewrite Hrun, andb_true_r.
    destruct (length got <? want) eqn:Hlt.
    2:{ apply Nat.ltb_ge in Hlt. cbn [fst snd].
        replace (want - length got) with 0 by lia.
        cbn. rewrite app_nil_r. auto. }
    apply Nat.ltb_lt in Hlt.
    set (k := want - length got) in *.
    destruct (socket_bytes (fd w)) as [|x bytes'] eqn:Hbytes.
    + pose proof (recv_fails k _ Hbytes) as Hn.
      apply Z.leb_le in Hn. rewrite Hn. cbn [fst snd asm delivered running_].
      replace (k <=? length (@nil byte)) with false
        by (symmetry; apply Nat.leb_gt; cbn; lia).
      rewrite app_nil_r. auto.
    + assert (Hne : socket_bytes (fd w) <> [])
        by (rewrite Hbytes; discriminate).
      destruct (socket_bytes_cons _ Hne) as (b & s & Hfd & Hb).
      rewrite Hfd in *.
      assert (Hk : 0 < k) by (unfold k; lia).
      destruct (recv_data _ _ s Hk Hb) as (Hn & Hnl & Hrb & Hcat & _).
      set (r := recv k (Data b :: s)) in *.
      replace (recv_n r <=? 0)%Z with false
        by (symmetry; apply Z.leb_gt; lia).
      rewrite (socket_bytes_data _ s Hb), <- Hcat in Hbytes.
      assert (Hrbk : length (recv_bytes r) <= k)
        by (rewrite Hrb, length_firstn; lia).
      assert (Hrb1 : 0 < length (recv_bytes r)) by lia.
      set (w1 := mkWorker true (recv_rest r) (asm w) (delivered w)).
      specialize (IH w1 (got ++ recv_bytes r)).
      rewrite length_app in IH. cbn zeta in IH.
      replace (want - (length got + length (recv_bytes r)))
        with (k - length (recv_bytes r)) in IH by (unfold k; lia).
      destruct IH as (Ha & Hd & Hcase); [lia|reflexivity|].
      cbn [fd asm delivered w1] in Ha, Hd, Hcase.
      split; [assumption|]. split; [assumption|].
      rewrite <- Hbytes, length_app.
      destruct (k - length (recv_bytes r)
                <=? length (socket_bytes (recv_rest r))) eqn:Hle.
      * apply Nat.leb_le in Hle.
        replace (k <=? length (recv_bytes r)
                       + length (socket_bytes (recv_rest r)))
          with true by (symmetry; apply Nat.leb_le; lia).
        destruct Hcase as (Hr' & Hg' & Hs').
        repeat split; [assumption| |].
        -- rewrite Hg', firstn_app, (firstn_all2 (n := k)) by lia.
           rewrite <- app_assoc. reflexivity.
        -- rewrite Hs', skipn_app, (skipn_all2 (n := k)) by lia.
           reflexivity.
      * apply Nat.leb_gt in Hle.
        replace (k <=? length (recv_bytes r)
                       + length (socket_bytes (recv_rest r)))
          with false by (symmetry; apply Nat.leb_gt; lia).
        destruct Hcase as (Hr' & Hg').
        split; [assumption|]. rewrite Hg', <- app_assoc. reflexivity.
Qed.

(** ** One AVCC record *)

Section AvccRecord.

Variable callback_ : bool.

(** The socket ends or fails inside the length prefix. *)
Lemma avcc_iter_short_length w :
  running_ w = true ->
  length (socket_bytes (fd w)) < 4 ->
  exists w', avcc_iter callback_ w = (Break, w') /\
             running_ w' = false /\ asm w' = asm w /\
             delivered w' = delivered w.
Proof.
  intros Hrun Hlen. unfold avcc_iter.
  pose proof (@recv_exact_spec 4 4 w [] (Nat.le_refl _) Hrun) as H.
  cbn zeta in H. cbn [length] in H. rewrite Nat.sub_0_r in H.
  destruct (recv_exact 4 4 w []) as [w1 lenBuf]. cbn [fst snd] in H.
  destruct H as (Ha & Hd & Hcase).
  replace (4 <=? length (socket_bytes (fd w))) with false in Hcase
    by (symmetry; apply Nat.leb_gt; lia).
  destruct Hcase as [Hr _]. rewrite Hr. cbn [negb orb].
  exists w1. auto.
Qed.

(** The length prefix [lenBuf] is there, followed by [rest]. *)
Lemma avcc_iter_length w lenBuf rest :
  running_ w = true ->
  socket_bytes (fd w) = lenBuf ++ rest ->
  length lenBuf = 4 ->
  exists w1,
    recv_exact 4 4 w [] = (w1, lenBuf) /\
    running_ w1 = true /\ asm w1 = asm w /\ delivered w1 = delivered w /\
    socket_bytes (fd w1) = rest.
Proof.
  intros Hrun Hbytes Hlen.
  pose proof (@recv_exact_spec 4 4 w [] (Nat.le_refl _) Hrun) as H.
  cbn zeta in H. cbn [length] in H. rewrite Nat.sub_0_r in H.
  destruct (recv_exact 4 4 w []) as [w1 got]. cbn [fst snd] in H.
  destruct H as (Ha & Hd & Hcase).
  rewrite Hbytes, length_app in Hcase.
  replace (4 <=? length lenBuf + length rest) with true in Hcase
    by (symmetry; apply Nat.leb_le; lia).
  destruct Hcase as (Hr & Hg & Hs).
  rewrite <- Hlen in Hg, Hs.
  rewrite firstn_app, Nat.sub_diag, firstn_all, firstn_O, app_nil_r in Hg.
  rewrite skipn_app, Nat.sub_diag, skipn_all in Hs. cbn in Hg, Hs.
  exists w1. subst got. auto.
Qed.

Lemma avcc_iter_bad_length w lenBuf rest :
  running_ w = true ->
  socket_bytes (fd w) = lenBuf ++ rest ->
  length lenBuf = 4 ->
  (be32 lenBuf = 0 \/ be32 lenBuf > kMaxNalSize)%Z ->
  exists w', avcc_iter callback_ w = (Break, w') /\
             running_ w' = false /\ asm w' = asm w /\
             delivered w' = delivered w.
Proof.
  intros Hrun Hbytes Hlen Hbad.
  destruct (avcc_iter_length _ _ _ Hrun Hbytes Hlen)
    as (w1 & Hrecv & Hr1 & Ha1 & Hd1 & Hs1).
  unfold avcc_iter. rewrite Hrecv, Hr1, Hlen.
  change (4 <? 4) with false. cbn [negb orb].
  replace ((be32 lenBuf =? 0)%Z || (be32 lenBuf >? kMaxNalSize)%Z) with true.
  - eexists. split; [reflexivity|]. cbn. auto.
  - symmetry. apply orb_true_iff. destruct Hbad as [H0|Hgt].
    + left. apply Z.eqb_eq. assumption.
    + right. apply Z.gtb_lt. lia.
Qed.

Lemma avcc_length_ok lenBuf :
  (0 < be32 lenBuf <= kMaxNalSize)%Z ->
  (be32 lenBuf =? 0)%Z || (be32 lenBuf >? kMaxNalSize)%Z = false.
Proof.
  intros H. apply orb_false_iff. split.
  - apply Z.eqb_neq. lia.
  - rewrite Z.gtb_ltb. apply Z.ltb_ge. lia.
Qed.

(** The socket ends or fails inside the payload. *)
Lemma avcc_iter_short_payload w lenBuf rest :
  running_ w = true ->
  socket_bytes (fd w) = lenBuf ++ rest ->
  length lenBuf = 4 ->
  (0 < be32 lenBuf <= kMaxNalSize)%Z ->
  length rest < Z.to_nat (be32 lenBuf) ->
  exists w', avcc_iter callback_ w = (Break, w') /\
             running_ w' = false /\ asm w' = asm w /\
             delivered w' = delivered w.
Proof.
  intros Hrun Hbytes Hlen Hok Hshort.
  destruct (avcc_iter_length _ _ _ Hrun Hbytes Hlen)
    as (w1 & Hrecv & Hr1 & Ha1 & Hd1 & Hs1).
  unfold avcc_iter. rewrite Hrecv, Hr1, Hlen.
  change (4 <? 4) with false. cbn [negb orb].
  rewrite (avcc_length_ok _ Hok).
  set (L := Z.to_nat (be32 lenBuf)) in *.
  pose proof (@recv_exact_spec L L w1 []) as H.
  cbn zeta in H. cbn [length] in H. rewrite Nat.sub_0_r in H.
  specialize (H (Nat.le_refl _) Hr1).
  destruct (recv_exact L L w1 []) as [w2 nal]. cbn [fst snd] in H.
  destruct H as (Ha & Hd & Hcase).
  rewrite Hs1 in Hcase.
  replace (L <=? length rest) with false in Hcase
    by (symmetry; apply Nat.leb_gt; lia).
  destruct Hcase as [Hr2 _]. rewrite Hr2. cbn [negb orb].
  exists w2. repeat split; congruence.
Qed.

(** The whole record is there: its payload goes to the lambda. *)
Lemma avcc_iter_record w lenBuf rest :
  running_ w = true ->
  socket_bytes (fd w) = lenBuf ++ rest ->
  length lenBuf = 4 ->
  (0 < be32 lenBuf <= kMaxNalSize)%Z ->
  Z.to_nat (be32 lenBuf) <= length rest ->
  let nal := firstn (Z.to_nat (be32 lenBuf)) rest in
  exists fd',
    socket_bytes fd' = skipn (Z.to_nat (be32 lenBuf)) rest /\
    avcc_iter callback_ w =
    (Continue,
     let '(a, out) :=
       emit_access_unit callback_ nal (isVclNal nal) (asm w) in
     mkWorker true fd' a (delivered w ++ out)).
Proof.
  intros Hrun Hbytes Hlen Hok Hfull.
  destruct (avcc_iter_length _ _ _ Hrun Hbytes Hlen)
    as (w1 & Hrecv & Hr1 & Ha1 & Hd1 & Hs1).
  unfold avcc_iter. rewrite Hrecv, Hr1, Hlen.
  change (4 <? 4) with false. cbn [negb orb].
  rewrite (avcc_length_ok _ Hok).
  set (L := Z.to_nat (be32 lenBuf)) in *.
  pose proof (@recv_exact_spec L L w1 []) as H.
  cbn zeta in H. cbn [length] in H. rewrite Nat.sub_0_r in H.
  specialize (H (Nat.le_refl _) Hr1).
  destruct (recv_exact L L w1 []) as [w2 nal]. cbn [fst snd] in H.
  destruct H as (Ha & Hd & Hcase).
  rewrite Hs1 in Hcase.
  replace (L <=? length rest) with true in Hcase
    by (symmetry; apply Nat.leb_le; lia).
  destruct Hcase as (Hr2 & Hg & Hs2). cbn [app] in Hg.
  rewrite Hr2. cbn [negb orb].
  replace (length nal <? L) with false
    by (symmetry; apply Nat.ltb_ge; rewrite Hg, length_firstn; lia).
  exists (fd w2). split; [assumption|].
  rewrite Ha, Ha1, Hd, Hd1, Hg.
  destruct (emit_access_unit _ _ _ _) as [a out]. reflexivity.
Qed.

(** The AVCC loop stops because [running_] is cleared: every iteration
    that goes on has taken at least five bytes off the socket. *)
Lemma avcc_loop_exits fuel :
  forall w,
    length (socket_bytes (fd w)) < fuel ->
    running_ (avcc_loop callback_ fuel w) = false.
Proof.
  induction fuel as [|fuel IH]; intros w Hfuel; [lia|].
  cbn [avcc_loop]. destruct (running_ w) eqn:Hrun; [|assumption].
  destruct (Nat.lt_ge_cases (length (socket_bytes (fd w))) 4) as [Hlt|Hge].
  - destruct (avcc_iter_short_length _ Hrun Hlt) as (w' & -> & Hr & _).
    assumption.
  - pose proof (firstn_skipn 4 (socket_bytes (fd w))) as Hsplit.
    symmetry in Hsplit.
    assert (Hl4 : length (firstn 4 (socket_bytes (fd w))) = 4)
      by (rewrite length_firstn; lia).
    set (lenBuf := firstn 4 (socket_bytes (fd w))) in *.
    set (rest := skipn 4 (socket_bytes (fd w))) in *.
    assert (Hrest : length (socket_bytes (fd w)) = 4 + length rest).
    { rewrite Hsplit at 1. rewrite length_app. lia. }
    pose proof (be32_nonneg lenBuf) as Hnn.
    destruct (Z.eq_dec (be32 lenBuf) 0) as [H0|H0].
    { destruct (avcc_iter_bad_length _ _ _ Hrun Hsplit Hl4 (or_introl H0))
        as (w' & -> & Hr & _). assumption. }
    destruct (Z_gt_dec (be32 lenBuf) kMaxNalSize) as [Hgt|Hle].
    { destruct (avcc_iter_bad_length _ _ _ Hrun Hsplit Hl4 (or_intror Hgt))
        as (w' & -> & Hr & _). assumption. }
    assert (Hok : (0 < be32 lenBuf <= kMaxNalSize)%Z) by lia.
    destruct (Nat.lt_ge_cases (length rest) (Z.to_nat (be32 lenBuf)))
      as [Hshort|Hfull].
    + destruct (avcc_iter_short_payload _ _ _ Hrun Hsplit Hl4 Hok Hshort)
        as (w' & -> & Hr & _). assumption.
    + destruct (avcc_iter_record _ _ _ Hrun Hsplit Hl4 Hok Hfull)
        as (fd' & Hfd' & ->).
      destruct (emit_access_unit _ _ _ _) as [a out].
      apply IH. cbn [fd]. rewrite Hfd', length_skipn. lia.
Qed.

End AvccRecord.

Lemma socket_bytes_size s : length (socket_bytes s) <= socket_size s.
Proof.
  induction s as [|[b|] s IH]; cbn; try lia.
  destruct b; cbn; [lia|]. rewrite length_app. lia.
Qed.

(** The worker's loop ends with [running_] cleared, in both framings:
    the bound on the iterations of the model is never what stops it. *)
Lemma loop_exits callback_ s :
  running_ (avcc_loop callback_ (S (socket_size s))
                      (mkWorker true s assembler_init [])) = false /\
  running_ (fst (annexb_loop callback_ (S (socket_size s))
                             (mkWorker true s assembler_init []) [])) = false.
Proof.
  split.
  - apply avcc_loop_exits. cbn [fd]. pose proof (socket_bytes_size s). lia.
  - set (w0 := mkWorker true s assembler_init []).
    destruct (socket_bytes s) as [|x rest] eqn:Hs.
    + rewrite (@annexb_loop_fail callback_ (socket_size s) w0 [])
        by (try reflexivity; assumption).
      reflexivity.
    + destruct (@annexb_loop_data callback_ (S (socket_size s)) w0 [])
        as (fd' & Hloop).
      * cbn. lia.
      * cbn [fd w0]. rewrite Hs. discriminate.
      * reflexivity.
      * rewrite Hloop.
        destruct (annexb_feed callback_ _ _) as [[buf a] out]. reflexivity.
Qed.

(** ** Start codes around well-formed NAL payloads *)

Lemma nal_clean_skipn j : forall nal,
  nal_clean nal = true -> nal_clean (skipn j nal) = true.
Proof.
  induction j as [|j IH]; intros nal H; [assumption|].
  destruct nal as [|b tl]; [reflexivity|].
  cbn [skipn]. apply IH. cbn [nal_clean] in H.
  apply andb_true_iff in H. tauto.
Qed.

(** Inside a well-formed payload the test of [findStartCode] fails,
    whatever follows the payload. *)
Lemma sc_at_clean b tl rest :
  nal_clean (b :: tl) = true -> sc_at ((b :: tl) ++ rest) 0 = None.
Proof.
  intros H. cbn [nal_clean] in H. apply andb_true_iff in H.
  destruct H as [H _]. unfold sc_at, at_.
  destruct (0 + 3 <? length ((b :: tl) ++ rest)); [|reflexivity].
  cbn [Nat.add nth app].
  destruct (u8 b =? 0)%Z; [|reflexivity].
  destruct tl as [|b1 tl]; [discriminate|]. cbn [nth app].
  destruct (u8 b1 =? 0)%Z; [|reflexivity].
  destruct tl as [|b2 tl]; [discriminate|]. cbn [nth app andb].
  apply andb_true_iff in H. destruct H as [H0 H1].
  apply negb_true_iff in H0, H1. rewrite H0, H1.
  rewrite andb_false_r. reflexivity.
Qed.

Lemma sc_at_clean_inside nal rest j :
  nal_clean nal = true -> j < length nal -> sc_at (nal ++ rest) j = None.
Proof.
  intros Hc Hj.
  replace j with (j + 0) by lia. rewrite <- sc_at_skipn.
  rewrite skipn_app_le by lia.
  pose proof (nal_clean_skipn j _ Hc) as Hc'.
  destruct (skipn j nal) as [|b tl] eqn:E.
  - apply (f_equal (@length _)) in E. rewrite length_skipn in E.
    cbn in E. lia.
  - apply sc_at_clean. assumption.
Qed.

Lemma sc_at_start_code sc post :
  is_start_code sc -> post <> [] ->
  sc_at (sc ++ post) 0 = Some (length sc).
Proof.
  intros [-> | ->] Hp; (destruct post as [|t tl]; [congruence|]); reflexivity.
Qed.

Lemma skipn_app_exact (x y : list byte) : skipn (length x) (x ++ y) = y.
Proof.
  rewrite skipn_app, skipn_all, Nat.sub_diag. reflexivity.
Qed.

(** The next start code after a well-formed payload is the one that
    follows it, provided at least one byte comes after that start code. *)
Lemma findStartCode_after pre nal sc post :
  nal_clean nal = true -> is_start_code sc -> post <> [] ->
  findStartCode (pre ++ nal ++ sc ++ post) (length pre)
  = Some (mkStartCode (length pre + length nal) (length sc)).
Proof.
  intros Hc Hsc Hp.
  replace (length pre) with (length pre + 0) at 1 by lia.
  rewrite findStartCode_skipn, skipn_app_exact.
  rewrite (findStartCode_intro (nal ++ sc ++ post) 0 (length nal) (length sc)).
  - reflexivity.
  - lia.
  - replace (length nal) with (length nal + 0) at 1 by lia.
    rewrite <- sc_at_skipn, skipn_app_exact.
    apply sc_at_start_code; assumption.
  - intros j Hj. apply sc_at_clean_inside; [assumption|lia].
Qed.

Lemma findStartCode_clean_none nal :
  nal_clean nal = true -> findStartCode nal 0 = None.
Proof.
  intros Hc. apply findStartCode_none_intro. intros j _.
  destruct (Nat.lt_ge_cases j (length nal)) as [Hlt|Hge].
  - rewrite <- (app_nil_r nal). apply sc_at_clean_inside; assumption.
  - unfold sc_at.
    replace (j + 3 <? length nal) with false
      by (symmetry; apply Nat.ltb_ge; lia).
    reflexivity.
Qed.

Lemma findStartCode_tail pre tail :
  findStartCode tail 0 = None ->
  findStartCode (pre ++ tail) (length pre) = None.
Proof.
  intros H. replace (length pre) with (length pre + 0) at 1 by lia.
  rewrite findStartCode_skipn, skipn_app_exact, H. reflexivity.
Qed.

Lemma slice_mid (pre x post : list byte) :
  slice (pre ++ x ++ post) (length pre) (length x) = x.
Proof.
  unfold slice. rewrite skipn_app_exact, firstn_app, firstn_all, Nat.sub_diag.
  cbn. apply app_nil_r.
Qed.

(** ** Iterations of the inner loop at a start code *)

(** [parse_pos] is at a start code and the next one is known: the bytes
    between them go to the lambda when there are any. *)
Lemma parse_step_pair callback_ buf pos z o' z' a out :
  findStartCode buf pos = Some (mkStartCode pos z) ->
  findStartCode buf (pos + z) = Some (mkStartCode o' z') ->
  parse_step callback_ (mkParse buf pos a out) =
  Some (let '(a', o) :=
          if 0 <? o' - (pos + z) then
            let nal := slice buf (pos + z) (o' - (pos + z)) in
            emit_access_unit callback_ nal (isVclNal nal) a
          else (a, []) in
        mkParse buf o' a' (out ++ o)).
Proof.
  intros H1 H2. unfold parse_step. cbn [stream_buf parse_pos p_asm p_out].
  rewrite H1. cbn [offset size].
  replace ((pos =? 0) && (0 <? pos)) with false
    by (destruct pos; reflexivity).
  rewrite H2. cbn [offset size].
  destruct (if 0 <? _ then _ else _) as [a' o]. reflexivity.
Qed.

(** [parse_pos] is at a start code and no further one is in the buffer:
    the loop is left ("need more data for the next NAL"). *)
Lemma parse_step_wait callback_ buf pos z a out :
  findStartCode buf pos = Some (mkStartCode pos z) ->
  findStartCode buf (pos + z) = None ->
  parse_step callback_ (mkParse buf pos a out) = None.
Proof.
  intros H1 H2. unfold parse_step. cbn [stream_buf parse_pos p_asm p_out].
  rewrite H1. cbn [offset size].
  replace ((pos =? 0) && (0 <? pos)) with false
    by (destruct pos; reflexivity).
  rewrite H2. reflexivity.
Qed.

(** ** A parameter set followed by an IDR slice *)

Lemma has_type_nonempty t nal : has_type t nal -> nal <> [].
Proof. destruct nal; [discriminate|discriminate]. Qed.

Lemma has_type_7_flags nal :
  has_type 7 nal -> isVclNal nal = false /\ isIdrNal nal = false.
Proof.
  unfold has_type. destruct nal as [|b nal]; [discriminate|]. cbn.
  intros [= ->]. split; reflexivity.
Qed.

Lemma has_type_5_flags nal :
  has_type 5 nal -> isVclNal nal = true /\ isIdrNal nal = true.
Proof.
  unfold has_type. destruct nal as [|b nal]; [discriminate|]. cbn.
  intros [= ->]. split; reflexivity.
Qed.

Section SpsIdr.

Variable callback_ : bool.
Variables sps idr : list byte.
Hypothesis sps_clean : nal_clean sps = true.
Hypothesis idr_clean : nal_clean idr = true.
Hypothesis sps_type : has_type 7 sps.
Hypothesis idr_type : has_type 5 idr.

(** The two units are in the buffer and a further start code with at
    least one byte behind it has arrived: one access unit is delivered. *)
Lemma annexb_feed_sps_idr sc tail :
  is_start_code sc -> tail <> [] -> findStartCode tail 0 = None ->
  snd (annexb_feed callback_
         (kStartCode ++ sps ++ kStartCode3 ++ idr ++ sc ++ tail)
         ([], assembler_init))
  = if callback_
    then [mkAccessUnit (kStartCode ++ sps ++ kStartCode ++ idr) true]
    else [].
Proof.
  intros Hsc Htail Hnone.
  pose proof (has_type_nonempty _ _ sps_type) as Hsps.
  pose proof (has_type_nonempty _ _ idr_type) as Hidr.
  destruct (has_type_7_flags _ sps_type) as [Hv7 Hi7].
  destruct (has_type_5_flags _ idr_type) as [Hv5 Hi5].
  unfold annexb_feed. cbn [fst snd app].
  set (buf := kStartCode ++ sps ++ kStartCode3 ++ idr ++ sc ++ tail).
  set (P1 := 4 + length sps).
  set (P2 := P1 + 3 + length idr).
  assert (Hsclen : length sc = 3 \/ length sc = 4)
    by (destruct Hsc as [-> | ->]; [left|right]; reflexivity).
  assert (F0 : findStartCode buf 0 = Some (mkStartCode 0 4)).
  { apply (findStartCode_after [] [] kStartCode
             (sps ++ kStartCode3 ++ idr ++ sc ++ tail));
      [reflexivity|right; reflexivity|].
    destruct sps; [congruence|discriminate]. }
  assert (F1 : findStartCode buf 4 = Some (mkStartCode P1 3)).
  { apply (findStartCode_after kStartCode sps kStartCode3
             (idr ++ sc ++ tail)); [assumption|left; reflexivity|].
    destruct idr; [congruence|discriminate]. }
  assert (F1' : findStartCode buf P1 = Some (mkStartCode P1 3)).
  { apply (findStartCode_restart _ _ _ _ F1). cbn. unfold P1. lia. }
  assert (F2 : findStartCode buf (P1 + 3) = Some (mkStartCode P2 (length sc))).
  { pose proof (findStartCode_after (kStartCode ++ sps ++ kStartCode3)
                  idr sc tail idr_clean Hsc Htail) as H.
    rewrite <- !app_assoc in H. rewrite !length_app in H.
    cbn [length kStartCode kStartCode3 app] in H.
    replace (4 + (length sps + 3)) with (P1 + 3) in H by (unfold P1; lia).
    exact H. }
  assert (F2' : findStartCode buf P2 = Some (mkStartCode P2 (length sc))).
  { apply (findStartCode_restart _ _ _ _ F2). cbn. unfold P2. lia. }
  assert (F3 : findStartCode buf (P2 + length sc) = None).
  { pose proof (findStartCode_tail
                  (kStartCode ++ sps ++ kStartCode3 ++ idr ++ sc) tail Hnone)
      as H.
    rewrite <- !app_assoc in H. rewrite !length_app in H.
    cbn [length kStartCode kStartCode3 app] in H.
    replace (4 + (length sps + (3 + (length idr + length sc))))
      with (P2 + length sc) in H by (unfold P2, P1; lia).
    exact H. }
  assert (S1 : slice buf 4 (length sps) = sps).
  { apply (slice_mid kStartCode sps). }
  assert (S2 : slice buf (P1 + 3) (length idr) = idr).
  { pose proof (slice_mid (kStartCode ++ sps ++ kStartCode3) idr (sc ++ tail))
      as H.
    rewrite <- !app_assoc in H. rewrite !length_app in H.
    cbn [length kStartCode kStartCode3 app] in H.
    replace (4 + (length sps + 3)) with (P1 + 3) in H by (unfold P1; lia).
    exact H. }
  assert (Hl1 : 0 < length sps) by (destruct sps; [congruence|cbn; lia]).
  assert (Hl2 : 0 < length idr) by (destruct idr; [congruence|cbn; lia]).
  (* first iteration: the parameter set is appended *)
  erewrite parse_loop_step;
    [|apply (parse_step_pair _ _ 0 4 P1 3); eassumption].
  replace (P1 - (0 + 4)) with (length sps) by (unfold P1; lia).
  replace (0 <? length sps) with true by (symmetry; apply Nat.ltb_lt; lia).
  cbn zeta. cbn [Nat.add]. rewrite S1, Hv7.
  unfold emit_access_unit at 1. rewrite Hi7. cbn [negb access_unit has_idr app].
  (* second iteration: the IDR slice closes the unit *)
  erewrite parse_loop_step;
    [|apply (parse_step_pair _ _ P1 3 P2 (length sc)); eassumption].
  replace (P2 - (P1 + 3)) with (length idr) by (unfold P2; lia).
  replace (0 <? length idr) with true by (symmetry; apply Nat.ltb_lt; lia).
  cbn zeta. rewrite S2, Hv5.
  unfold emit_access_unit at 1. rewrite Hi5. cbn [negb access_unit has_idr app].
  (* third iteration: no start code after the last one *)
  rewrite parse_loop_stop
    by (apply (parse_step_wait _ _ P2 (length sc)); assumption).
  cbn [p_out]. rewrite <- !app_assoc. cbn [app].
  destruct callback_; reflexivity.
Qed.

(** The stream stops after the IDR slice: nothing is delivered. *)
Lemma annexb_feed_sps_idr_open :
  snd (annexb_feed callback_ (kStartCode ++ sps ++ kStartCode3 ++ idr)
         ([], assembler_init)) = [].
Proof.
  pose proof (has_type_nonempty _ _ sps_type) as Hsps.
  pose proof (has_type_nonempty _ _ idr_type) as Hidr.
  destruct (has_type_7_flags _ sps_type) as [Hv7 Hi7].
  unfold annexb_feed. cbn [fst snd app].
  set (buf := kStartCode ++ sps ++ kStartCode3 ++ idr).
  set (P1 := 4 + length sps).
  assert (F0 : findStartCode buf 0 = Some (mkStartCode 0 4)).
  { apply (findStartCode_after [] [] kStartCode (sps ++ kStartCode3 ++ idr));
      [reflexivity|right; reflexivity|].
    destruct sps; [congruence|discriminate]. }
  assert (F1 : findStartCode buf 4 = Some (mkStartCode P1 3)).
  { pose proof (findStartCode_after kStartCode sps kStartCode3 idr
                  sps_clean (or_introl eq_refl) Hidr) as H.
    exact H. }
  assert (F1' : findStartCode buf P1 = Some (mkStartCode P1 3)).
  { apply (findStartCode_restart _ _ _ _ F1). cbn. unfold P1. lia. }
  assert (F2 : findStartCode buf (P1 + 3) = None).
  { pose proof (findStartCode_tail (kStartCode ++ sps ++ kStartCode3) idr
                  (findStartCode_clean_none _ idr_clean)) as H.
    rewrite <- !app_assoc in H. rewrite !length_app in H.
    cbn [length kStartCode kStartCode3 app] in H.
    replace (4 + (length sps + 3)) with (P1 + 3) in H by (unfold P1; lia).
    exact H. }
  assert (S1 : slice buf 4 (length sps) = sps).
  { apply (slice_mid kStartCode sps). }
  assert (Hl1 : 0 < length sps) by (destruct sps; [congruence|cbn; lia]).
  erewrite parse_loop_step;
    [|apply (parse_step_pair _ _ 0 4 P1 3); eassumption].
  replace (P1 - (0 + 4)) with (length sps) by (unfold P1; lia).
  replace (0 <? length sps) with true by (symmetry; apply Nat.ltb_lt; lia).
  cbn zeta. cbn [Nat.add]. rewrite S1, Hv7.
  unfold emit_access_unit at 1. rewrite Hi7. cbn [negb access_unit has_idr app].
  rewrite parse_loop_stop by (apply (parse_step_wait _ _ P1 3); assumption).
  reflexivity.
Qed.

End SpsIdr.

(** ** The lifecycle: what holds in every state a trace can reach *)

Lemma lifecycle_step_inv e i i' :
  lifecycle_inv i -> Lifecycle.step e i = Lifecycle.Alive i' ->
  lifecycle_inv i'.
Proof.
  unfold lifecycle_inv. destruct i as [r j w c n]; cbn.
  intros (Hw & Hj & Hr).
  destruct e;
    unfold Lifecycle.step, Lifecycle.start, Lifecycle.stop_join,
           Lifecycle.stop_store;
    cbn [Lifecycle.running_ Lifecycle.joinable Lifecycle.workers
         Lifecycle.connecting Lifecycle.spawned].
  - destruct r.
    + intros [= <-]; cbn. auto.
    + destruct j; [discriminate|]. intros [= <-]; cbn.
      assert (w = 0) by (destruct w as [|[|w]]; [reflexivity|
                         specialize (Hj eq_refl); discriminate|lia]).
      subst w. auto.
  - intros [= <-]; cbn. repeat split; [assumption|assumption|discriminate].
  - destruct j.
    + destruct (w =? 0) eqn:E; [|discriminate]. intros [= <-]; cbn.
      apply Nat.eqb_eq in E. subst w.
      repeat split; [lia|discriminate|]. intros H. apply Hr in H. lia.
    + intros [= <-]; cbn. auto.
  - destruct ((0 <? w) && c); [|discriminate]. intros [= <-]; cbn.
    repeat split; [lia| |discriminate]. intros H. lia.
  - destruct ((0 <? w) && c); [|discriminate]. intros [= <-]; cbn. auto.
  - destruct ((0 <? w) && negb c); [|discriminate]. intros [= <-]; cbn.
    repeat split; [assumption|assumption|discriminate].
  - destruct ((0 <? w) && negb c); [|discriminate]. intros [= <-]; cbn.
    repeat split; [lia| |discriminate]. intros H. lia.
Qed.

Lemma lifecycle_exec_inv trace :
  forall i i', lifecycle_inv i ->
               Lifecycle.exec trace i = Lifecycle.Alive i' ->
               lifecycle_inv i'.
Proof.
  induction trace as [|e trace IH]; intros i i' Hinv; cbn.
  - intros [= <-]. assumption.
  - destruct (Lifecycle.step e i) as [i1| |] eqn:E; try discriminate.
    apply IH. apply (lifecycle_step_inv e i i1); assumption.
Qed.

Lemma lifecycle_inv_construct : lifecycle_inv Lifecycle.construct.
Proof. repeat split; cbn; [lia|discriminate|discriminate]. Qed.

(** [stop()] on a new instance changes nothing. *)
Example stop_before_start :
  Lifecycle.exec [Lifecycle.StopStore; Lifecycle.StopJoin] Lifecycle.construct
  = Lifecycle.Alive Lifecycle.construct.
Proof. reflexivity. Qed.

(** An instance is not restarted in place after a failure: [start()]
    finds [thread_] still joinable. *)
Example restart_after_failure :
  Lifecycle.exec [Lifecycle.CallStart; Lifecycle.ConnectFails;
                  Lifecycle.CallStart] Lifecycle.construct
  = Lifecycle.Terminated.
Proof. reflexivity. Qed.

(** After [stop()] has joined the worker, [start()] creates a new one. *)
Example restart_after_stop :
  Lifecycle.exec [Lifecycle.CallStart; Lifecycle.Connected;
                  Lifecycle.StopStore; Lifecycle.WorkerReturns;
                  Lifecycle.StopJoin; Lifecycle.CallStart]
                 Lifecycle.construct
  = Lifecycle.Alive (Lifecycle.mkInstance true true 1 true 2).
Proof. reflexivity. Qed.

(** After a failed connect and without a further [start()], only the two
    halves of [stop()] can happen, and they leave the flag cleared. *)
Lemma after_connect_failure_step e i i' :
  e <> Lifecycle.CallStart ->
  after_connect_failure i -> Lifecycle.step e i = Lifecycle.Alive i' ->
  after_connect_failure i'.
Proof.
  unfold after_connect_failure. destruct i as [r j w c n]; cbn.
  intros He (-> & -> & ->).
  destruct e;
    unfold Lifecycle.step, Lifecycle.start, Lifecycle.stop_join,
           Lifecycle.stop_store;
    cbn [Lifecycle.running_ Lifecycle.joinable Lifecycle.workers
         Lifecycle.connecting Lifecycle.spawned Nat.ltb Nat.leb andb Nat.eqb];
    try congruence.
  - intros [= <-]; cbn. auto.
  - destruct j; intros [= <-]; cbn; auto.
Qed.

Lemma after_connect_failure_exec trace :
  forall i i', ~ In Lifecycle.CallStart trace ->
               after_connect_failure i ->
               Lifecycle.exec trace i = Lifecycle.Alive i' ->
               after_connect_failure i'.
Proof.
  induction trace as [|e trace IH]; intros i i' Hno Hi; cbn.
  - intros [= <-]. assumption.
  - destruct (Lifecycle.step e i) as [i1| |] eqn:E; try discriminate.
    apply IH.
    + intros H. apply Hno. right. assumption.
    + apply (after_connect_failure_step e i i1); try assumption.
      intros ->. apply Hno. left. reflexivity.
Qed.


(** ** The AVCC worker on a stream of length-prefixed units *)

Lemma u8_byte_of_Z z : u8 (byte_of_Z z) = (z mod 256)%Z.
Proof.
  unfold byte_of_Z, u8.
  pose proof (Z.mod_pos_bound z 256 eq_refl) as Hr.
  destruct (Byte.of_N (Z.to_N (z mod 256))) as [b|] eqn:E.
  - apply Byte.to_of_N in E. rewrite E. lia.
  - apply Byte.of_N_None_iff in E. lia.
Qed.

Lemma be32_be32_bytes n : (0 <= n < 2 ^ 32)%Z -> be32 (be32_bytes n) = n.
Proof.
  intros Hn. unfold be32_bytes. rewrite be32_value, !u8_byte_of_Z.
  assert (E8 : (2 ^ 8 = 256)%Z) by reflexivity.
  assert (E16 : (2 ^ 16 = 256 * 256)%Z) by reflexivity.
  assert (E24 : (2 ^ 24 = 256 * 256 * 256)%Z) by reflexivity.
  assert (E32 : (2 ^ 32 = 4294967296)%Z) by reflexivity.
  rewrite E8, E16, E24 in *. rewrite E32 in Hn.
  rewrite <- !Z.div_div by lia.
  pose proof (Z.div_mod n 256 ltac:(lia)) as D0.
  pose proof (Z.mod_pos_bound n 256 eq_refl) as B0.
  pose proof (Z.div_mod (n / 256) 256 ltac:(lia)) as D1.
  pose proof (Z.mod_pos_bound (n / 256) 256 eq_refl) as B1.
  pose proof (Z.div_mod (n / 256 / 256) 256 ltac:(lia)) as D2.
  pose proof (Z.mod_pos_bound (n / 256 / 256) 256 eq_refl) as B2.
  pose proof (Z.div_mod (n / 256 / 256 / 256) 256 ltac:(lia)) as D3.
  pose proof (Z.mod_pos_bound (n / 256 / 256 / 256) 256 eq_refl) as B3.
  assert (Hq : (n / 256 / 256 / 256 / 256 = 0)%Z).
  { rewrite !Z.div_div by lia. apply Z.div_small. lia. }
  lia.
Qed.

Lemma length_be32_bytes n : length (be32_bytes n) = 4.
Proof. reflexivity. Qed.

Section AvccStream.

Variable callback_ : bool.

Lemma avcc_loop_stream nals :
  forall fuel w,
    length (socket_bytes (fd w)) < fuel ->
    running_ w = true ->
    socket_bytes (fd w) = avcc_stream nals ->
    Forall avcc_nal_ok nals ->
    delivered (avcc_loop callback_ fuel w)
    = delivered w ++ snd (assemble callback_ nals (asm w)).
Proof.
  induction nals as [|nal rest IH]; intros fuel w Hfuel Hrun Hbytes Hok.
  - destruct fuel as [|fuel]; [lia|]. cbn [avcc_loop]. rewrite Hrun.
    destruct (avcc_iter_short_length callback_ w Hrun)
      as (w' & -> & _ & _ & Hd).
    + rewrite Hbytes. cbn. lia.
    + rewrite Hd. cbn. rewrite app_nil_r. reflexivity.
  - inversion Hok as [|? ? Hnal Hrest]; subst. unfold avcc_nal_ok in Hnal.
    assert (Hk : kMaxNalSize = 4194304%Z) by reflexivity.
    assert (Hbe : be32 (be32_bytes (Z.of_nat (length nal)))
                  = Z.of_nat (length nal)).
    { apply be32_be32_bytes.
      assert (E32 : (2 ^ 32 = 4294967296)%Z) by reflexivity. lia. }
    assert (Hsplit : socket_bytes (fd w)
                     = be32_bytes (Z.of_nat (length nal))
                       ++ (nal ++ avcc_stream rest)).
    { rewrite Hbytes. unfold avcc_stream. cbn [map concat].
      rewrite <- app_assoc. reflexivity. }
    destruct (avcc_iter_record callback_ w _ _ Hrun Hsplit
                (length_be32_bytes _)) as (fd' & Hfd' & Hit).
    + rewrite Hbe. lia.
    + rewrite Hbe, Nat2Z.id, length_app. lia.
    + rewrite Hbe, Nat2Z.id in Hfd', Hit.
      rewrite skipn_app, skipn_all, Nat.sub_diag in Hfd'. cbn in Hfd'.
      rewrite firstn_app, firstn_all, Nat.sub_diag in Hit.
      cbn [firstn] in Hit. rewrite app_nil_r in Hit.
      destruct fuel as [|fuel]; [lia|]. cbn [avcc_loop assemble].
      rewrite Hrun, Hit.
      destruct (emit_access_unit callback_ nal (isVclNal nal) (asm w))
        as [a out].
      rewrite IH; try assumption; try reflexivity.
      * cbn [asm delivered].
        destruct (assemble callback_ rest a) as [a2 o2]. cbn [snd].
        rewrite app_assoc. reflexivity.
      * cbn [fd]. rewrite Hfd'. rewrite Hsplit, !length_app in Hfuel.
        rewrite length_be32_bytes in Hfuel. lia.
Qed.

(** A socket that delivers the AVCC encoding of [nals] and closes: the
    worker delivers what the assembler makes of [nals]. *)
Lemma avcc_stream_delivered s nals :
  Forall avcc_nal_ok nals ->
  socket_bytes s = avcc_stream nals ->
  delivered (loop callback_ Avcc (Some s))
  = snd (assemble callback_ nals assembler_init).
Proof.
  intros Hok Hbytes. cbn [loop delivered].
  rewrite (avcc_loop_stream nals); try assumption; try reflexivity.
  cbn [fd]. pose proof (socket_bytes_size s). lia.
Qed.

End AvccStream.

(** ** The Annex-B worker on a stream of start-code-prefixed units *)

Section AnnexBStream.

Variable callback_ : bool.
Variables sc tail : list byte.
Hypothesis sc_ok : is_start_code sc.
Hypothesis tail_nonempty : tail <> [].
Hypothesis tail_plain : findStartCode tail 0 = None.

(** What follows a unit begins with a start code that has a byte behind
    it: the start code of the next unit, or the closing one. *)
Lemma annexb_stream_head units :
  Forall annexb_unit_ok units ->
  exists sc' post,
    annexb_stream units ++ sc ++ tail = sc' ++ post /\
    is_start_code sc' /\ post <> [].
Proof.
  intros Hok. destruct units as [|[sc1 nal1] rest].
  - exists sc, tail. auto.
  - inversion Hok as [|? ? (Hsc1 & _ & Hne) _]; subst. cbn in Hsc1, Hne.
    exists sc1, (nal1 ++ annexb_stream rest ++ sc ++ tail).
    repeat split; [|assumption|].
    + unfold annexb_stream. cbn [map concat fst snd].
      rewrite <- !app_assoc. reflexivity.
    + destruct nal1; [congruence|discriminate].
Qed.

(** The inner loop, standing at the start code of the first of [units]:
    it hands the payloads to the lambda one after the other and stops at
    the closing start code. *)
Lemma parse_loop_units units :
  forall pre a out,
    Forall annexb_unit_ok units ->
    let p := parse_loop callback_
               (mkParse (pre ++ annexb_stream units ++ sc ++ tail)
                        (length pre) a out) in
    p_asm p = fst (assemble callback_ (map snd units) a) /\
    p_out p = out ++ snd (assemble callback_ (map snd units) a).
Proof.
  induction units as [|[sc1 nal1] rest IH]; intros pre a out Hok; cbn zeta.
  - cbn [annexb_stream map concat app assemble fst snd].
    rewrite parse_loop_stop.
    + cbn. rewrite app_nil_r. auto.
    + apply (parse_step_wait callback_ _ (length pre) (length sc)).
      * pose proof (findStartCode_after pre [] sc tail eq_refl sc_ok
                      tail_nonempty) as H.
        cbn [app length] in H. rewrite Nat.add_0_r in H. exact H.
      * pose proof (findStartCode_tail (pre ++ sc) tail tail_plain) as H.
        rewrite <- app_assoc, length_app in H. exact H.
  - inversion Hok as [|? ? (Hsc1 & Hclean & Hne) Hrest]; subst.
    cbn [fst snd] in Hsc1, Hclean, Hne.
    destruct (annexb_stream_head rest Hrest)
      as (sc2 & post2 & Hhead & Hsc2 & Hp2).
    set (buf := pre ++ annexb_stream ((sc1, nal1) :: rest) ++ sc ++ tail).
    assert (Hbuf : buf = pre ++ sc1 ++ nal1 ++ sc2 ++ post2).
    { unfold buf, annexb_stream. cbn [map concat fst snd].
      rewrite <- !app_assoc. fold (annexb_stream rest).
      rewrite Hhead. reflexivity. }
    assert (F1 : findStartCode buf (length pre)
                 = Some (mkStartCode (length pre) (length sc1))).
    { rewrite Hbuf.
      pose proof (findStartCode_after pre [] sc1 (nal1 ++ sc2 ++ post2)
                    eq_refl Hsc1) as H.
      cbn [app length] in H. rewrite Nat.add_0_r in H. apply H.
      destruct nal1; [congruence|discriminate]. }
    assert (F2 : findStartCode buf (length pre + length sc1)
                 = Some (mkStartCode (length pre + length sc1 + length nal1)
                                     (length sc2))).
    { rewrite Hbuf.
      pose proof (findStartCode_after (pre ++ sc1) nal1 sc2 post2
                    Hclean Hsc2 Hp2) as H.
      rewrite <- app_assoc, length_app in H. exact H. }
    assert (S1 : slice buf (length pre + length sc1) (length nal1) = nal1).
    { rewrite Hbuf.
      pose proof (slice_mid (pre ++ sc1) nal1 (sc2 ++ post2)) as H.
      rewrite <- app_assoc, length_app in H. exact H. }
    assert (Hl : 0 < length nal1) by (destruct nal1; [congruence|cbn; lia]).
    erewrite parse_loop_step;
      [|apply (parse_step_pair callback_ _ _ _ _ _ _ _ F1 F2)].
    replace (length pre + length sc1 + length nal1
             - (length pre + length sc1)) with (length nal1) by lia.
    replace (0 <? length nal1) with true by (symmetry; apply Nat.ltb_lt; lia).
    cbn zeta. rewrite S1. cbn [map snd assemble].
    destruct (emit_access_unit callback_ nal1 (isVclNal nal1) a)
      as [a1 o1].
    specialize (IH (pre ++ sc1 ++ nal1) a1 (out ++ o1) Hrest).
    cbn zeta in IH.
    replace (length (pre ++ sc1 ++ nal1))
      with (length pre + length sc1 + length nal1) in IH
      by (rewrite !length_app; lia).
    replace ((pre ++ sc1 ++ nal1) ++ annexb_stream rest ++ sc ++ tail)
      with buf in IH.
    + destruct IH as [Ha Ho]. rewrite Ha, Ho.
      destruct (assemble callback_ (map snd rest) a1) as [a2 o2]. cbn [fst snd].
      split; [reflexivity|]. symmetry. apply app_assoc.
    + unfold buf, annexb_stream. cbn [map concat fst snd].
      rewrite <- !app_assoc. reflexivity.
Qed.

(** A socket that delivers [units], each payload behind its start code,
    then a closing start code and a tail without start code: the worker
    delivers what the assembler makes of the payloads.  (The payload
    behind the closing start code is never handed over.) *)
Lemma annexb_stream_delivered s units :
  Forall annexb_unit_ok units ->
  socket_bytes s = annexb_stream units ++ sc ++ tail ->
  delivered (loop callback_ AnnexB (Some s))
  = snd (assemble callback_ (map snd units) assembler_init).
Proof.
  intros Hok Hbytes. rewrite annexb_loop_bytes, Hbytes.
  unfold annexb_feed. cbn [fst snd].
  pose proof (parse_loop_units units [] assembler_init [] Hok) as H.
  cbn zeta in H. cbn [length] in H.
  destruct H as [_ Ho]. rewrite Ho. reflexivity.
Qed.

End AnnexBStream.

(** ** The workers as functions of the bytes received *)

Lemma annexb_run_bytes callback_ s :
  exists fd',
    annexb_loop callback_ (S (socket_size s))
                (mkWorker true s assembler_init []) []
    = (mkWorker false fd'
         (snd (fst (annexb_feed callback_ (socket_bytes s)
                      ([], assembler_init))))
         (snd (annexb_feed callback_ (socket_bytes s) ([], assembler_init))),
       fst (fst (annexb_feed callback_ (socket_bytes s)
                   ([], assembler_init)))).
Proof.
  set (w0 := mkWorker true s assembler_init []).
  destruct (socket_bytes s) as [|x rest] eqn:Hs.
  - rewrite (annexb_loop_fail callback_ (socket_size s) w0 [])
      by (try reflexivity; assumption).
    eexists. reflexivity.
  - destruct (annexb_loop_data callback_ (S (socket_size s)) w0 [])
      as (fd' & Hloop).
    + cbn. lia.
    + cbn [fd w0]. rewrite Hs. discriminate.
    + reflexivity.
    + exists fd'. rewrite Hloop. cbn [fd w0 asm delivered]. rewrite Hs.
      destruct (annexb_feed callback_ (x :: rest) ([], assembler_init))
        as [[buf a] out]. reflexivity.
Qed.

(** Any bytes either stop the AVCC loop or begin with a whole record. *)
Lemma avcc_bytes_cases (bytes : list byte) :
  avcc_stops bytes \/
  exists lenBuf rest,
    bytes = lenBuf ++ rest /\ length lenBuf = 4 /\
    (0 < be32 lenBuf <= kMaxNalSize)%Z /\
    Z.to_nat (be32 lenBuf) <= length rest.
Proof.
  destruct (Nat.lt_ge_cases (length bytes) 4) as [Hlt|Hge];
    [left; left; assumption|].
  pose proof (firstn_skipn 4 bytes) as Hsplit. symmetry in Hsplit.
  assert (Hl4 : length (firstn 4 bytes) = 4) by (rewrite length_firstn; lia).
  set (lenBuf := firstn 4 bytes) in *. set (rest := skipn 4 bytes) in *.
  pose proof (be32_nonneg lenBuf) as Hnn.
  destruct (Z.eq_dec (be32 lenBuf) 0) as [H0|H0].
  { left. right. exists lenBuf, rest. auto. }
  destruct (Z_gt_dec (be32 lenBuf) kMaxNalSize) as [Hgt|Hle].
  { left. right. exists lenBuf, rest. auto. }
  assert (Hok : (0 < be32 lenBuf <= kMaxNalSize)%Z) by lia.
  destruct (Nat.lt_ge_cases (length rest) (Z.to_nat (be32 lenBuf)))
    as [Hshort|Hfull].
  - left. right. exists lenBuf, rest. auto.
  - right. exists lenBuf, rest. auto.
Qed.

Lemma avcc_iter_stops callback_ w :
  running_ w = true -> avcc_stops (socket_bytes (fd w)) ->
  exists w', avcc_iter callback_ w = (Break, w') /\
             running_ w' = false /\ asm w' = asm w /\
             delivered w' = delivered w.
Proof.
  intros Hrun [Hshort|(lenBuf & rest & Hb & Hl & [Hbad|[Hok Hpay]])].
  - apply avcc_iter_short_length; assumption.
  - apply (avcc_iter_bad_length callback_ w lenBuf rest); assumption.
  - apply (avcc_iter_short_payload callback_ w lenBuf rest); assumption.
Qed.

Section AvccBytes.

Variable callback_ : bool.

Lemma avcc_loop_same_bytes f1 :
  forall f2 w1 w2,
    length (socket_bytes (fd w1)) < f1 ->
    length (socket_bytes (fd w2)) < f2 ->
    socket_bytes (fd w1) = socket_bytes (fd w2) ->
    running_ w1 = true -> running_ w2 = true ->
    asm w1 = asm w2 -> delivered w1 = delivered w2 ->
    delivered (avcc_loop callback_ f1 w1)
    = delivered (avcc_loop callback_ f2 w2) /\
    asm (avcc_loop callback_ f1 w1) = asm (avcc_loop callback_ f2 w2).
Proof.
  induction f1 as [|f1 IH]; intros f2 w1 w2 H1 H2 Hb Hr1 Hr2 Ha Hd; [lia|].
  destruct f2 as [|f2]; [lia|].
  cbn [avcc_loop]. rewrite Hr1, Hr2.
  destruct (avcc_bytes_cases (socket_bytes (fd w1)))
    as [Hstop|(lenBuf & rest & Hsplit & Hl4 & Hok & Hfull)].
  - destruct (avcc_iter_stops callback_ w1 Hr1 Hstop)
      as (w1' & -> & _ & Ha1 & Hd1).
    rewrite Hb in Hstop.
    destruct (avcc_iter_stops callback_ w2 Hr2 Hstop)
      as (w2' & -> & _ & Ha2 & Hd2).
    split; congruence.
  - destruct (avcc_iter_record callback_ w1 _ _ Hr1 Hsplit Hl4 Hok Hfull)
      as (fd1 & Hfd1 & ->).
    rewrite Hb in Hsplit.
    destruct (avcc_iter_record callback_ w2 _ _ Hr2 Hsplit Hl4 Hok Hfull)
      as (fd2 & Hfd2 & ->).
    rewrite <- Ha, <- Hd.
    destruct (emit_access_unit _ _ _ _) as [a out].
    assert (Hlen : length (socket_bytes (fd w2)) = 4 + length rest)
      by (rewrite Hsplit, length_app; lia).
    apply IH; cbn [fd running_ asm delivered]; try reflexivity.
    + rewrite Hfd1, length_skipn. rewrite Hb in H1. lia.
    + rewrite Hfd2, length_skipn. lia.
    + congruence.
Qed.

Lemma avcc_loop_stream_tail nals :
  forall fuel w tail,
    length (socket_bytes (fd w)) < fuel ->
    running_ w = true ->
    socket_bytes (fd w) = avcc_stream nals ++ tail ->
    Forall avcc_nal_ok nals ->
    avcc_stops tail ->
    delivered (avcc_loop callback_ fuel w)
    = delivered w ++ snd (assemble callback_ nals (asm w)).
Proof.
  induction nals as [|nal rest IH];
    intros fuel w tail Hfuel Hrun Hbytes Hok Hstop.
  - destruct fuel as [|fuel]; [lia|]. cbn [avcc_loop]. rewrite Hrun.
    cbn [avcc_stream map concat app] in Hbytes. rewrite <- Hbytes in Hstop.
    destruct (avcc_iter_stops callback_ w Hrun Hstop)
      as (w' & -> & _ & _ & Hd).
    rewrite Hd. cbn. rewrite app_nil_r. reflexivity.
  - inversion Hok as [|? ? Hnal Hrest]; subst. unfold avcc_nal_ok in Hnal.
    assert (Hk : kMaxNalSize = 4194304%Z) by reflexivity.
    assert (Hbe : be32 (be32_bytes (Z.of_nat (length nal)))
                  = Z.of_nat (length nal)).
    { apply be32_be32_bytes.
      assert (E32 : (2 ^ 32 = 4294967296)%Z) by reflexivity. lia. }
    assert (Hsplit : socket_bytes (fd w)
                     = be32_bytes (Z.of_nat (length nal))
                       ++ (nal ++ avcc_stream rest ++ tail)).
    { rewrite Hbytes. unfold avcc_stream. cbn [map concat].
      rewrite <- !app_assoc. reflexivity. }
    destruct (avcc_iter_record callback_ w _ _ Hrun Hsplit
                (length_be32_bytes _)) as (fd' & Hfd' & Hit).
    + rewrite Hbe. lia.
    + rewrite Hbe, Nat2Z.id, length_app. lia.
    + rewrite Hbe, Nat2Z.id in Hfd', Hit.
      rewrite skipn_app, skipn_all, Nat.sub_diag in Hfd'. cbn in Hfd'.
      rewrite firstn_app, firstn_all, Nat.sub_diag in Hit.
      cbn [firstn] in Hit. rewrite app_nil_r in Hit.
      destruct fuel as [|fuel]; [lia|]. cbn [avcc_loop assemble].
      rewrite Hrun, Hit.
      destruct (emit_access_unit callback_ nal (isVclNal nal) (asm w))
        as [a out].
      rewrite (IH fuel _ tail); try assumption; try reflexivity.
      * cbn [asm delivered].
        destruct (assemble callback_ rest a) as [a2 o2]. cbn [snd].
        rewrite app_assoc. reflexivity.
      * cbn [fd]. rewrite Hfd'. rewrite Hsplit, !length_app in Hfuel.
        rewrite length_be32_bytes in Hfuel. rewrite length_app. lia.
Qed.

End AvccBytes.

(** The AVCC worker on a stream of records followed by bytes it stops
    on: the records have gone through the assembler, nothing else has. *)
Lemma avcc_loop_stream_asm callback_ nals :
  forall fuel w tail,
    length (socket_bytes (fd w)) < fuel ->
    running_ w = true ->
    socket_bytes (fd w) = avcc_stream nals ++ tail ->
    Forall avcc_nal_ok nals ->
    avcc_stops tail ->
    asm (avcc_loop callback_ fuel w) = fst (assemble callback_ nals (asm w)).
Proof.
  induction nals as [|nal rest IH];
    intros fuel w tail Hfuel Hrun Hbytes Hok Hstop.
  - destruct fuel as [|fuel]; [lia|]. cbn [avcc_loop]. rewrite Hrun.
    cbn [avcc_stream map concat app] in Hbytes. rewrite <- Hbytes in Hstop.
    destruct (avcc_iter_stops callback_ w Hrun Hstop)
      as (w' & -> & _ & Ha & _).
    rewrite Ha. reflexivity.
  - inversion Hok as [|? ? Hnal Hrest]; subst. unfold avcc_nal_ok in Hnal.
    assert (Hk : kMaxNalSize = 4194304%Z) by reflexivity.
    assert (Hbe : be32 (be32_bytes (Z.of_nat (length nal)))
                  = Z.of_nat (length nal)).
    { apply be32_be32_bytes.
      assert (E32 : (2 ^ 32 = 4294967296)%Z) by reflexivity. lia. }
    assert (Hsplit : socket_bytes (fd w)
                     = be32_bytes (Z.of_nat (length nal))
                       ++ (nal ++ avcc_stream rest ++ tail)).
    { rewrite Hbytes. unfold avcc_stream. cbn [map concat].
      rewrite <- !app_assoc. reflexivity. }
    destruct (avcc_iter_record callback_ w _ _ Hrun Hsplit
                (length_be32_bytes _)) as (fd' & Hfd' & Hit).
    + rewrite Hbe. lia.
    + rewrite Hbe, Nat2Z.id, length_app. lia.
    + rewrite Hbe, Nat2Z.id in Hfd', Hit.
      rewrite skipn_app, skipn_all, Nat.sub_diag in Hfd'. cbn in Hfd'.
      rewrite firstn_app, firstn_all, Nat.sub_diag in Hit.
      cbn [firstn] in Hit. rewrite app_nil_r in Hit.
      destruct fuel as [|fuel]; [lia|]. cbn [avcc_loop assemble].
      rewrite Hrun, Hit.
      destruct (emit_access_unit callback_ nal (isVclNal nal) (asm w))
        as [a out].
      rewrite (IH fuel _ tail); try assumption; try reflexivity.
      * cbn [asm].
        destruct (assemble callback_ rest a) as [a2 o2]. reflexivity.
      * cbn [fd]. rewrite Hfd'. rewrite Hsplit, !length_app in Hfuel.
        rewrite length_be32_bytes in Hfuel. rewrite length_app. lia.
Qed.

Lemma avcc_stream_tail_run callback_ s nals tail :
  Forall avcc_nal_ok nals ->
  avcc_stops tail ->
  socket_bytes s = avcc_stream nals ++ tail ->
  assemble callback_ nals assembler_init
  = (asm (loop callback_ Avcc (Some s)),
     delivered (loop callback_ Avcc (Some s))).
Proof.
  intros Hok Hstop Hbytes. cbn [loop asm delivered].
  assert (Hfuel : length (socket_bytes s) < S (socket_size s))
    by (pose proof (socket_bytes_size s); lia).
  rewrite (avcc_loop_stream_tail callback_ nals _ _ tail);
    try assumption; try reflexivity.
  rewrite (avcc_loop_stream_asm callback_ nals _ _ tail);
    try assumption; try reflexivity.
  cbn [asm delivered app].
  destruct (assemble callback_ nals assembler_init). reflexivity.
Qed.

(** The Annex-B worker ends with what the parser made of the bytes
    received: its deliveries, and the access unit still pending. *)
Lemma annexb_loop_run callback_ s :
  delivered (loop callback_ AnnexB (Some s))
  = snd (annexb_feed callback_ (socket_bytes s) ([], assembler_init)) /\
  asm (loop callback_ AnnexB (Some s))
  = snd (fst (annexb_feed callback_ (socket_bytes s) ([], assembler_init))).
Proof.
  cbn [loop asm delivered].
  destruct (annexb_run_bytes callback_ s) as (fd' & ->).
  split; reflexivity.
Qed.

(** In either framing the worker ends in a state of the assembler: what
    has been delivered and what is pending are the two results of the
    lambda on the units handed to it. *)
Lemma loop_fed_state callback_ framing_ conn :
  exists nals,
    Forall (fun nal : list byte => nal <> []) nals /\
    assemble callback_ nals assembler_init
    = (asm (loop callback_ framing_ conn),
       delivered (loop callback_ framing_ conn)).
Proof.
  destruct conn as [s|]; cbn [loop asm delivered].
  - assert (H : forall w,
               fed callback_ assembler_init [] (asm w) (delivered w) ->
               exists nals,
                 Forall (fun nal : list byte => nal <> []) nals /\
                 assemble callback_ nals assembler_init
                 = (asm w, delivered w)).
    { intros w (nals & out & F & A & E). exists nals. split; [assumption|].
      cbn [app] in E. rewrite A, E. reflexivity. }
    destruct framing_; apply H.
    + apply (avcc_loop_fed callback_ (S (socket_size s))
               (mkWorker true s assembler_init [])).
    + apply (annexb_loop_fed callback_ (S (socket_size s))
               (mkWorker true s assembler_init []) []).
  - exists []. split; [constructor|reflexivity].
Qed.

(** * The statements of the design document *)

(** C1.  An access unit is handed to the callback exactly when the NAL
    unit just appended has type 1 or 5 (first byte & 0x1F); a unit of any
    other type is appended to the pending access unit and delivers
    nothing.  Hence the delivered units are the runs of the NAL sequence
    that end at its VCL units, and in either framing what the worker
    delivers is the assembler's output on the NAL units it parsed.  (The
    callback is present: [callback_] is [true].) *)
Theorem emission_exactly_on_vcl
    (a : Assembler) (nal : list byte) (nals : list (list byte)) :
  let a' := fst (emit_access_unit true nal (isVclNal nal) a) in
  let out := snd (emit_access_unit true nal (isVclNal nal) a) in
  ((has_type 1 nal \/ has_type 5 nal) <->
   (exists au, out = [au] /\ data au = access_unit a ++ kStartCode ++ nal)) /\
  (~ (has_type 1 nal \/ has_type 5 nal) <->
   (out = [] /\ access_unit a' = access_unit a ++ kStartCode ++ nal)) /\
  (let '(gs, p) := group_nals [] nals in
   map data (snd (assemble true nals assembler_init)) = map frame gs /\
   concat gs ++ p = nals /\
   Forall (fun nal => isVclNal nal = false) p /\
   Forall (fun g => exists pre v,
               g = pre ++ [v] /\
               Forall (fun n => isVclNal n = false) pre /\
               isVclNal v = true) gs) /\
  (forall framing_ conn, exists parsed,
      Forall (fun n : list byte => n <> []) parsed /\
      delivered (loop true framing_ conn)
      = snd (assemble true parsed assembler_init)).
Proof.
  cbn zeta. repeat split.
  - intros H. apply isVclNal_type in H. unfold emit_access_unit.
    rewrite H. cbn. eexists. split; reflexivity.
  - intros (au & Hout & _). apply isVclNal_type.
    unfold emit_access_unit in Hout.
    destruct (isVclNal nal); [reflexivity|discriminate].
  - unfold emit_access_unit.
    destruct (isVclNal nal) eqn:E; [|reflexivity].
    exfalso. apply H. apply isVclNal_type. assumption.
  - unfold emit_access_unit.
    destruct (isVclNal nal) eqn:E; [|reflexivity].
    exfalso. apply H. apply isVclNal_type. assumption.
  - intros [Hout _] Hv. apply isVclNal_type in Hv.
    unfold emit_access_unit in Hout. rewrite Hv in Hout. discriminate.
  - pose proof (assemble_init_groups true nals) as Ha.
    pose proof (group_nals_partition nals [] (Forall_nil _)) as Hp.
    destruct (group_nals [] nals) as [gs p].
    rewrite Ha. cbn [snd]. rewrite map_map.
    destruct Hp as (Hcat & Hpend & Hgs).
    repeat split; assumption.
  - intros framing_ conn. apply loop_fed.
Qed.

(** C2.  Chunking invariance: an Annex-B byte stream delivered in any
    succession of non-empty chunks makes the worker deliver the same
    access units, in the same order, as the stream delivered as one chunk. *)
Theorem annexb_chunking_invariance
    (callback_ : bool) (chunks : list (list byte)) :
  Forall (fun c : list byte => c <> []) chunks ->
  delivered (loop callback_ AnnexB (Some (map Data chunks)))
  = delivered (loop callback_ AnnexB (Some [Data (concat chunks)])).
Proof.
  intros Hne. rewrite !annexb_loop_bytes, (socket_bytes_map _ Hne).
  cbn [socket_bytes]. destruct (concat chunks) as [|x l]; [reflexivity|].
  rewrite app_nil_r. reflexivity.
Qed.

Lemma annexb_chunking_invariance_witness :
  Forall (fun c : list byte => c <> []) (bytewise sps_idr_stream_closed) /\
  delivered (loop true AnnexB
               (Some (map Data (bytewise sps_idr_stream_closed))))
  = delivered (loop true AnnexB
                 (Some [Data (concat (bytewise sps_idr_stream_closed))])).
Proof.
  assert (H : Forall (fun c : list byte => c <> [])
                     (bytewise sps_idr_stream_closed))
    by (repeat constructor; discriminate).
  split; [exact H|exact (annexb_chunking_invariance true _ H)].
Defined.

(** C3.  AVCC: the four bytes of the prefix are read as an unsigned
    big-endian length.  A length of 0 or above 4 MiB stops the source
    ([running_] is cleared) and nothing is handed to the assembler for the
    record; for a length [L] with [0 < L <= 4 MiB] exactly the next [L]
    bytes are read and handed to the assembler as one NAL unit, and the
    loop goes on with the bytes behind them.  For the worker as a whole:
    on the records of a sequence of NAL units followed by bytes the loop
    stops on (among them a prefix of 0 or above 4 MiB, with anything behind
    it), exactly these units have gone through the assembler, in order,
    when [loop] returns. *)
Theorem avcc_length_prefix
    (callback_ : bool) (w : Worker) (lenBuf rest : list byte) (fuel : nat) :
  running_ w = true ->
  socket_bytes (fd w) = lenBuf ++ rest ->
  length lenBuf = 4 ->
  let nalLen := be32 lenBuf in
  nalLen = (u8 (at_ lenBuf 0) * 2 ^ 24 + u8 (at_ lenBuf 1) * 2 ^ 16
            + u8 (at_ lenBuf 2) * 2 ^ 8 + u8 (at_ lenBuf 3))%Z /\
  kMaxNalSize = (4 * 2 ^ 20)%Z /\
  ((nalLen = 0 \/ nalLen > kMaxNalSize)%Z ->
   let w' := avcc_loop callback_ (S fuel) w in
   running_ w' = false /\ asm w' = asm w /\ delivered w' = delivered w) /\
  ((0 < nalLen <= kMaxNalSize)%Z -> Z.to_nat nalLen <= length rest ->
   let nal := firstn (Z.to_nat nalLen) rest in
   exists fd',
     socket_bytes fd' = skipn (Z.to_nat nalLen) rest /\
     let w1 :=
       let '(a, out) :=
         emit_access_unit callback_ nal (isVclNal nal) (asm w) in
       mkWorker true fd' a (delivered w ++ out) in
     avcc_iter callback_ w = (Continue, w1) /\
     avcc_loop callback_ (S fuel) w = avcc_loop callback_ fuel w1) /\
  (forall (s : Socket) (nals : list (list byte)) (tail : list byte),
      Forall avcc_nal_ok nals ->
      avcc_stops tail ->
      socket_bytes s = avcc_stream nals ++ tail ->
      running_ (loop callback_ Avcc (Some s)) = false /\
      assemble callback_ nals assembler_init
      = (asm (loop callback_ Avcc (Some s)),
         delivered (loop callback_ Avcc (Some s)))).
Proof.
  intros Hrun Hbytes Hlen. cbn zeta.
  split; [|split; [|split; [|split]]].
  - destruct lenBuf as [|b0 [|b1 [|b2 [|b3 [|]]]]]; try discriminate.
    apply be32_value.
  - reflexivity.
  - intros Hbad.
    destruct (avcc_iter_bad_length callback_ _ _ _ Hrun Hbytes Hlen Hbad)
      as (w' & Hit & Hr & Ha & Hd).
    cbn [avcc_loop]. rewrite Hrun, Hit.
    split; [assumption|]. split; assumption.
  - intros Hok Hfull.
    destruct (avcc_iter_record callback_ _ _ _ Hrun Hbytes Hlen Hok Hfull)
      as (fd' & Hfd' & Hit).
    exists fd'. split; [assumption|]. split; [exact Hit|].
    cbn [avcc_loop]. rewrite Hrun, Hit. reflexivity.
  - intros s nals tail Hnals Hstop Hs.
    split; [reflexivity|].
    apply (avcc_stream_tail_run callback_ s nals tail Hnals Hstop Hs).
Qed.

Lemma avcc_length_prefix_witness :
  running_ avcc_worker_example = true /\
  socket_bytes (fd avcc_worker_example)
  = [x00; x00; x00; x04] ++ [x65; x88; x84; x21; xff] /\
  length [x00; x00; x00; x04] = 4 /\
  be32 [x00; x00; x00; x04] = 4%Z.
Proof.
  assert (H1 : running_ avcc_worker_example = true) by reflexivity.
  assert (H2 : socket_bytes (fd avcc_worker_example)
               = [x00; x00; x00; x04] ++ [x65; x88; x84; x21; xff])
    by reflexivity.
  assert (H3 : length [x00; x00; x00; x04] = 4) by reflexivity.
  exact (conj H1 (conj H2 (conj H3
           (proj1 (avcc_length_prefix true avcc_worker_example
                     [x00; x00; x00; x04] [x65; x88; x84; x21; xff] 0
                     H1 H2 H3))))).
Defined.

(** C4.  The [is_keyframe] flag of a delivered access unit is [true] if
    and only if one of the NAL units of that access unit has type 5,
    wherever it stands in the unit; the flag the assembler keeps is
    cleared at each emission, so a type-5 unit does not reach into the
    following access units. *)
Theorem keyframe_iff_idr (nals : list (list byte)) :
  Forall2 (fun au g =>
             data au = frame g /\
             (is_keyframe au = true <->
              exists nal, In nal g /\ has_type 5 nal))
          (snd (assemble true nals assembler_init))
          (fst (group_nals [] nals)) /\
  (forall callback_ nal a,
      has_idr (fst (emit_access_unit callback_ nal true a)) = false).
Proof.
  split; [|reflexivity].
  pose proof (assemble_init_groups true nals) as Ha.
  destruct (group_nals [] nals) as [gs p].
  rewrite Ha. cbn [fst snd]. clear Ha.
  induction gs as [|g gs IH]; cbn [map]; constructor; [|assumption].
  split; [reflexivity|]. apply contains_idr_iff.
Qed.

(** C5, as the document states it, fails: on the bytes
    [00 00 00 01 SPS 00 00 01 IDR] and nothing more, the IDR unit is never
    closed by a following start code, so no access unit is delivered. *)
Lemma sps_idr_alone_delivers_nothing :
  delivered (loop true AnnexB (Some [Data sps_idr_stream])) = [] /\
  delivered (loop true AnnexB (Some [Data sps_idr_stream]))
  <> [mkAccessUnit (kStartCode ++ sps_nal ++ kStartCode ++ idr_nal) true].
Proof. split; [reflexivity|discriminate]. Qed.

(** C5, amended.  In Annex-B mode the bytes [00 00 00 01], an SPS unit
    (type 7), [00 00 01], an IDR unit (type 5) make the worker deliver
    exactly one access unit, the two units each behind [00 00 00 01] and
    [is_keyframe = true], once a further start code and at least one more
    byte (and no start code after that) have followed them, however the
    bytes are cut into chunks; the same bytes with nothing behind the IDR
    unit deliver no access unit.  The payloads are free of start-code
    patterns ([nal_clean]). *)
Theorem annexb_sps_idr_unit
    (s s0 : Socket) (sps idr sc tail : list byte) :
  nal_clean sps = true -> nal_clean idr = true ->
  has_type 7 sps -> has_type 5 idr ->
  is_start_code sc -> tail <> [] -> findStartCode tail 0 = None ->
  socket_bytes s = kStartCode ++ sps ++ kStartCode3 ++ idr ++ sc ++ tail ->
  socket_bytes s0 = kStartCode ++ sps ++ kStartCode3 ++ idr ->
  delivered (loop true AnnexB (Some s))
  = [mkAccessUnit (kStartCode ++ sps ++ kStartCode ++ idr) true] /\
  delivered (loop true AnnexB (Some s0)) = [].
Proof.
  intros Hcs Hci Hts Hti Hsc Htail Hnone Hs Hs0.
  rewrite !annexb_loop_bytes, Hs, Hs0. split.
  - apply (annexb_feed_sps_idr true sps idr Hcs Hci Hts Hti sc tail);
      assumption.
  - apply (annexb_feed_sps_idr_open true sps idr Hcs Hci Hts Hti).
Qed.

Lemma annexb_sps_idr_unit_witness :
  nal_clean sps_nal = true /\ nal_clean idr_nal = true /\
  has_type 7 sps_nal /\ has_type 5 idr_nal /\
  is_start_code kStartCode3 /\ [x09] <> [] /\
  findStartCode [x09] 0 = None /\
  delivered (loop true AnnexB (Some [Data sps_idr_stream_closed]))
  = [mkAccessUnit (kStartCode ++ sps_nal ++ kStartCode ++ idr_nal) true].
Proof.
  assert (H1 : nal_clean sps_nal = true) by reflexivity.
  assert (H2 : nal_clean idr_nal = true) by reflexivity.
  assert (H3 : has_type 7 sps_nal) by reflexivity.
  assert (H4 : has_type 5 idr_nal) by reflexivity.
  assert (H5 : is_start_code kStartCode3) by (left; reflexivity).
  assert (H6 : [x09] <> []) by discriminate.
  assert (H7 : findStartCode [x09] 0 = None) by reflexivity.
  exact (conj H1 (conj H2 (conj H3 (conj H4 (conj H5 (conj H6 (conj H7
           (proj1 (annexb_sps_idr_unit
                     [Data sps_idr_stream_closed] [Data sps_idr_stream]
                     sps_nal idr_nal kStartCode3 [x09]
                     H1 H2 H3 H4 H5 H6 H7 eq_refl eq_refl))))))))).
Defined.

(** C6.  In both framings every access unit handed to the callback is
    non-empty, begins with [00 00 00 01], and is the concatenation, in
    order, of one or more NAL units, each behind that start code. *)
Theorem delivered_units_framed
    (callback_ : bool) (framing_ : H264Framing) (conn : option Socket)
    (au : H264AccessUnit) :
  In au (delivered (loop callback_ framing_ conn)) ->
  data au <> [] /\
  firstn 4 (data au) = kStartCode /\
  exists g, g <> [] /\
            Forall (fun nal : list byte => nal <> []) g /\
            data au = concat (map (fun nal => kStartCode ++ nal) g).
Proof.
  intros Hin.
  destruct (loop_fed callback_ framing_ conn) as (nals & Hne & Hd).
  rewrite Hd in Hin.
  pose proof (assemble_init_groups callback_ nals) as Ha.
  pose proof (group_nals_partition nals [] (Forall_nil _)) as Hp.
  destruct (group_nals [] nals) as [gs p].
  rewrite Ha in Hin. cbn [snd] in Hin.
  destruct callback_; [|contradiction].
  apply in_map_iff in Hin. destruct Hin as (g & <- & Hg).
  destruct Hp as (Hcat & _ & Hgs). cbn [app] in Hcat.
  rewrite Forall_forall in Hgs. destruct (Hgs g Hg) as (pre & v & -> & _ & _).
  assert (Hall : Forall (fun nal : list byte => nal <> []) (pre ++ [v])).
  { rewrite Forall_forall in *. intros n Hn. apply Hne. rewrite <- Hcat.
    apply in_or_app. left. apply in_concat. eauto. }
  cbn [data unit_of].
  assert (Hfront : exists n rest, pre ++ [v] = n :: rest).
  { destruct pre; cbn; eauto. }
  destruct Hfront as (n & rest & Hfront).
  repeat split.
  - rewrite Hfront. discriminate.
  - rewrite Hfront. reflexivity.
  - exists (pre ++ [v]). repeat split; [|assumption].
    rewrite Hfront. discriminate.
Qed.

Lemma delivered_units_framed_witness :
  In (mkAccessUnit (kStartCode ++ sps_nal ++ kStartCode ++ idr_nal) true)
     (delivered (loop true Avcc (Some avcc_socket_example))) /\
  firstn 4 (kStartCode ++ sps_nal ++ kStartCode ++ idr_nal) = kStartCode.
Proof.
  assert (H : In (mkAccessUnit
                    (kStartCode ++ sps_nal ++ kStartCode ++ idr_nal) true)
                 (delivered (loop true Avcc (Some avcc_socket_example))))
    by (left; reflexivity).
  exact (conj H (proj1 (proj2
           (delivered_units_framed true Avcc (Some avcc_socket_example) _ H)))).
Defined.

(** C7.  A socket read that returns end-of-stream or an error ends the
    worker's loop with [running_] cleared and delivers nothing, whatever
    access unit was being accumulated: in Annex-B mode when the read at
    the head of the loop fails, in AVCC mode when the socket ends or fails
    inside the length prefix or inside the payload.  [loop] itself always
    returns with [running_] cleared, and it adds nothing on its way out:
    in Annex-B mode its deliveries are those the parser made from the
    bytes received, and what the parser left pending is still in the
    assembler; in AVCC mode, on the records of a sequence of NAL units
    followed by bytes the loop stops on, its deliveries are those of the
    assembler on these units and the units behind the last VCL unit are
    still pending; and in either framing the deliveries and the pending
    access unit are the two results of the assembler on one sequence of
    NAL units, so that a pending access unit is never delivered. *)
Theorem read_failure_discards_pending
    (callback_ : bool) (w : Worker) (fuel : nat) :
  running_ w = true ->
  (socket_bytes (fd w) = [] ->
   forall buf,
     let w' := fst (annexb_loop callback_ (S fuel) w buf) in
     running_ w' = false /\ delivered w' = delivered w) /\
  (length (socket_bytes (fd w)) < 4 ->
   let w' := avcc_loop callback_ (S fuel) w in
   running_ w' = false /\ delivered w' = delivered w) /\
  (forall lenBuf rest,
      socket_bytes (fd w) = lenBuf ++ rest -> length lenBuf = 4 ->
      (0 < be32 lenBuf <= kMaxNalSize)%Z ->
      length rest < Z.to_nat (be32 lenBuf) ->
      let w' := avcc_loop callback_ (S fuel) w in
      running_ w' = false /\ delivered w' = delivered w) /\
  (forall framing_ conn, running_ (loop callback_ framing_ conn) = false) /\
  (forall s : Socket,
      delivered (loop callback_ AnnexB (Some s))
      = snd (annexb_feed callback_ (socket_bytes s) ([], assembler_init)) /\
      asm (loop callback_ AnnexB (Some s))
      = snd (fst (annexb_feed callback_ (socket_bytes s)
                    ([], assembler_init)))) /\
  (forall (s : Socket) (nals : list (list byte)) (tail : list byte),
      Forall avcc_nal_ok nals ->
      avcc_stops tail ->
      socket_bytes s = avcc_stream nals ++ tail ->
      assemble callback_ nals assembler_init
      = (asm (loop callback_ Avcc (Some s)),
         delivered (loop callback_ Avcc (Some s)))) /\
  (forall framing_ conn,
      exists nals,
        Forall (fun nal : list byte => nal <> []) nals /\
        assemble callback_ nals assembler_init
        = (asm (loop callback_ framing_ conn),
           delivered (loop callback_ framing_ conn))).
Proof.
  intros Hrun. split; [|split; [|split; [|split; [|split; [|split]]]]].
  - intros Hnil buf. cbn zeta.
    rewrite (annexb_loop_fail callback_ fuel w buf Hrun Hnil).
    split; reflexivity.
  - intros Hshort. cbn zeta.
    destruct (avcc_iter_short_length callback_ w Hrun Hshort)
      as (w' & Hit & Hr & _ & Hd).
    cbn [avcc_loop]. rewrite Hrun, Hit. split; assumption.
  - intros lenBuf rest Hbytes Hlen Hok Hshort. cbn zeta.
    destruct (avcc_iter_short_payload callback_ w lenBuf rest
                Hrun Hbytes Hlen Hok Hshort) as (w' & Hit & Hr & _ & Hd).
    cbn [avcc_loop]. rewrite Hrun, Hit. split; assumption.
  - intros framing_ [s|]; reflexivity.
  - intros s. apply annexb_loop_run.
  - intros s nals tail Hnals Hstop Hs.
    apply (avcc_stream_tail_run callback_ s nals tail Hnals Hstop Hs).
  - intros framing_ conn. apply loop_fed_state.
Qed.

Lemma read_failure_discards_pending_witness :
  running_ pending_worker_example = true /\
  length (socket_bytes (fd pending_worker_example)) < 4 /\
  running_ (avcc_loop true 1 pending_worker_example) = false /\
  delivered (avcc_loop true 1 pending_worker_example) = [].
Proof.
  assert (H1 : running_ pending_worker_example = true) by reflexivity.
  assert (H2 : length (socket_bytes (fd pending_worker_example)) < 4)
    by (cbn; lia).
  exact (conj H1 (conj H2
           (proj1 (proj2 (read_failure_discards_pending
                            true pending_worker_example 0 H1)) H2))).
Defined.

(** C8, as the document states it, fails: [start()] sets [running_] before
    the worker is created, so between [start()] and the worker's failed
    connect [running()] returns [true]. *)
Lemma running_true_until_connect_fails :
  Lifecycle.exec [Lifecycle.CallStart; Lifecycle.ConnectFails]
                 Lifecycle.construct
  = Lifecycle.Alive (Lifecycle.mkInstance false true 0 false 1) /\
  ~ Lifecycle.never_running [Lifecycle.CallStart; Lifecycle.ConnectFails].
Proof.
  split; [reflexivity|].
  intros H.
  specialize (H 1 (Lifecycle.mkInstance true true 1 true 1)).
  cbn in H. specialize (H (conj (Nat.lt_0_1) (le_S _ _ (le_n 1))) eq_refl).
  discriminate.
Qed.

(** C8, amended.  When address resolution or the connect fails,
    [running()] returns [true] from [start()] until the worker has seen
    the failure and [false] at every later point, as long as [start()] is
    not called again; the worker never begins parsing (it returns without
    a read and without a delivery, and no worker is left to take a step);
    and [stop()] does not block, the worker having returned already. *)
Theorem connect_failure_clears_running
    (rest : list Lifecycle.Event) (i : Lifecycle.Instance) :
  ~ In Lifecycle.CallStart rest ->
  Lifecycle.exec (Lifecycle.CallStart :: Lifecycle.ConnectFails :: rest)
                 Lifecycle.construct = Lifecycle.Alive i ->
  (exists i1, Lifecycle.exec [Lifecycle.CallStart] Lifecycle.construct
              = Lifecycle.Alive i1 /\ Lifecycle.running i1 = true) /\
  Lifecycle.running i = false /\
  Lifecycle.workers i = 0 /\
  Lifecycle.spawned i = 1 /\
  Lifecycle.step Lifecycle.Connected i = Lifecycle.Stuck /\
  Lifecycle.step Lifecycle.WorkerStore i = Lifecycle.Stuck /\
  Lifecycle.step Lifecycle.WorkerReturns i = Lifecycle.Stuck /\
  (exists i', Lifecycle.exec [Lifecycle.StopStore; Lifecycle.StopJoin] i
              = Lifecycle.Alive i') /\
  (forall callback_ framing_,
      loop callback_ framing_ None = mkWorker false [] assembler_init []).
Proof.
  intros Hno Hexec. cbn [Lifecycle.exec] in Hexec.
  change (Lifecycle.step Lifecycle.CallStart Lifecycle.construct)
    with (Lifecycle.Alive (Lifecycle.mkInstance true true 1 true 1)) in Hexec.
  cbn iota beta in Hexec.
  change (Lifecycle.step Lifecycle.ConnectFails
            (Lifecycle.mkInstance true true 1 true 1))
    with (Lifecycle.Alive (Lifecycle.mkInstance false true 0 false 1))
    in Hexec.
  cbn iota beta in Hexec.
  assert (Hafter : after_connect_failure i).
  { apply (after_connect_failure_exec rest
             (Lifecycle.mkInstance false true 0 false 1) i Hno);
      [repeat split|assumption]. }
  destruct Hafter as (Hr & Hw & Hs).
  split; [eexists; split; reflexivity|].
  destruct i as [r j w c n]; cbn in *. subst r w n.
  repeat split.
  destruct j; eexists; reflexivity.
Qed.

Lemma connect_failure_clears_running_witness :
  ~ In Lifecycle.CallStart [Lifecycle.StopStore; Lifecycle.StopJoin] /\
  Lifecycle.exec [Lifecycle.CallStart; Lifecycle.ConnectFails;
                  Lifecycle.StopStore; Lifecycle.StopJoin]
                 Lifecycle.construct
  = Lifecycle.Alive (Lifecycle.mkInstance false false 0 false 1) /\
  Lifecycle.running (Lifecycle.mkInstance false false 0 false 1) = false.
Proof.
  assert (H1 : ~ In Lifecycle.CallStart
                    [Lifecycle.StopStore; Lifecycle.StopJoin]).
  { intros [H|[H|[]]]; discriminate. }
  assert (H2 : Lifecycle.exec [Lifecycle.CallStart; Lifecycle.ConnectFails;
                               Lifecycle.StopStore; Lifecycle.StopJoin]
                              Lifecycle.construct
               = Lifecycle.Alive (Lifecycle.mkInstance false false 0 false 1))
    by reflexivity.
  exact (conj H1 (conj H2
           (proj1 (proj2 (connect_failure_clears_running _ _ H1 H2))))).
Defined.




(** C10.  Annex-B: when the start code after the one the loop stands at
    begins right where that one ends, the iteration hands nothing to the
    assembler (no bare start code is appended), delivers nothing, and
    moves [parse_pos] to the second start code. *)
Theorem adjacent_start_codes_skipped
    (callback_ : bool) (p : Parse) (sc next_sc : StartCode) :
  findStartCode (stream_buf p) (parse_pos p) = Some sc ->
  (parse_pos p = 0 -> offset sc = 0) ->
  findStartCode (stream_buf p) (offset sc + size sc) = Some next_sc ->
  offset next_sc = offset sc + size sc ->
  parse_step callback_ p
  = Some (mkParse (stream_buf p) (offset next_sc) (p_asm p) (p_out p)).
Proof.
  intros Hsc Hdrop Hnext Hadj. unfold parse_step. rewrite Hsc.
  replace ((parse_pos p =? 0) && (0 <? offset sc)) with false.
  - rewrite Hnext, Hadj, Nat.sub_diag. cbn. rewrite app_nil_r. reflexivity.
  - destruct (parse_pos p) as [|n]; [|reflexivity].
    rewrite (Hdrop eq_refl). reflexivity.
Qed.

Lemma adjacent_start_codes_skipped_witness :
  findStartCode (stream_buf adjacent_parse_example)
                (parse_pos adjacent_parse_example)
  = Some (mkStartCode 0 3) /\
  findStartCode (stream_buf adjacent_parse_example) 3
  = Some (mkStartCode 3 3) /\
  parse_step true adjacent_parse_example
  = Some (mkParse (stream_buf adjacent_parse_example) 3 assembler_init []).
Proof.
  assert (H1 : findStartCode (stream_buf adjacent_parse_example)
                             (parse_pos adjacent_parse_example)
               = Some (mkStartCode 0 3)) by reflexivity.
  assert (H2 : findStartCode (stream_buf adjacent_parse_example) 3
               = Some (mkStartCode 3 3)) by reflexivity.
  exact (conj H1 (conj H2
           (adjacent_start_codes_skipped true adjacent_parse_example
              (mkStartCode 0 3) (mkStartCode 3 3)
              H1 (fun _ => eq_refl) H2 eq_refl))).
Defined.

(** Adjacent start codes in a whole run: the unit delivered holds the IDR
    slice behind one start code and nothing for the empty gap. *)
Example adjacent_start_codes_run :
  delivered (loop true AnnexB
               (Some [Data ([x00; x00; x01] ++ [x00; x00; x00; x01]
                            ++ idr_nal ++ [x00; x00; x01] ++ aud_nal)]))
  = [mkAccessUnit (kStartCode ++ idr_nal) true].
Proof. reflexivity. Qed.


(** * Further properties of the code *)

(** ** [findStartCode] in terms of the bytes *)

Lemma u8_zero b : u8 b = 0%Z -> b = x00.
Proof. destruct b; cbn; intros H; try discriminate H; reflexivity. Qed.

Lemma u8_one b : u8 b = 1%Z -> b = x01.
Proof. destruct b; cbn; intros H; try discriminate H; reflexivity. Qed.

Lemma slice_S (buf : list byte) j n :
  j < length buf ->
  slice buf j (S n) = at_ buf j :: slice buf (S j) n.
Proof.
  unfold slice, at_. revert j. induction buf as [|a l IH]; intros j Hj.
  - cbn in Hj. lia.
  - destruct j as [|j]; [reflexivity|].
    cbn [skipn nth]. apply IH. cbn in Hj. lia.
Qed.

Lemma slice_3 (buf : list byte) j :
  j + 3 <= length buf ->
  slice buf j 3 = [at_ buf j; at_ buf (j + 1); at_ buf (j + 2)].
Proof.
  intros H. rewrite !slice_S by lia.
  replace (S j) with (j + 1) by lia. replace (S (j + 1)) with (j + 2) by lia.
  reflexivity.
Qed.

Lemma slice_4 (buf : list byte) j :
  j + 4 <= length buf ->
  slice buf j 4
  = [at_ buf j; at_ buf (j + 1); at_ buf (j + 2); at_ buf (j + 3)].
Proof.
  intros H. rewrite !slice_S by lia.
  replace (S j) with (j + 1) by lia. replace (S (j + 1)) with (j + 2) by lia.
  replace (S (j + 2)) with (j + 3) by lia.
  reflexivity.
Qed.

(** The test of the loop body, read on the bytes. *)
Lemma sc_at_bytes buf j :
  j + 3 < length buf ->
  (sc_at buf j = Some 3 <-> slice buf j 3 = kStartCode3) /\
  (sc_at buf j = Some 4 <->
   j + 4 < length buf /\ slice buf j 4 = kStartCode).
Proof.
  intros Hj. rewrite slice_3 by lia. unfold sc_at, kStartCode3, kStartCode.
  replace (j + 3 <? length buf) with true by (symmetry; apply Nat.ltb_lt; lia).
  assert (H4s : j + 4 < length buf ->
                slice buf j 4
                = [at_ buf j; at_ buf (j + 1); at_ buf (j + 2);
                   at_ buf (j + 3)])
    by (intros; apply slice_4; lia).
  set (a := at_ buf j) in *. set (b := at_ buf (j + 1)) in *.
  set (c := at_ buf (j + 2)) in *. set (d := at_ buf (j + 3)) in *.
  assert (Z0 : forall x, (u8 x =? 0)%Z = true <-> x = x00).
  { intros x. split; [intros H; apply u8_zero, Z.eqb_eq, H|].
    intros ->. reflexivity. }
  assert (Z1 : forall x, (u8 x =? 1)%Z = true <-> x = x01).
  { intros x. split; [intros H; apply u8_one, Z.eqb_eq, H|].
    intros ->. reflexivity. }
  pose proof (Z0 a) as Ha. pose proof (Z0 b) as Hb. pose proof (Z0 c) as Hc0.
  pose proof (Z1 c) as Hc1. pose proof (Z1 d) as Hd.
  destruct (Nat.ltb_spec (j + 4) (length buf)) as [H4|H4];
    [rewrite (H4s H4)|];
    destruct (u8 a =? 0)%Z, (u8 b =? 0)%Z, (u8 c =? 1)%Z, (u8 c =? 0)%Z,
             (u8 d =? 1)%Z;
    cbn [andb];
    (split; split;
     [ intros H; try discriminate H
     | intros H; try (injection H as E1 E2 E3)
     | intros H; try discriminate H
     | intros [H' H]; try lia; try (injection H as E1 E2 E3 E4) ]);
    try reflexivity;
    try (split; [assumption|]);
    repeat match goal with
           | X : true = true <-> _ |- _ =>
               let Y := fresh in
               pose proof (proj1 X eq_refl) as Y; clear X; try rewrite Y in *
           | X : false = true <-> ?x = ?v |- _ =>
               let Y := fresh in
               assert (Y : x <> v)
                 by (let Z := fresh in
                     intros Z; apply X in Z; discriminate Z);
               clear X
           end;
    try reflexivity; try congruence; try discriminate.
Qed.

(** X1.  What [findStartCode] reports is the first start code at or after
    [start] that has at least one byte behind it: the bytes at the
    reported offset are [00 00 01] (size 3) or [00 00 00 01] (size 4), the
    start code lies inside the buffer together with one more byte, and no
    position between [start] and the offset holds either pattern. *)
Theorem findStartCode_reports_first
    (buf : list byte) (start : nat) (sc : StartCode) :
  findStartCode buf start = Some sc ->
  start <= offset sc /\
  offset sc + size sc < length buf /\
  (size sc = 3 /\ slice buf (offset sc) 3 = kStartCode3 \/
   size sc = 4 /\ slice buf (offset sc) 4 = kStartCode) /\
  forall j, start <= j < offset sc ->
            slice buf j 3 <> kStartCode3 /\ slice buf j 4 <> kStartCode.
Proof.
  intros Hf. pose proof (findStartCode_bounds _ _ _ Hf) as (Hs & Hb & Hz).
  apply findStartCode_some in Hf. destruct Hf as (_ & Hat & Hnone).
  split; [assumption|]. split; [assumption|]. split.
  - destruct (sc_at_bytes buf (offset sc)) as [H3 H4]; [lia|].
    destruct Hz as [Hz|Hz]; rewrite Hz in Hat.
    + left. split; [assumption|]. apply H3. assumption.
    + right. split; [assumption|]. apply H4. assumption.
  - intros j Hj. specialize (Hnone j Hj).
    destruct (sc_at_bytes buf j) as [H3 H4]; [lia|].
    split; intros H.
    + apply H3 in H. congruence.
    + assert (H' : sc_at buf j = Some 4) by (apply H4; split; [lia|assumption]).
      congruence.
Qed.

Lemma findStartCode_reports_first_witness :
  findStartCode [xff; x00; x00; x00; x01; x67] 0 = Some (mkStartCode 1 4) /\
  slice [xff; x00; x00; x00; x01; x67] 0 3 <> kStartCode3.
Proof.
  assert (H : findStartCode [xff; x00; x00; x00; x01; x67] 0
              = Some (mkStartCode 1 4)) by reflexivity.
  exact (conj H
           (proj1 (proj2 (proj2 (proj2
              (findStartCode_reports_first _ _ _ H))) 0
              (conj (le_n 0) (le_n 1))))).
Defined.

(** X2.  [findStartCode] misses nothing that has a byte behind it, and
    sees nothing that has not: it fails whenever fewer than four bytes
    are left from [start] (so a start code that ends the buffer is not
    reported yet), and it succeeds, at or before [j], whenever [00 00 01]
    stands at some [j >= start] with one more byte behind it. *)
Theorem findStartCode_complete (buf : list byte) (start : nat) :
  (length buf <= start + 3 -> findStartCode buf start = None) /\
  (forall j, start <= j -> j + 3 < length buf ->
             slice buf j 3 = kStartCode3 ->
             exists sc, findStartCode buf start = Some sc /\ offset sc <= j).
Proof.
  split.
  - intros Hlen. rewrite findStartCode_eq.
    replace (start + 3 <? length buf) with false
      by (symmetry; apply Nat.ltb_ge; lia).
    reflexivity.
  - intros j Hj Hin Hpat.
    assert (Hat : sc_at buf j = Some 3)
      by (apply (proj1 (sc_at_bytes buf j Hin)); assumption).
    destruct (findStartCode buf start) as [sc|] eqn:Hf.
    + exists sc. split; [reflexivity|].
      apply findStartCode_some in Hf. destruct Hf as (_ & _ & Hnone).
      destruct (Nat.le_gt_cases (offset sc) j) as [Hle|Hgt]; [assumption|].
      rewrite Hnone in Hat by lia. discriminate.
    + pose proof (findStartCode_none _ _ Hf j Hj) as H.
      rewrite H in Hat. discriminate.
Qed.

(** X3.  [findStartCode] is stable under the two things the Annex-B loop
    does to its buffer.  Appending bytes keeps a reported start code at
    the same offset with the same size (a 3-byte code never turns into a
    4-byte one, or the reverse, when more data arrives); erasing the first
    [k] bytes shifts every result by [k]. *)
Theorem findStartCode_append_erase (x y : list byte) (start k : nat) :
  (forall sc, findStartCode x start = Some sc ->
              findStartCode (x ++ y) start = Some sc) /\
  findStartCode (erase_front k x) start
  = option_map (fun r => mkStartCode (offset r - k) (size r))
               (findStartCode x (k + start)).
Proof.
  split; [intros sc Hf; apply findStartCode_app; assumption|].
  unfold erase_front. rewrite findStartCode_skipn.
  destruct (findStartCode (skipn k x) start) as [[o z]|]; cbn; [|reflexivity].
  replace (k + o - k) with o by lia. reflexivity.
Qed.

(** ** What the accumulator holds after a chunk *)

Section Residue.

Variable callback_ : bool.

Lemma parse_step_on_start_code p p' :
  parse_step callback_ p = Some p' ->
  exists z, findStartCode (stream_buf p') (parse_pos p')
            = Some (mkStartCode (parse_pos p') z).
Proof.
  unfold parse_step.
  destruct (findStartCode (stream_buf p) (parse_pos p)) as [sc|] eqn:Hsc;
    [|discriminate].
  destruct ((parse_pos p =? 0) && (0 <? offset sc)).
  - intros [= <-]. cbn [stream_buf parse_pos]. unfold erase_front.
    pose proof (findStartCode_bounds _ _ _ Hsc) as (Hs & _).
    pose proof (findStartCode_restart _ _ _ (offset sc) Hsc
                  (conj Hs (le_n _))) as Hr.
    replace (offset sc) with (offset sc + 0) in Hr at 1 by lia.
    rewrite findStartCode_skipn in Hr.
    destruct (findStartCode (skipn (offset sc) (stream_buf p)) 0)
      as [[o z]|]; [|discriminate].
    destruct sc as [so sz]. cbn in Hr. injection Hr as Ho _.
    exists z. f_equal. f_equal. cbn [offset] in Ho. lia.
  - destruct (findStartCode (stream_buf p) (offset sc + size sc))
      as [nsc|] eqn:Hnsc; [|discriminate].
    destruct (if 0 <? _ then _ else _) as [a out].
    intros [= <-]. cbn [stream_buf parse_pos]. exists (size nsc).
    destruct nsc as [o z]; cbn.
    apply (findStartCode_restart _ _ _ _ Hnsc). cbn.
    apply findStartCode_bounds in Hnsc. cbn in Hnsc. lia.
Qed.

Lemma parse_step_suffix p p' :
  parse_step callback_ p = Some p' ->
  exists k, stream_buf p' = skipn k (stream_buf p).
Proof.
  unfold parse_step.
  destruct (findStartCode (stream_buf p) (parse_pos p)) as [sc|];
    [|discriminate].
  destruct ((parse_pos p =? 0) && (0 <? offset sc)).
  - intros [= <-]. exists (offset sc). reflexivity.
  - destruct (findStartCode (stream_buf p) (offset sc + size sc));
      [|discriminate].
    destruct (if 0 <? _ then _ else _) as [a out].
    intros [= <-]. exists 0. reflexivity.
Qed.

Lemma parse_loop_suffix p :
  exists k, stream_buf (parse_loop callback_ p) = skipn k (stream_buf p).
Proof.
  apply (parse_loop_ind callback_
           (fun p q => exists k, stream_buf q = skipn k (stream_buf p))).
  - intros p0 _. exists 0. reflexivity.
  - intros p0 p' q Hstep (k & Hk).
    destruct (parse_step_suffix _ _ Hstep) as (k' & Hk').
    exists (k + k'). rewrite Hk, Hk', skipn_skipn. reflexivity.
Qed.

Lemma parse_loop_on_start_code p :
  parse_loop callback_ p = p \/
  exists z, findStartCode (stream_buf (parse_loop callback_ p))
                          (parse_pos (parse_loop callback_ p))
            = Some (mkStartCode (parse_pos (parse_loop callback_ p)) z).
Proof.
  destruct (parse_step callback_ p) as [p'|] eqn:E.
  - right. rewrite (parse_loop_step _ _ _ E).
    generalize (parse_step_on_start_code _ _ E). clear E.
    apply (parse_loop_ind callback_
             (fun p q =>
                (exists z, findStartCode (stream_buf p) (parse_pos p)
                           = Some (mkStartCode (parse_pos p) z)) ->
                exists z, findStartCode (stream_buf q) (parse_pos q)
                          = Some (mkStartCode (parse_pos q) z))).
    + trivial.
    + intros p0 p1 q Hstep IH _. apply IH.
      apply (parse_step_on_start_code _ _ Hstep).
  - left. apply parse_loop_stop. assumption.
Qed.

(** Standing on a start code, the loop is left only when no further start
    code is in the buffer. *)
Lemma parse_step_none_on_start_code p z :
  findStartCode (stream_buf p) (parse_pos p)
  = Some (mkStartCode (parse_pos p) z) ->
  parse_step callback_ p = None ->
  findStartCode (stream_buf p) (parse_pos p + z) = None.
Proof.
  intros Hf. unfold parse_step. rewrite Hf. cbn [offset size].
  replace ((parse_pos p =? 0) && (0 <? parse_pos p)) with false
    by (destruct (parse_pos p); reflexivity).
  destruct (findStartCode (stream_buf p) (parse_pos p + z)) as [nsc|];
    [|reflexivity].
  destruct (if 0 <? _ then _ else _) as [a out]. discriminate.
Qed.

End Residue.

(** X4.  After a chunk has been processed the accumulator never holds a
    complete NAL unit, and garbage is only dropped once a start code is
    seen.  Either no start code was found in the whole accumulator, which
    is then kept entire, with nothing handed over or delivered; or the
    accumulator left is a suffix of the old one that begins with a start
    code and holds no further one. *)
Theorem annexb_feed_residue
    (callback_ : bool) (chunk buf : list byte) (a : Assembler) :
  let buf' := fst (fst (annexb_feed callback_ chunk (buf, a))) in
  let a' := snd (fst (annexb_feed callback_ chunk (buf, a))) in
  let out := snd (annexb_feed callback_ chunk (buf, a)) in
  (exists k, buf' = skipn k (buf ++ chunk)) /\
  ((findStartCode (buf ++ chunk) 0 = None /\
    buf' = buf ++ chunk /\ a' = a /\ out = []) \/
   (exists z, findStartCode buf' 0 = Some (mkStartCode 0 z) /\
              findStartCode buf' z = None)).
Proof.
  cbn zeta. rewrite annexb_feed_eq. cbn [fst snd].
  set (p0 := mkParse (buf ++ chunk) 0 a []).
  set (f := parse_loop callback_ p0).
  pose proof (parse_loop_done callback_ p0) as Hdone. fold f in Hdone.
  split.
  - destruct (parse_loop_suffix callback_ p0) as (k & Hk). fold f in Hk.
    exists (parse_pos f + k). rewrite Hk, skipn_skipn. reflexivity.
  - assert (Hon : forall z,
               findStartCode (stream_buf f) (parse_pos f)
               = Some (mkStartCode (parse_pos f) z) ->
               findStartCode (skipn (parse_pos f) (stream_buf f)) 0
               = Some (mkStartCode 0 z) /\
               findStartCode (skipn (parse_pos f) (stream_buf f)) z = None).
    { intros z Hz.
      pose proof (parse_step_none_on_start_code callback_ f z Hz Hdone) as Hn.
      replace (parse_pos f) with (parse_pos f + 0) in Hz at 1 by lia.
      rewrite findStartCode_skipn in Hz, Hn. split.
      - destruct (findStartCode (skipn (parse_pos f) (stream_buf f)) 0)
          as [[o z']|]; [|discriminate].
        cbn in Hz. injection Hz as Ho Hz'. f_equal. f_equal; lia.
      - destruct (findStartCode (skipn (parse_pos f) (stream_buf f)) z);
          [discriminate|reflexivity]. }
    destruct (parse_loop_on_start_code callback_ p0) as [Hsame|(z & Hz)];
      fold f in Hsame || fold f in Hz.
    + destruct (findStartCode (buf ++ chunk) 0) as [sc|] eqn:Hsc.
      * right. rewrite Hsame in Hdone, Hon |- *. cbn [parse_pos stream_buf p0] in *.
        unfold parse_step in Hdone. cbn [parse_pos stream_buf p0] in Hdone.
        rewrite Hsc in Hdone. cbn [Nat.eqb andb] in Hdone.
        destruct (0 <? offset sc) eqn:Ho; [discriminate|].
        apply Nat.ltb_ge in Ho. destruct sc as [o z]; cbn in Ho.
        assert (o = 0) by lia. subst o.
        exists z. apply Hon. assumption.
      * left. rewrite Hsame. cbn. auto.
    + right. exists z. apply Hon. assumption.
Qed.

(** ** The Annex-B worker: state and well-formed streams *)

(** X5.  In Annex-B mode the whole state the worker ends in depends only
    on the bytes received: two sockets that deliver the same bytes, in
    whatever segments and whether they end by a close or an error, leave
    the same deliveries, the same pending access unit and keyframe flag,
    and the same accumulator; both runs end with [running_] cleared. *)
Theorem annexb_same_bytes_same_state (callback_ : bool) (s1 s2 : Socket) :
  socket_bytes s1 = socket_bytes s2 ->
  let run s := annexb_loop callback_ (S (socket_size s))
                           (mkWorker true s assembler_init []) [] in
  delivered (fst (run s1)) = delivered (fst (run s2)) /\
  asm (fst (run s1)) = asm (fst (run s2)) /\
  snd (run s1) = snd (run s2) /\
  running_ (fst (run s1)) = false /\ running_ (fst (run s2)) = false.
Proof.
  intros E. cbn zeta.
  destruct (annexb_run_bytes callback_ s1) as (fd1 & ->).
  destruct (annexb_run_bytes callback_ s2) as (fd2 & ->).
  rewrite E. cbn [fst snd delivered asm running_]. repeat split.
Qed.

Lemma annexb_same_bytes_same_state_witness :
  socket_bytes (map Data (bytewise sps_idr_stream_closed) ++ [Error])
  = socket_bytes [Data sps_idr_stream_closed] /\
  snd (annexb_loop true
         (S (socket_size (map Data (bytewise sps_idr_stream_closed)
                          ++ [Error])))
         (mkWorker true (map Data (bytewise sps_idr_stream_closed) ++ [Error])
                   assembler_init []) [])
  = snd (annexb_loop true (S (socket_size [Data sps_idr_stream_closed]))
           (mkWorker true [Data sps_idr_stream_closed] assembler_init []) []).
Proof.
  assert (H : socket_bytes (map Data (bytewise sps_idr_stream_closed)
                            ++ [Error])
              = socket_bytes [Data sps_idr_stream_closed]) by reflexivity.
  exact (conj H
           (proj1 (proj2 (proj2
              (annexb_same_bytes_same_state true _ _ H))))).
Defined.

(** X6.  Annex-B, end to end.  On a stream made of bytes without start
    code (dropped), then units that each stand behind a 3- or 4-byte start
    code, then one more start code and at least one byte, the worker
    delivers exactly what the assembler makes of the units' payloads, in
    order; the bytes in front of the first start code never reach it, and
    the payload behind the last start code is not handed over. *)
Theorem annexb_worker_refines_assembler
    (callback_ : bool) (s : Socket) (garbage sc tail : list byte)
    (units : list (list byte * list byte)) :
  nal_clean garbage = true ->
  Forall annexb_unit_ok units ->
  is_start_code sc -> tail <> [] -> findStartCode tail 0 = None ->
  socket_bytes s = garbage ++ annexb_stream units ++ sc ++ tail ->
  delivered (loop callback_ AnnexB (Some s))
  = snd (assemble callback_ (map snd units) assembler_init).
Proof.
  intros Hg Hok Hsc Htail Hplain Hbytes.
  rewrite annexb_loop_bytes, Hbytes. unfold annexb_feed. cbn [fst snd app].
  pose proof (parse_loop_units callback_ sc tail Hsc Htail Hplain
                units [] assembler_init [] Hok) as Hunits.
  cbn zeta in Hunits. cbn [length app] in Hunits.
  destruct Hunits as [_ Hout].
  destruct garbage as [|g0 g] eqn:Eg; [exact Hout|]. rewrite <- Eg in *.
  destruct (annexb_stream_head sc tail Hsc Htail units Hok)
    as (sc' & post & Hhead & Hsc' & Hpost).
  assert (Hfind : findStartCode (garbage ++ annexb_stream units ++ sc ++ tail) 0
                  = Some (mkStartCode (length garbage) (length sc'))).
  { rewrite Hhead.
    exact (findStartCode_after [] garbage sc' post Hg Hsc' Hpost). }
  erewrite parse_loop_step.
  - exact Hout.
  - unfold parse_step. cbn [stream_buf parse_pos p_asm p_out].
    rewrite Hfind. cbn [offset Nat.eqb andb].
    replace (0 <? length garbage) with true
      by (symmetry; apply Nat.ltb_lt; rewrite Eg; cbn; lia).
    unfold erase_front. rewrite skipn_app_exact. reflexivity.
Qed.

Lemma annexb_worker_refines_assembler_witness :
  nal_clean [xde; xad] = true /\
  Forall annexb_unit_ok [(kStartCode, sps_nal); (kStartCode3, idr_nal)] /\
  is_start_code kStartCode3 /\ [x09] <> [] /\
  findStartCode [x09] 0 = None /\
  delivered (loop true AnnexB
               (Some [Data ([xde; xad] ++ sps_idr_stream_closed)]))
  = snd (assemble true [sps_nal; idr_nal] assembler_init).
Proof.
  assert (H1 : nal_clean [xde; xad] = true) by reflexivity.
  assert (H2 : Forall annexb_unit_ok
                      [(kStartCode, sps_nal); (kStartCode3, idr_nal)]).
  { constructor; [|constructor; [|constructor]].
    - split; [right; reflexivity|]. split; [reflexivity|discriminate].
    - split; [left; reflexivity|]. split; [reflexivity|discriminate]. }
  assert (H3 : is_start_code kStartCode3) by (left; reflexivity).
  assert (H4 : [x09] <> []) by discriminate.
  assert (H5 : findStartCode [x09] 0 = None) by reflexivity.
  exact (conj H1 (conj H2 (conj H3 (conj H4 (conj H5
           (annexb_worker_refines_assembler true
              [Data ([xde; xad] ++ sps_idr_stream_closed)]
              [xde; xad] kStartCode3 [x09]
              [(kStartCode, sps_nal); (kStartCode3, idr_nal)]
              H1 H2 H3 H4 H5 eq_refl)))))).
Defined.

(** ** The AVCC worker, end to end *)

(** X7.  AVCC, end to end.  On the length-prefixed encoding of a sequence
    of NAL units (each of 1 to 4 MiB bytes), followed by anything the loop
    stops on (a truncated prefix, a truncated payload, a length of 0 or
    above 4 MiB), the worker delivers exactly what the assembler makes of
    the units, in order, however the bytes arrive. *)
Theorem avcc_worker_refines_assembler
    (callback_ : bool) (s : Socket) (nals : list (list byte))
    (tail : list byte) :
  Forall avcc_nal_ok nals ->
  avcc_stops tail ->
  socket_bytes s = avcc_stream nals ++ tail ->
  delivered (loop callback_ Avcc (Some s))
  = snd (assemble callback_ nals assembler_init).
Proof.
  intros Hok Hstop Hbytes. cbn [loop delivered].
  rewrite (avcc_loop_stream_tail callback_ nals _ _ tail);
    try assumption; try reflexivity.
  cbn [fd]. pose proof (socket_bytes_size s). lia.
Qed.

Lemma avcc_worker_refines_assembler_witness :
  Forall avcc_nal_ok [sps_nal; idr_nal] /\
  avcc_stops [x00] /\
  socket_bytes avcc_socket_example = avcc_stream [sps_nal; idr_nal] ++ [x00] /\
  delivered (loop true Avcc (Some avcc_socket_example))
  = snd (assemble true [sps_nal; idr_nal] assembler_init).
Proof.
  assert (H1 : Forall avcc_nal_ok [sps_nal; idr_nal]).
  { repeat constructor; cbn; try lia; discriminate. }
  assert (H2 : avcc_stops [x00]) by (left; cbn; lia).
  assert (H3 : socket_bytes avcc_socket_example
               = avcc_stream [sps_nal; idr_nal] ++ [x00]) by reflexivity.
  exact (conj H1 (conj H2 (conj H3
           (avcc_worker_refines_assembler true avcc_socket_example
              [sps_nal; idr_nal] [x00] H1 H2 H3)))).
Defined.

(** X8.  In AVCC mode what the worker delivers depends only on the bytes
    received, not on how the socket's partial reads cut them nor on
    whether the stream ends by a close or an error. *)
Theorem avcc_same_bytes_same_deliveries
    (callback_ : bool) (s1 s2 : Socket) :
  socket_bytes s1 = socket_bytes s2 ->
  delivered (loop callback_ Avcc (Some s1))
  = delivered (loop callback_ Avcc (Some s2)).
Proof.
  intros E. cbn [loop delivered].
  apply avcc_loop_same_bytes; cbn [fd running_ asm delivered];
    try reflexivity; try assumption.
  - pose proof (socket_bytes_size s1). lia.
  - pose proof (socket_bytes_size s2). lia.
Qed.

Lemma avcc_same_bytes_same_deliveries_witness :
  socket_bytes (map Data (bytewise (avcc_stream [sps_nal; idr_nal]))
                ++ [Error])
  = socket_bytes [Data (avcc_stream [sps_nal; idr_nal])] /\
  delivered (loop true Avcc
               (Some (map Data (bytewise (avcc_stream [sps_nal; idr_nal]))
                      ++ [Error])))
  = delivered (loop true Avcc
                 (Some [Data (avcc_stream [sps_nal; idr_nal])])).
Proof.
  assert (H : socket_bytes
                (map Data (bytewise (avcc_stream [sps_nal; idr_nal]))
                 ++ [Error])
              = socket_bytes [Data (avcc_stream [sps_nal; idr_nal])])
    by reflexivity.
  exact (conj H (avcc_same_bytes_same_deliveries true _ _ H)).
Defined.

(** ** The length prefix *)

Lemma byte_of_Z_u8 b : byte_of_Z (u8 b) = b.
Proof.
  unfold byte_of_Z. pose proof (u8_range b) as Hr.
  rewrite Z.mod_small by lia. unfold u8. rewrite N2Z.id, Byte.of_to_N.
  reflexivity.
Qed.

(** X9.  The length read from the prefix is its unsigned big-endian
    value: it always lies in [0, 2^32), and decoding and the big-endian
    encoding are inverse to each other, so two different prefixes never
    announce the same length. *)
Theorem be32_bijection (b0 b1 b2 b3 : byte) (n : Z) :
  (0 <= be32 [b0; b1; b2; b3] < 2 ^ 32)%Z /\
  be32_bytes (be32 [b0; b1; b2; b3]) = [b0; b1; b2; b3] /\
  ((0 <= n < 2 ^ 32)%Z -> be32 (be32_bytes n) = n).
Proof.
  split; [apply be32_range|]. split; [|apply be32_be32_bytes].
  unfold be32_bytes. rewrite be32_value.
  pose proof (u8_range b0) as R0. pose proof (u8_range b1) as R1.
  pose proof (u8_range b2) as R2. pose proof (u8_range b3) as R3.
  assert (E8 : (2 ^ 8 = 256)%Z) by reflexivity.
  assert (E16 : (2 ^ 16 = 65536)%Z) by reflexivity.
  assert (E24 : (2 ^ 24 = 16777216)%Z) by reflexivity.
  rewrite E8, E16, E24.
  set (v := (u8 b0 * 16777216 + u8 b1 * 65536 + u8 b2 * 256 + u8 b3)%Z).
  assert (D24 : (v / 16777216 = u8 b0)%Z).
  { symmetry. apply (Z.div_unique_pos v 16777216 (u8 b0)
                       (u8 b1 * 65536 + u8 b2 * 256 + u8 b3));
      unfold v; lia. }
  assert (D16 : (v / 65536 = u8 b0 * 256 + u8 b1)%Z).
  { symmetry. apply (Z.div_unique_pos v 65536 (u8 b0 * 256 + u8 b1)
                       (u8 b2 * 256 + u8 b3)); unfold v; lia. }
  assert (D8 : (v / 256 = u8 b0 * 65536 + u8 b1 * 256 + u8 b2)%Z).
  { symmetry. apply (Z.div_unique_pos v 256
                       (u8 b0 * 65536 + u8 b1 * 256 + u8 b2) (u8 b3));
      unfold v; lia. }
  assert (B : forall q r, (0 <= r < 256)%Z ->
                          byte_of_Z (q * 256 + r) = byte_of_Z r).
  { intros q r Hr. unfold byte_of_Z.
    rewrite Z.add_comm, Z.mod_add by lia. reflexivity. }
  rewrite D24, D16, D8.
  rewrite (B (u8 b0) (u8 b1) R1).
  replace (u8 b0 * 65536 + u8 b1 * 256 + u8 b2)%Z
    with ((u8 b0 * 256 + u8 b1) * 256 + u8 b2)%Z by ring.
  rewrite (B _ (u8 b2) R2).
  unfold v.
  replace (u8 b0 * 16777216 + u8 b1 * 65536 + u8 b2 * 256 + u8 b3)%Z
    with ((u8 b0 * 65536 + u8 b1 * 256 + u8 b2) * 256 + u8 b3)%Z by ring.
  rewrite (B _ (u8 b3) R3).
  rewrite !byte_of_Z_u8. reflexivity.
Qed.

(** ** The loops stop on their own *)

Lemma avcc_loop_stable callback_ f :
  forall w k,
    running_ (avcc_loop callback_ f w) = false ->
    avcc_loop callback_ (f + k) w = avcc_loop callback_ f w.
Proof.
  induction f as [|f IH]; intros w k Hr.
  - cbn [avcc_loop Nat.add] in Hr |- *.
    destruct k; cbn [avcc_loop]; [reflexivity|]. rewrite Hr. reflexivity.
  - cbn [avcc_loop Nat.add] in *. destruct (running_ w); [|reflexivity].
    destruct (avcc_iter callback_ w) as [[|] w']; [|reflexivity].
    apply IH. assumption.
Qed.

Lemma annexb_loop_stable callback_ f :
  forall w buf k,
    running_ (fst (annexb_loop callback_ f w buf)) = false ->
    annexb_loop callback_ (f + k) w buf = annexb_loop callback_ f w buf.
Proof.
  induction f as [|f IH]; intros w buf k Hr.
  - cbn [annexb_loop fst Nat.add] in Hr |- *.
    destruct k; cbn [annexb_loop]; [reflexivity|]. rewrite Hr. reflexivity.
  - cbn [annexb_loop Nat.add] in *. destruct (running_ w); [|reflexivity].
    destruct (recv_n _ <=? 0)%Z; [reflexivity|].
    destruct (annexb_feed _ _ _) as [[b a] out].
    apply IH. assumption.
Qed.

(** X10.  On every socket both read loops end by themselves, with
    [running_] cleared by the loop, within [socket_size s + 1] iterations,
    where [socket_size s] is the number of segments of the socket plus the
    number of bytes they carry; allowing more iterations changes nothing
    of the result. *)
Theorem worker_loops_terminate (callback_ : bool) (s : Socket) (k : nat) :
  let w0 := mkWorker true s assembler_init [] in
  let n := S (socket_size s) in
  running_ (avcc_loop callback_ n w0) = false /\
  avcc_loop callback_ (n + k) w0 = avcc_loop callback_ n w0 /\
  running_ (fst (annexb_loop callback_ n w0 [])) = false /\
  annexb_loop callback_ (n + k) w0 [] = annexb_loop callback_ n w0 [].
Proof.
  cbn zeta. destruct (loop_exits callback_ s) as [Ha Hb].
  split; [assumption|]. split; [apply avcc_loop_stable; assumption|].
  split; [assumption|]. apply annexb_loop_stable. assumption.
Qed.

(** ** The shape of a delivered access unit *)

Lemma contains_idr_non_vcl pre :
  Forall (fun n => isVclNal n = false) pre -> contains_idr pre = false.
Proof.
  induction 1 as [|n pre Hn _ IH]; [reflexivity|].
  cbn [contains_idr existsb]. fold (contains_idr pre). rewrite IH.
  destruct (isIdrNal n) eqn:E; [|reflexivity].
  apply isIdrNal_isVclNal in E. congruence.
Qed.

(** X11.  In both framings every delivered access unit holds exactly one
    VCL unit, and it is the last one: the unit is a run of non-empty
    non-VCL units followed by one VCL unit, each behind [00 00 00 01], and
    [is_keyframe] says whether that closing unit is an IDR slice
    (parameter sets in front never make a keyframe). *)
Theorem delivered_unit_shape
    (callback_ : bool) (framing_ : H264Framing) (conn : option Socket)
    (au : H264AccessUnit) :
  In au (delivered (loop callback_ framing_ conn)) ->
  exists pre v,
    data au = frame pre ++ kStartCode ++ v /\
    Forall (fun n => n <> [] /\ isVclNal n = false) pre /\
    isVclNal v = true /\
    is_keyframe au = isIdrNal v.
Proof.
  intros Hin.
  destruct (loop_fed callback_ framing_ conn) as (nals & Hne & Hd).
  rewrite Hd in Hin.
  pose proof (assemble_init_groups callback_ nals) as Ha.
  pose proof (group_nals_partition nals [] (Forall_nil _)) as Hp.
  destruct (group_nals [] nals) as [gs p].
  rewrite Ha in Hin. cbn [snd] in Hin.
  destruct callback_; [|contradiction].
  apply in_map_iff in Hin. destruct Hin as (g & <- & Hg).
  destruct Hp as (Hcat & _ & Hgs). cbn [app] in Hcat.
  rewrite Forall_forall in Hgs.
  destruct (Hgs g Hg) as (pre & v & -> & Hpre & Hv).
  exists pre, v. cbn [data is_keyframe unit_of].
  rewrite frame_app, frame_one, contains_idr_app.
  rewrite (contains_idr_non_vcl pre Hpre).
  cbn [contains_idr existsb orb]. rewrite orb_false_r.
  repeat split; try assumption.
  rewrite Forall_forall in *. intros n Hn. split; [|apply Hpre; assumption].
  apply Hne. rewrite <- Hcat. apply in_or_app. left.
  apply in_concat. exists (pre ++ [v]). split; [assumption|].
  apply in_or_app. left. assumption.
Qed.

Lemma delivered_unit_shape_witness :
  In (mkAccessUnit (kStartCode ++ sps_nal ++ kStartCode ++ idr_nal) true)
     (delivered (loop true Avcc (Some avcc_socket_example))) /\
  exists pre v,
    kStartCode ++ sps_nal ++ kStartCode ++ idr_nal
    = frame pre ++ kStartCode ++ v /\
    Forall (fun n => n <> [] /\ isVclNal n = false) pre /\
    isVclNal v = true /\ true = isIdrNal v.
Proof.
  assert (H : In (mkAccessUnit
                    (kStartCode ++ sps_nal ++ kStartCode ++ idr_nal) true)
                 (delivered (loop true Avcc (Some avcc_socket_example))))
    by (left; reflexivity).
  exact (conj H
           (delivered_unit_shape true Avcc (Some avcc_socket_example) _ H)).
Defined.

(** X12.  One VCL unit per access unit: a run of slices, as an encoder
    writes for a picture cut into several slices, is delivered as one
    access unit per slice, each holding that slice alone and flagged as a
    keyframe exactly when the slice is an IDR slice. *)
Theorem slices_become_separate_units (nals : list (list byte)) :
  Forall (fun n => isVclNal n = true) nals ->
  assemble true nals assembler_init
  = (assembler_init,
     map (fun n => mkAccessUnit (kStartCode ++ n) (isIdrNal n)) nals).
Proof.
  induction 1 as [|n nals Hn _ IH]; [reflexivity|].
  cbn [assemble map]. unfold emit_access_unit at 1. rewrite Hn.
  cbn [negb access_unit has_idr assembler_init app]. rewrite IH.
  cbn [app]. destruct (isIdrNal n); reflexivity.
Qed.

Lemma slices_become_separate_units_witness :
  Forall (fun n => isVclNal n = true) [idr_nal; idr_nal; slice_nal] /\
  length (snd (assemble true [idr_nal; idr_nal; slice_nal] assembler_init))
  = 3.
Proof.
  assert (H : Forall (fun n => isVclNal n = true)
                     [idr_nal; idr_nal; slice_nal])
    by (repeat constructor).
  split; [exact H|].
  rewrite (slices_become_separate_units _ H). reflexivity.
Defined.

(** ** A source without callback *)

Section NoCallback.

Lemma emit_access_unit_state nal is_vcl a :
  fst (emit_access_unit false nal is_vcl a)
  = fst (emit_access_unit true nal is_vcl a).
Proof. unfold emit_access_unit. destruct (negb is_vcl); reflexivity. Qed.

Lemma parse_step_agree p q :
  parse_agree p q ->
  match parse_step false p, parse_step true q with
  | None, None => True
  | Some p', Some q' => parse_agree p' q'
  | _, _ => False
  end.
Proof.
  intros (Hb & Hp & Ha). unfold parse_step. rewrite Hb, Hp, Ha.
  destruct (findStartCode (stream_buf q) (parse_pos q)) as [sc|]; [|exact I].
  destruct ((parse_pos q =? 0) && (0 <? offset sc)).
  - repeat split.
  - destruct (findStartCode (stream_buf q) (offset sc + size sc)) as [nsc|];
      [|exact I].
    destruct (0 <? offset nsc - (offset sc + size sc)).
    + pose proof (emit_access_unit_state
                    (slice (stream_buf q) (offset sc + size sc)
                           (offset nsc - (offset sc + size sc)))
                    (isVclNal (slice (stream_buf q) (offset sc + size sc)
                                 (offset nsc - (offset sc + size sc))))
                    (p_asm q)) as He.
      destruct (emit_access_unit false _ _ _) as [a1 o1].
      destruct (emit_access_unit true _ _ _) as [a2 o2].
      cbn in He. repeat split. assumption.
    + repeat split.
Qed.

Lemma parse_iter_agree n :
  forall p q, parse_agree p q ->
              parse_agree (parse_iter false n p) (parse_iter true n q).
Proof.
  induction n as [|n IH]; intros p q H; [assumption|].
  cbn [parse_iter]. pose proof (parse_step_agree p q H) as Hs.
  destruct (parse_step false p), (parse_step true q); try contradiction;
    [apply IH|]; assumption.
Qed.

Lemma annexb_feed_agree chunk st :
  fst (annexb_feed false chunk st) = fst (annexb_feed true chunk st).
Proof.
  rewrite !annexb_feed_eq. cbn [fst]. unfold parse_loop, parse_measure.
  cbn [stream_buf parse_pos].
  destruct (parse_iter_agree (S (length (fst st ++ chunk) - 0))
              (mkParse (fst st ++ chunk) 0 (snd st) [])
              (mkParse (fst st ++ chunk) 0 (snd st) []))
    as (Hb & Hp & Ha); [repeat split|].
  rewrite Hb, Hp, Ha. reflexivity.
Qed.

Ltac agree :=
  unfold worker_agree in *; cbn [fst snd running_ fd asm] in *;
  repeat split; first [assumption | reflexivity | congruence].

Lemma annexb_loop_agree fuel :
  forall w v buf,
    worker_agree w v ->
    worker_agree (fst (annexb_loop false fuel w buf))
                 (fst (annexb_loop true fuel v buf)) /\
    snd (annexb_loop false fuel w buf) = snd (annexb_loop true fuel v buf).
Proof.
  induction fuel as [|fuel IH]; intros w v buf (Hr & Hf & Ha);
    cbn [annexb_loop].
  - agree.
  - rewrite Hr, Hf, Ha. destruct (running_ v) eqn:Ev; [|agree].
    destruct (recv_n _ <=? 0)%Z; [agree|].
    pose proof (annexb_feed_agree
                  (recv_bytes (recv kReadChunkSize (fd v))) (buf, asm v))
      as He.
    destruct (annexb_feed false _ _) as [[b1 a1] o1].
    destruct (annexb_feed true _ _) as [[b2 a2] o2].
    cbn [fst] in He. injection He as -> ->.
    apply IH. agree.
Qed.

Lemma recv_exact_agree fuel :
  forall want (w v : Worker) got,
    worker_agree w v ->
    worker_agree (fst (recv_exact fuel want w got))
                 (fst (recv_exact fuel want v got)) /\
    snd (recv_exact fuel want w got) = snd (recv_exact fuel want v got).
Proof.
  induction fuel as [|fuel IH]; intros want w v got (Hr & Hf & Ha);
    cbn [recv_exact].
  - agree.
  - rewrite Hr, Hf. destruct (_ && _); [|agree].
    destruct (recv_n _ <=? 0)%Z; [agree|].
    apply IH. agree.
Qed.

Lemma avcc_iter_agree w v :
  worker_agree w v ->
  fst (avcc_iter false w) = fst (avcc_iter true v) /\
  worker_agree (snd (avcc_iter false w)) (snd (avcc_iter true v)).
Proof.
  intros H. unfold avcc_iter.
  destruct (recv_exact_agree 4 4 w v [] H) as [(Hr1 & Hf1 & Ha1) Hl1].
  destruct (recv_exact 4 4 w []) as [w1 l1].
  destruct (recv_exact 4 4 v []) as [v1 l2].
  cbn [fst snd] in Hr1, Hf1, Ha1, Hl1. subst l2. rewrite Hr1.
  destruct (negb (running_ v1) || (length l1 <? 4)); [agree|].
  destruct ((be32 l1 =? 0)%Z || (be32 l1 >? kMaxNalSize)%Z); [agree|].
  destruct (recv_exact_agree (Z.to_nat (be32 l1)) (Z.to_nat (be32 l1))
              w1 v1 [] (conj Hr1 (conj Hf1 Ha1)))
    as [(Hr2 & Hf2 & Ha2) Hl2].
  destruct (recv_exact _ _ w1 []) as [w2 n1].
  destruct (recv_exact _ _ v1 []) as [v2 n2].
  cbn [fst snd] in Hr2, Hf2, Ha2, Hl2. subst n2. rewrite Hr2, Ha2.
  destruct (negb (running_ v2) || (length n1 <? Z.to_nat (be32 l1)));
    [agree|].
  pose proof (emit_access_unit_state n1 (isVclNal n1) (asm v2)) as He.
  destruct (emit_access_unit false _ _ _) as [a1 o1].
  destruct (emit_access_unit true _ _ _) as [a2 o2].
  cbn [fst] in He. subst a2. agree.
Qed.

Lemma avcc_loop_agree fuel :
  forall w v, worker_agree w v ->
              worker_agree (avcc_loop false fuel w) (avcc_loop true fuel v).
Proof.
  induction fuel as [|fuel IH]; intros w v H; cbn [avcc_loop];
    [assumption|].
  pose proof H as (Hr & _). rewrite Hr.
  destruct (running_ v) eqn:Ev; [|assumption].
  destruct (avcc_iter_agree w v H) as [Hflow Hw].
  destruct (avcc_iter false w) as [f1 w1].
  destruct (avcc_iter true v) as [f2 v1].
  cbn [fst snd] in Hflow, Hw. subst f2.
  destruct f1; [apply IH|]; assumption.
Qed.

End NoCallback.

(** X13.  A source constructed with an empty callback reads and parses
    exactly as one with a callback: its worker stops at the same position
    of the socket with the same pending access unit, and the access units
    it completes are dropped, so that nothing is ever delivered. *)
Theorem empty_callback_delivers_nothing
    (framing_ : H264Framing) (conn : option Socket) :
  delivered (loop false framing_ conn) = [] /\
  fd (loop false framing_ conn) = fd (loop true framing_ conn) /\
  asm (loop false framing_ conn) = asm (loop true framing_ conn).
Proof.
  split.
  - destruct (loop_fed false framing_ conn) as (nals & _ & ->).
    rewrite assemble_init_groups.
    destruct (group_nals [] nals). reflexivity.
  - destruct conn as [s|]; [|split; reflexivity].
    assert (H0 : worker_agree (mkWorker true s assembler_init [])
                              (mkWorker true s assembler_init []))
      by (repeat split).
    destruct framing_; cbn [loop running_ fd asm].
    + destruct (avcc_loop_agree (S (socket_size s)) _ _ H0)
        as (_ & Hf & Ha).
      split; assumption.
    + destruct (annexb_loop_agree (S (socket_size s)) _ _ [] H0)
        as [(_ & Hf & Ha) _].
      split; assumption.
Qed.

(** ** Stopping and starting again *)

Lemma lifecycle_exec_app t1 t2 i :
  Lifecycle.exec (t1 ++ t2) i
  = match Lifecycle.exec t1 i with
    | Lifecycle.Alive i' => Lifecycle.exec t2 i'
    | o => o
    end.
Proof.
  revert i. induction t1 as [|e t1 IH]; intros i; [reflexivity|].
  cbn [app Lifecycle.exec].
  destruct (Lifecycle.step e i); [apply IH|reflexivity|reflexivity].
Qed.

Lemma lifecycle_step_stopped e i i' :
  e <> Lifecycle.CallStart ->
  Lifecycle.running_ i = false ->
  Lifecycle.step e i = Lifecycle.Alive i' ->
  Lifecycle.running_ i' = false.
Proof.
  intros He Hr. destruct i as [r j w c n]. cbn in Hr. subst r.
  destruct e;
    unfold Lifecycle.step, Lifecycle.start, Lifecycle.stop_join,
           Lifecycle.stop_store;
    cbn [Lifecycle.running_ Lifecycle.joinable Lifecycle.workers
         Lifecycle.connecting Lifecycle.spawned];
    try congruence.
  - intros [= <-]. reflexivity.
  - destruct j; [destruct (w =? 0)|]; intros [= <-]; reflexivity.
  - destruct (_ && _); intros [= <-]; reflexivity.
  - destruct (_ && _); intros [= <-]; reflexivity.
  - destruct (_ && _); intros [= <-]; reflexivity.
  - destruct (_ && _); intros [= <-]; reflexivity.
Qed.

Lemma lifecycle_exec_stopped trace :
  forall i i', ~ In Lifecycle.CallStart trace ->
               Lifecycle.running_ i = false ->
               Lifecycle.exec trace i = Lifecycle.Alive i' ->
               Lifecycle.running_ i' = false.
Proof.
  induction trace as [|e trace IH]; intros i i' Hno Hr; cbn.
  - intros [= <-]. assumption.
  - destruct (Lifecycle.step e i) as [i1| |] eqn:E; try discriminate.
    apply IH.
    + intros H. apply Hno. right. assumption.
    + apply (lifecycle_step_stopped e i i1); try assumption.
      intros ->. apply Hno. left. reflexivity.
Qed.

(** X14.  A worker that has ended by itself (it could not connect, or it left
    its read loop after an error, the end of the stream or a bad length)
    leaves [thread_] joinable and the flag cleared: a [start()] that is not
    preceded by [stop()] then move-assigns to a joinable thread, and the
    process ends in [std::terminate]. *)
Theorem start_after_worker_exit_terminates
    (trace : list Lifecycle.Event) (e : Lifecycle.Event)
    (i : Lifecycle.Instance) :
  e = Lifecycle.ConnectFails \/ e = Lifecycle.WorkerReturns ->
  Lifecycle.exec (trace ++ [e]) Lifecycle.construct = Lifecycle.Alive i ->
  Lifecycle.running i = false /\ Lifecycle.joinable i = true /\
  Lifecycle.exec (trace ++ [e; Lifecycle.CallStart]) Lifecycle.construct
  = Lifecycle.Terminated.
Proof.
  intros He Hexec.
  assert (Hi : Lifecycle.running_ i = false /\ Lifecycle.joinable i = true).
  { rewrite lifecycle_exec_app in Hexec.
    destruct (Lifecycle.exec trace Lifecycle.construct) as [i0| |] eqn:E0;
      try discriminate.
    pose proof (lifecycle_exec_inv trace _ _ lifecycle_inv_construct E0)
      as (Hw & Hj & _).
    destruct i0 as [r j w c n].
    cbn [Lifecycle.workers Lifecycle.joinable] in Hw, Hj.
    destruct He as [-> | ->];
      cbn [Lifecycle.exec Lifecycle.step Lifecycle.workers
           Lifecycle.connecting Lifecycle.joinable Lifecycle.spawned
           Lifecycle.running_] in Hexec;
      destruct w as [|[|w]]; try lia;
      try (cbn in Hexec; discriminate);
      change (0 <? 1) with true in Hexec; cbn [andb] in Hexec;
      destruct c; cbn [negb] in Hexec; try discriminate;
      injection Hexec as <-;
      (split; [reflexivity|apply Hj; reflexivity]). }
  destruct Hi as [Hr Hj].
  split; [exact Hr|]. split; [exact Hj|].
  change (trace ++ [e; Lifecycle.CallStart])
    with (trace ++ [e] ++ [Lifecycle.CallStart]).
  rewrite app_assoc, lifecycle_exec_app, Hexec.
  cbn [Lifecycle.exec Lifecycle.step]. unfold Lifecycle.start.
  rewrite Hr, Hj. reflexivity.
Qed.

Lemma start_after_worker_exit_terminates_witness :
  Lifecycle.exec ([Lifecycle.CallStart; Lifecycle.Connected;
                   Lifecycle.WorkerStore]
                  ++ [Lifecycle.WorkerReturns; Lifecycle.CallStart])
                 Lifecycle.construct
  = Lifecycle.Terminated.
Proof.
  exact (proj2 (proj2
    (start_after_worker_exit_terminates
       [Lifecycle.CallStart; Lifecycle.Connected; Lifecycle.WorkerStore]
       Lifecycle.WorkerReturns
       (Lifecycle.mkInstance false true 0 false 1)
       (or_intror eq_refl) eq_refl))).
Defined.

(** X15.  [stop()] leaves the source stopped and ready to be started again.
    Whatever the worker does between the store and the return of the join,
    afterwards [running()] is false, no worker is inside [loop] and
    [thread_] is not joinable; a second [stop()] changes nothing; and
    [start()] creates exactly one new worker instead of terminating. *)
Theorem stop_leaves_restartable
    (trace mid : list Lifecycle.Event) (i : Lifecycle.Instance) :
  ~ In Lifecycle.CallStart mid ->
  Lifecycle.exec (trace ++ Lifecycle.StopStore :: mid ++ [Lifecycle.StopJoin])
                 Lifecycle.construct = Lifecycle.Alive i ->
  Lifecycle.running i = false /\ Lifecycle.workers i = 0 /\
  Lifecycle.joinable i = false /\
  Lifecycle.exec [Lifecycle.StopStore; Lifecycle.StopJoin] i
  = Lifecycle.Alive i /\
  Lifecycle.start i
  = Lifecycle.Alive (Lifecycle.mkInstance true true 1 true
                                          (S (Lifecycle.spawned i))).
Proof.
  intros Hno Hexec.
  rewrite lifecycle_exec_app in Hexec.
  destruct (Lifecycle.exec trace Lifecycle.construct) as [i0| |] eqn:E0;
    try discriminate.
  pose proof (lifecycle_exec_inv trace _ _ lifecycle_inv_construct E0)
    as Hinv0.
  cbn [Lifecycle.exec Lifecycle.step] in Hexec.
  rewrite lifecycle_exec_app in Hexec.
  destruct (Lifecycle.exec mid (Lifecycle.stop_store i0)) as [i1| |] eqn:E1;
    try discriminate.
  assert (Hinv1 : lifecycle_inv i1).
  { apply (lifecycle_exec_inv mid (Lifecycle.stop_store i0) i1);
      [|assumption].
    apply (lifecycle_step_inv Lifecycle.StopStore i0); [assumption|].
    reflexivity. }
  assert (Hr1 : Lifecycle.running_ i1 = false).
  { apply (lifecycle_exec_stopped mid (Lifecycle.stop_store i0) i1 Hno);
      [reflexivity|assumption]. }
  destruct Hinv1 as (Hw & Hj & _).
  destruct i1 as [r j w c n].
  cbn [Lifecycle.running_ Lifecycle.workers Lifecycle.joinable] in *.
  subst r.
  cbn [Lifecycle.exec Lifecycle.step] in Hexec.
  unfold Lifecycle.stop_join in Hexec.
  cbn [Lifecycle.running_ Lifecycle.workers Lifecycle.joinable
       Lifecycle.connecting Lifecycle.spawned] in Hexec.
  destruct j.
  - destruct w as [|w]; cbn [Nat.eqb] in Hexec; [|discriminate].
    injection Hexec as <-. repeat split.
  - assert (w = 0) by (destruct w as [|[|w]]; [reflexivity| |lia];
                       specialize (Hj eq_refl); discriminate).
    subst w. injection Hexec as <-. repeat split.
Qed.

Lemma stop_leaves_restartable_witness :
  Lifecycle.start (Lifecycle.mkInstance false false 0 false 1)
  = Lifecycle.Alive (Lifecycle.mkInstance true true 1 true 2).
Proof.
  assert (H1 : ~ In Lifecycle.CallStart
                    [Lifecycle.WorkerStore; Lifecycle.WorkerReturns]).
  { intros [H|[H|[]]]; discriminate. }
  exact (proj2 (proj2 (proj2 (proj2
    (stop_leaves_restartable
       [Lifecycle.CallStart; Lifecycle.Connected]
       [Lifecycle.WorkerStore; Lifecycle.WorkerReturns]
       (Lifecycle.mkInstance false false 0 false 1) H1 eq_refl))))).
Defined.

(** ** Address list and descriptor *)

(** X16.  [connectTcp] and [loop] release what they obtain, on every path
    of either build: the address list of a successful [getaddrinfo] is
    freed exactly once and not used afterwards; a descriptor obtained from
    [socket] is closed exactly once, by [connectTcp] when [connect] fails
    and by [loop] otherwise, and not used afterwards.  When [connectTcp]
    returns a descriptor it is the open one, and when it fails nothing is
    left open.  It returns a descriptor exactly when [WSAStartup] (where
    compiled in), [getaddrinfo], [socket] on the first address and
    [connect] of that descriptor to the first address all succeed: the
    result of [setsockopt] and the other addresses of the list play no
    part, and no other address is passed to [socket] or [connect]. *)
Theorem loop_releases_resources (Addr : Type) (os : Net.Os Addr) :
  Net.track_all Addr
    (match Net.getaddrinfo Addr os with Some _ => true | None => false end)
    (match Net.getaddrinfo Addr os with
     | Some (res, _) => Net.socket Addr os res
     | None => None
     end)
    (Net.loop_calls Addr os) (Net.mkHeld false None)
  = Some (Net.mkHeld false None) /\
  Net.track_all Addr
    (match Net.getaddrinfo Addr os with Some _ => true | None => false end)
    (match Net.getaddrinfo Addr os with
     | Some (res, _) => Net.socket Addr os res
     | None => None
     end)
    (snd (Net.connectTcp Addr os)) (Net.mkHeld false None)
  = Some (Net.mkHeld false (fst (Net.connectTcp Addr os))) /\
  fst (Net.connectTcp Addr os)
  = match Net.wsa_startup Addr os, Net.getaddrinfo Addr os with
    | Some false, _ => None
    | _, None => None
    | _, Some (res, _) =>
        match Net.socket Addr os res with
        | None => None
        | Some fd => if Net.connect Addr os fd res then Some fd else None
        end
    end /\
  (forall a,
      (In (Net.SocketCall Addr a) (snd (Net.connectTcp Addr os)) \/
       exists fd,
         In (Net.ConnectCall Addr fd a) (snd (Net.connectTcp Addr os))) ->
      exists others, Net.getaddrinfo Addr os = Some (a, others)).
Proof.
  unfold Net.loop_calls, Net.connectTcp.
  assert (Hin : forall (c : Net.Call Addr) (wsa l : list (Net.Call Addr)),
             (wsa = [] \/ wsa = [Net.WsaStartup Addr]) ->
             c <> Net.WsaStartup Addr ->
             In c (wsa ++ l) -> In c l).
  { intros c wsa l [-> | ->] Hc H; [exact H|].
    destruct H as [H|H]; [congruence|exact H]. }
  destruct (Net.wsa_startup Addr os) as [[|]|].
  2: { split; [reflexivity|]. split; [reflexivity|].
       split; [destruct (Net.getaddrinfo Addr os); reflexivity|].
       intros a [[H|[]]|(fd & [H|[]])]; discriminate. }
  all: destruct (Net.getaddrinfo Addr os) as [[res others]|].
  all: try (split; [reflexivity|]; split; [reflexivity|];
            split; [reflexivity|];
            intros a [H|(fd & H)];
            (apply Hin in H; [|auto|discriminate]);
            destruct H as [H|[]]; discriminate).
  all: destruct (Net.socket Addr os res) as [fd|] eqn:Es.
  all: try destruct (Net.connect Addr os fd res).
  all: cbn [negb fst snd app].
  all: split;
    [repeat (cbn [Net.track_all Net.track Net.addr_live Net.fd_open app];
             rewrite ?Nat.eqb_refl); reflexivity|].
  all: split;
    [repeat (cbn [Net.track_all Net.track Net.addr_live Net.fd_open app];
             rewrite ?Nat.eqb_refl); reflexivity|].
  all: split; [reflexivity|].
  all: intros a Ha; exists others;
    assert (E : a = res);
    [|rewrite E; reflexivity].
  all: destruct Ha as [H|(fd' & H)]; cbn [In] in H;
    repeat match goal with
           | H : _ \/ _ |- _ => destruct H as [H|H]
           | H : False |- _ => destruct H
           | H : _ = _ |- _ => first [discriminate H
                                    | injection H as H; congruence
                                    | injection H as ? H; congruence]
           end.
Qed.

(** ** The sink *)

Lemma capture_latched sendRequest bytes kf st :
  EncodedVideoSource.capture_supported_ (EncodedVideoSource.source st)
  = false ->
  EncodedVideoSource.captureEncodedFrame sendRequest bytes kf st
  = (false, st).
Proof.
  intros H.
  unfold EncodedVideoSource.captureEncodedFrame,
         EncodedVideoSource.captureEncodedFrame_ptr.
  rewrite H.
  destruct (negb _); [reflexivity|].
  destruct (length bytes =? 0); reflexivity.
Qed.

(** X17.  A capture failure is final.  Once [capture_supported_] is
    cleared, every later call of [captureEncodedFrame] returns [false],
    sends no request and leaves the source as it is, whatever the frames
    are and whatever the FFI would answer. *)
Theorem capture_failure_is_final
    (sendRequest : list EncodedVideoSource.CaptureRequest ->
                   EncodedVideoSource.CaptureRequest -> bool)
    (frames : list (list byte * bool)) (st : EncodedVideoSource.State) :
  EncodedVideoSource.captureSupported (EncodedVideoSource.source st)
  = false ->
  EncodedVideoSource.capture_all sendRequest frames st
  = (map (fun _ => false) frames, st).
Proof.
  intros H. induction frames as [|[bytes kf] frames IH]; [reflexivity|].
  cbn [EncodedVideoSource.capture_all map].
  rewrite (capture_latched sendRequest bytes kf st H), IH. reflexivity.
Qed.

Lemma capture_failure_is_final_witness :
  EncodedVideoSource.capture_all (fun _ _ => true)
    [(kStartCode ++ idr_nal, true); (kStartCode ++ slice_nal, false)]
    (EncodedVideoSource.mkState (EncodedVideoSource.mkSource true false) [])
  = ([false; false],
     EncodedVideoSource.mkState (EncodedVideoSource.mkSource true false) []).
Proof.
  exact (capture_failure_is_final (fun _ _ => true)
           [(kStartCode ++ idr_nal, true); (kStartCode ++ slice_nal, false)]
           (EncodedVideoSource.mkState
              (EncodedVideoSource.mkSource true false) [])
           eq_refl).
Defined.

(** ** From the socket to the sink *)

Lemma delivered_data_nonempty callback_ framing_ conn au :
  In au (delivered (loop callback_ framing_ conn)) -> data au <> [].
Proof.
  intros Hin.
  destruct (loop_fed callback_ framing_ conn) as (nals & _ & Hd).
  rewrite Hd in Hin.
  pose proof (assemble_init_groups callback_ nals) as Ha.
  pose proof (group_nals_partition nals [] (Forall_nil _)) as Hp.
  destruct (group_nals [] nals) as [gs p].
  rewrite Ha in Hin. cbn [snd] in Hin.
  destruct callback_; [|contradiction].
  apply in_map_iff in Hin. destruct Hin as (g & <- & Hg).
  destruct Hp as (_ & _ & Hgs).
  rewrite Forall_forall in Hgs. destruct (Hgs g Hg) as (pre & v & -> & _).
  cbn [data unit_of]. rewrite frame_app, frame_one.
  intros H. apply app_eq_nil in H. destruct H as [_ H]. discriminate.
Qed.

Section Deliver.

Variable sendRequest :
  list EncodedVideoSource.CaptureRequest ->
  EncodedVideoSource.CaptureRequest -> bool.

Lemma callback_latched au m :
  EncodedVideoSource.capture_supported_
    (EncodedVideoSource.source (Example.encodedSource m)) = false ->
  Example.callback sendRequest au m
  = Example.mkMain (Example.encodedSource m) false.
Proof.
  intros H. unfold Example.callback.
  rewrite (capture_latched sendRequest _ _ _ H). reflexivity.
Qed.

Lemma deliver_latched aus :
  forall m,
    EncodedVideoSource.capture_supported_
      (EncodedVideoSource.source (Example.encodedSource m)) = false ->
    Example.g_running m = false ->
    Example.deliver sendRequest aus m = m.
Proof.
  unfold Example.deliver.
  induction aus as [|au aus IH]; intros m Hs Hg; [reflexivity|].
  cbn [fold_left]. rewrite (callback_latched au m Hs).
  destruct m as [st g]. cbn in Hg. subst g.
  apply IH; [exact Hs|reflexivity].
Qed.

Lemma deliver_healthy aus :
  forall m,
    EncodedVideoSource.source (Example.encodedSource m)
    = EncodedVideoSource.mkSource true true ->
    Forall (fun au => data au <> []) aus ->
    exists k,
      k <= length aus /\
      EncodedVideoSource.sent
        (Example.encodedSource (Example.deliver sendRequest aus m))
      = EncodedVideoSource.sent (Example.encodedSource m)
        ++ map Example.request_of (firstn k aus) /\
      ((Example.g_running (Example.deliver sendRequest aus m)
        = Example.g_running m /\
        EncodedVideoSource.source
          (Example.encodedSource (Example.deliver sendRequest aus m))
        = EncodedVideoSource.mkSource true true /\
        k = length aus /\
        forall j au, nth_error aus j = Some au ->
          sendRequest
            (EncodedVideoSource.sent (Example.encodedSource m)
             ++ map Example.request_of (firstn j aus))
            (Example.request_of au) = true) \/
       (Example.g_running (Example.deliver sendRequest aus m) = false /\
        EncodedVideoSource.source
          (Example.encodedSource (Example.deliver sendRequest aus m))
        = EncodedVideoSource.mkSource true false /\
        exists j au,
          k = S j /\ nth_error aus j = Some au /\
          sendRequest
            (EncodedVideoSource.sent (Example.encodedSource m)
             ++ map Example.request_of (firstn j aus))
            (Example.request_of au) = false /\
          forall j' au',
            j' < j -> nth_error aus j' = Some au' ->
            sendRequest
              (EncodedVideoSource.sent (Example.encodedSource m)
               ++ map Example.request_of (firstn j' aus))
              (Example.request_of au') = true)).
Proof.
  induction aus as [|au aus IH]; intros m Hsrc Hne.
  - exists 0. cbn. rewrite app_nil_r.
    split; [lia|]. split; [reflexivity|].
    left. split; [reflexivity|]. split; [assumption|].
    split; [reflexivity|].
    intros [|j] au H; discriminate.
  - inversion Hne as [|? ? Hau Hrest]; subst.
    destruct m as [[src sent0] g]. cbn in Hsrc. subst src.
    set (m0 := Example.mkMain
                 (EncodedVideoSource.mkState
                    (EncodedVideoSource.mkSource true true) sent0) g).
    set (m1 := Example.mkMain
                 (EncodedVideoSource.mkState
                    (EncodedVideoSource.mkSource true true)
                    (sent0 ++ [Example.request_of au])) g).
    set (m2 := Example.mkMain
                 (EncodedVideoSource.mkState
                    (EncodedVideoSource.mkSource true false)
                    (sent0 ++ [Example.request_of au])) false).
    assert (Hcb : Example.callback sendRequest au m0
                  = if sendRequest sent0 (Example.request_of au)
                    then m1 else m2).
    { unfold Example.callback, EncodedVideoSource.captureEncodedFrame,
             EncodedVideoSource.captureEncodedFrame_ptr, m0, m1, m2.
      cbn [Example.encodedSource EncodedVideoSource.source
           EncodedVideoSource.handle_ EncodedVideoSource.capture_supported_
           EncodedVideoSource.sent Example.g_running negb].
      destruct (data au) as [|b bytes] eqn:Ed; [contradiction|].
      cbn [length Nat.eqb]. rewrite <- Ed.
      fold (Example.request_of au).
      destruct (sendRequest sent0 (Example.request_of au)); reflexivity. }
    change (Example.deliver sendRequest (au :: aus) m0)
      with (Example.deliver sendRequest aus
              (Example.callback sendRequest au m0)).
    rewrite Hcb.
    cbn [Example.encodedSource EncodedVideoSource.sent Example.g_running m0].
    destruct (sendRequest sent0 (Example.request_of au)) eqn:Es.
    + destruct (IH m1 eq_refl Hrest) as (k & Hk & Hsent & Hcases).
      cbn [Example.encodedSource EncodedVideoSource.sent Example.g_running m1]
        in Hsent, Hcases.
      exists (S k). cbn [length firstn map].
      split; [lia|]. split.
      { rewrite Hsent, <- app_assoc. reflexivity. }
      destruct Hcases as [(Hg & Hs & Hlen & Hall)|(Hg & Hs & j & au' & Hj)].
      * left. split; [assumption|]. split; [assumption|].
        split; [lia|].
        intros [|j] au' Hnth.
        -- injection Hnth as <-. cbn [firstn map]. rewrite app_nil_r.
           assumption.
        -- cbn [nth_error] in Hnth. cbn [firstn map].
           specialize (Hall j au' Hnth).
           rewrite <- app_assoc in Hall. exact Hall.
      * right. split; [assumption|]. split; [assumption|].
        exists (S j), au'. destruct Hj as (-> & Hnth & Hthrow & Hbefore).
        split; [reflexivity|]. split; [assumption|]. split.
        -- cbn [firstn map]. rewrite <- app_assoc in Hthrow. exact Hthrow.
        -- intros [|j'] au'' Hlt Hnth'.
           ++ injection Hnth' as <-. cbn [firstn map]. rewrite app_nil_r.
              assumption.
           ++ cbn [nth_error] in Hnth'. cbn [firstn map].
              assert (Hlt' : j' < j) by lia.
              specialize (Hbefore j' au'' Hlt' Hnth').
              rewrite <- app_assoc in Hbefore. exact Hbefore.
    + rewrite (deliver_latched aus m2 eq_refl eq_refl).
      exists 1. cbn [length firstn map Example.encodedSource
                     EncodedVideoSource.sent Example.g_running
                     EncodedVideoSource.source m2].
      split; [lia|]. split; [reflexivity|].
      right. split; [reflexivity|]. split; [reflexivity|].
      exists 0, au. cbn [firstn map nth_error]. rewrite app_nil_r.
      split; [reflexivity|]. split; [reflexivity|].
      split; [assumption|]. intros j' au' Hlt. lia.
Qed.

End Deliver.

(** X18.  The example as a whole, from the socket to the FFI.  With the
    callback of [main] on a working [EncodedVideoSource], the requests
    that reach the FFI are the access units the worker delivers, in order,
    without gap or repetition, up to and including the first one on which
    the FFI throws: every request before it has returned, it is the last
    one sent, and nothing is sent after it.  [g_running] stays set exactly
    when there was no such failure, and then every delivered access unit
    has been sent; after a failure [captureSupported()] is false, however
    many access units the worker still delivers before [main] stops it. *)
Theorem worker_feeds_encoder
    (sendRequest : list EncodedVideoSource.CaptureRequest ->
                   EncodedVideoSource.CaptureRequest -> bool)
    (framing_ : H264Framing) (conn : option Socket) :
  let aus := delivered (loop true framing_ conn) in
  let m := Example.deliver sendRequest aus
             (Example.mkMain
                (EncodedVideoSource.mkState
                   (EncodedVideoSource.mkSource true true) []) true) in
  exists k,
    k <= length aus /\
    EncodedVideoSource.sent (Example.encodedSource m)
    = map Example.request_of (firstn k aus) /\
    (Example.g_running m = true ->
     k = length aus /\
     EncodedVideoSource.captureSupported
       (EncodedVideoSource.source (Example.encodedSource m)) = true /\
     forall j au, nth_error aus j = Some au ->
       sendRequest (map Example.request_of (firstn j aus))
                   (Example.request_of au) = true) /\
    (Example.g_running m = false ->
     EncodedVideoSource.captureSupported
       (EncodedVideoSource.source (Example.encodedSource m)) = false /\
     exists j au,
       k = S j /\ nth_error aus j = Some au /\
       sendRequest (map Example.request_of (firstn j aus))
                   (Example.request_of au) = false /\
       forall j' au',
         j' < j -> nth_error aus j' = Some au' ->
         sendRequest (map Example.request_of (firstn j' aus))
                     (Example.request_of au') = true).
Proof.
  intros aus m.
  assert (Hne : Forall (fun au => data au <> []) aus).
  { apply Forall_forall. intros au Hin.
    apply (delivered_data_nonempty true framing_ conn au Hin). }
  destruct (deliver_healthy sendRequest aus
              (Example.mkMain
                 (EncodedVideoSource.mkState
                    (EncodedVideoSource.mkSource true true) []) true)
              eq_refl Hne) as (k & Hk & Hsent & Hcases).
  fold m in Hsent, Hcases.
  cbn [Example.encodedSource EncodedVideoSource.sent Example.g_running app]
    in Hsent, Hcases.
  exists k. split; [assumption|]. split; [assumption|].
  unfold EncodedVideoSource.captureSupported.
  destruct Hcases as [(Hg & Hs & Hlen & Hall)|(Hg & Hs & Hj)].
  - split; [|rewrite Hg; discriminate].
    intros _. rewrite Hs. split; [assumption|].
    split; [reflexivity|assumption].
  - split; [rewrite Hg; discriminate|].
    intros _. rewrite Hs. split; [reflexivity|assumption].
Qed.

(** ** The command line of the example *)

Section CommandLine.

Import String Ascii.
Local Open Scope string_scope.

Lemma string_length_append (a b : string) :
  String.length (a ++ b) = String.length a + String.length b.
Proof. induction a as [|c a IH]; cbn; [reflexivity|]. rewrite IH. reflexivity. Qed.

Lemma substring_whole (s : string) : substring 0 (String.length s) s = s.
Proof. induction s as [|c s IH]; cbn; [reflexivity|]. rewrite IH. reflexivity. Qed.

Lemma substring_prefix (a b : string) :
  substring 0 (String.length a) (a ++ b) = a.
Proof.
  induction a as [|c a IH]; cbn.
  - destruct b; reflexivity.
  - rewrite IH. reflexivity.
Qed.

Lemma substring_skip (a b : string) (c : ascii) (m : nat) :
  substring (String.length a + 1) m (a ++ String c b) = substring 0 m b.
Proof. induction a as [|c' a IH]; cbn; [reflexivity|]. apply IH. Qed.

Lemma get_after (a b : string) (c : ascii) :
  get (String.length a) (a ++ String c b) = Some c.
Proof. induction a as [|c' a IH]; cbn; [reflexivity|]. apply IH. Qed.

(** [getFlag] on the two ways of writing a value. *)
Lemma getFlag_eq_form (name v : string) (next : option string) :
  Example.getFlag name (name ++ "=" ++ v) next = (v, false).
Proof.
  unfold Example.getFlag, Example.compare0, Example.substr.
  rewrite substring_prefix, String.eqb_refl.
  change ("=" ++ v) with (String "="%char v).
  assert (Hlen : String.length (name ++ String "="%char v)
                 = String.length name + S (String.length v))
    by (rewrite string_length_append; reflexivity).
  assert (Hle : (String.length name
                 <=? String.length name + S (String.length v))%nat = true)
    by (apply Nat.leb_le; lia).
  assert (Hlt : (String.length name
                 <? String.length name + S (String.length v))%nat = true)
    by (apply Nat.ltb_lt; lia).
  assert (Hsub : String.length name + S (String.length v)
                 - (String.length name + 1) = String.length v) by lia.
  rewrite Hlen, Hle, Hlt, get_after, Ascii.eqb_refl.
  rewrite (string_length_append name "="). cbn [andb String.length].
  rewrite Hsub, substring_skip, substring_whole. reflexivity.
Qed.

Lemma getFlag_two_args (name v : string) :
  Example.getFlag name name (Some v) = (v, true).
Proof.
  unfold Example.getFlag, Example.compare0.
  rewrite substring_whole, String.eqb_refl, Nat.leb_refl, Nat.ltb_irrefl.
  reflexivity.
Qed.

(** Settles the tests of [parse_arg] that the known characters of the
    argument decide. *)
Ltac decide_tests :=
  repeat match goal with
         | |- context [if ?c then _ else _] =>
             first [ change c with false | change c with true ];
             cbv beta iota
         end.

Variable stoi : string -> option Z.
Variable stoul : string -> option Z.
Variable getenv : string -> option string.

Lemma parse_arg_eq_form (name v : string) (next : option string)
    (p : Example.Parsed) :
  In name Example.eq_form_flags ->
  Example.parse_arg stoi stoul (name ++ "=" ++ v) next p
  = option_map (fun r => (fst r, false))
               (Example.parse_arg stoi stoul name (Some v) p) /\
  Example.parse_arg stoi stoul name (Some v) p
  = option_map (fun r => (fst r, true))
               (Example.parse_arg stoi stoul name (Some v) p).
Proof.
  unfold Example.eq_form_flags.
  intros [<-|[<-|[<-|[<-|[<-|[<-|[<-|[]]]]]]]];
    unfold Example.parse_arg; decide_tests;
    rewrite getFlag_eq_form, getFlag_two_args; cbv beta iota zeta.
  all: repeat match goal with
              | |- context [match ?c with _ => _ end] =>
                  match c with
                  | context [match _ with _ => _ end] => fail 1
                  | _ => destruct c
                  end
              end.
  all: split; reflexivity.
Qed.

Lemma parse_loop_skip (a : string) (rest : list string)
    (p q : Example.Parsed) :
  Example.parse_arg stoi stoul a (hd_error rest) p = Some (q, false) ->
  Example.parse_loop stoi stoul (a :: rest) p
  = Example.parse_loop stoi stoul rest q.
Proof.
  intros H. cbn [Example.parse_loop]. rewrite H.
  destruct rest; reflexivity.
Qed.

(** X19.  For [--h264-tcp], [--h264-framing], [--max-bitrate],
    [--max-framerate], [--url], [--token] and [--e2ee_key] the one-argument
    form [--name=value] and the two-argument form [--name value] mean the
    same whenever the argument loop arrives at them, in whatever state and
    whatever the value and the following arguments are: the parser reaches
    the same values and continues with the same remaining arguments, or
    rejects both.  This holds at the head of the arguments and behind any
    arguments [pre] that the loop works off by themselves; it is not
    claimed where the argument is itself consumed as the value of the flag
    before it. *)
Theorem eq_form_same_as_two_arguments
    (name v : string) (rest : list string)
    (url0 token0 e2ee_key0 : string) :
  In name Example.eq_form_flags ->
  (forall p,
      Example.parse_loop stoi stoul ((name ++ "=" ++ v) :: rest) p
      = Example.parse_loop stoi stoul (name :: v :: rest) p) /\
  (forall pre p p',
      (forall tail, Example.parse_loop stoi stoul (List.app pre tail) p
                    = Example.parse_loop stoi stoul tail p') ->
      Example.parse_loop stoi stoul
        (List.app pre ((name ++ "=" ++ v) :: rest)) p
      = Example.parse_loop stoi stoul (List.app pre (name :: v :: rest)) p) /\
  (forall pre p',
      (forall tail,
          Example.parse_loop stoi stoul (List.app pre tail)
            (Example.mkParsed url0 token0 false e2ee_key0
                              Example.H264TcpArgs_default)
          = Example.parse_loop stoi stoul tail p') ->
      Example.parseArgs stoi stoul getenv
        (List.app pre ((name ++ "=" ++ v) :: rest)) url0 token0 e2ee_key0
      = Example.parseArgs stoi stoul getenv
          (List.app pre (name :: v :: rest)) url0 token0 e2ee_key0).
Proof.
  intros Hin.
  assert (H : forall p,
             Example.parse_loop stoi stoul ((name ++ "=" ++ v) :: rest) p
             = Example.parse_loop stoi stoul (name :: v :: rest) p).
  { intros p0.
    destruct (parse_arg_eq_form name v (hd_error rest) p0 Hin) as [H1 H2].
    cbn [Example.parse_loop hd_error]. rewrite H1.
    destruct (Example.parse_arg stoi stoul name (Some v) p0) as [[q u]|];
      [|reflexivity].
    cbn [option_map fst] in H2 |- *.
    injection H2 as ->. destruct rest; reflexivity. }
  split; [exact H|]. split.
  - intros pre p p' Hpre. rewrite !Hpre. apply H.
  - intros pre p' Hpre. unfold Example.parseArgs.
    rewrite !Hpre, H. reflexivity.
Qed.

(** X20.  [--width] and [--height] are the exception: their tests compare
    one character more than the name has, so that only the bare name
    matches.  [--width=N] and [--height=N] are skipped like unknown
    arguments and leave every value as it was (the resolution keeps its
    default), while the two-argument forms set the value. *)
Theorem width_height_eq_form_ignored
    (v : string) (rest : list string) (p : Example.Parsed) :
  Example.parse_loop stoi stoul (("--width=" ++ v) :: rest) p
  = Example.parse_loop stoi stoul rest p /\
  Example.parse_loop stoi stoul (("--height=" ++ v) :: rest) p
  = Example.parse_loop stoi stoul rest p /\
  Example.parse_loop stoi stoul ("--width" :: v :: rest) p
  = Example.parse_loop stoi stoul rest
      (Example.set_h264
         (fun h => Example.mkH264TcpArgs
                     (Example.host h) (Example.port h)
                     (Example.stoi_or stoi v (Example.width h))
                     (Example.height h) (Example.framing h)
                     (Example.max_bitrate h) (Example.max_framerate h)) p) /\
  Example.parse_loop stoi stoul ("--height" :: v :: rest) p
  = Example.parse_loop stoi stoul rest
      (Example.set_h264
         (fun h => Example.mkH264TcpArgs
                     (Example.host h) (Example.port h) (Example.width h)
                     (Example.stoi_or stoi v (Example.height h))
                     (Example.framing h)
                     (Example.max_bitrate h) (Example.max_framerate h)) p).
Proof.
  split; [|split; [|split]].
  - apply parse_loop_skip. unfold Example.parse_arg. decide_tests.
    reflexivity.
  - apply parse_loop_skip. unfold Example.parse_arg. decide_tests.
    reflexivity.
  - cbn [Example.parse_loop hd_error]. unfold Example.parse_arg.
    decide_tests. rewrite getFlag_two_args. reflexivity.
  - cbn [Example.parse_loop hd_error]. unfold Example.parse_arg.
    decide_tests. rewrite getFlag_two_args. reflexivity.
Qed.

Lemma getFlag_longer_name (name x : string) (next : option string) :
  (forall x', x <> String "="%char x') ->
  Example.getFlag name (name ++ x) next = Example.getFlag name name next.
Proof.
  intros Hx. unfold Example.getFlag, Example.compare0.
  rewrite substring_prefix, substring_whole, String.eqb_refl.
  rewrite string_length_append, Nat.leb_refl, Nat.ltb_irrefl.
  assert (Hle : (String.length name
                 <=? String.length name + String.length x)%nat = true)
    by (apply Nat.leb_le; lia).
  rewrite Hle. cbn [andb].
  destruct x as [|c x'].
  - rewrite Nat.add_0_r, Nat.ltb_irrefl. reflexivity.
  - rewrite get_after.
    assert (Hc : Ascii.eqb c "="%char = false).
    { apply Ascii.eqb_neq. intros ->. apply (Hx x'). reflexivity. }
    rewrite Hc, andb_false_r. reflexivity.
Qed.

(** X21.  The tests of these seven flags look at the beginning of the
    argument only.  An argument that continues a flag name with anything
    but [=], such as [--tokens] or [--url-file], is taken for that flag: it
    consumes the next argument as its value exactly as the flag itself
    would. *)
Theorem longer_name_taken_for_flag
    (name x : string) (next : option string) (p : Example.Parsed) :
  In name Example.eq_form_flags ->
  (forall x', x <> String "="%char x') ->
  Example.parse_arg stoi stoul (name ++ x) next p
  = Example.parse_arg stoi stoul name next p.
Proof.
  unfold Example.eq_form_flags.
  intros Hin Hx. destruct x as [|c x'].
  - destruct Hin as [<-|[<-|[<-|[<-|[<-|[<-|[<-|[]]]]]]]]; reflexivity.
  - destruct Hin as [<-|[<-|[<-|[<-|[<-|[<-|[<-|[]]]]]]]];
      unfold Example.parse_arg; decide_tests;
      rewrite (getFlag_longer_name _ (String c x') next Hx); reflexivity.
Qed.

End CommandLine.

Section CommandLineExample.

Import String Ascii.
Local Open Scope string_scope.

Lemma eq_form_same_as_two_arguments_witness :
  Example.parse_loop (fun _ => None) (fun _ => None)
    ["--enable_e2ee"; "--token=abc"; "--url"; "wss://host"]
    (Example.mkParsed "" "" false "" Example.H264TcpArgs_default)
  = Example.parse_loop (fun _ => None) (fun _ => None)
      ["--enable_e2ee"; "--token"; "abc"; "--url"; "wss://host"]
      (Example.mkParsed "" "" false "" Example.H264TcpArgs_default).
Proof.
  assert (H : In "--token" Example.eq_form_flags).
  { right. right. right. right. right. left. reflexivity. }
  assert (Hpre : forall tail,
             Example.parse_loop (fun _ => None) (fun _ => None)
               (List.app ["--enable_e2ee"] tail)
               (Example.mkParsed "" "" false "" Example.H264TcpArgs_default)
             = Example.parse_loop (fun _ => None) (fun _ => None) tail
                 (Example.mkParsed "" "" true ""
                                   Example.H264TcpArgs_default)).
  { intros [|t tail]; reflexivity. }
  exact (proj1 (proj2 (eq_form_same_as_two_arguments
                         (fun _ => None) (fun _ => None) (fun _ => None)
                         "--token" "abc" ["--url"; "wss://host"]
                         "" "" "" H))
           ["--enable_e2ee"]
           (Example.mkParsed "" "" false "" Example.H264TcpArgs_default)
           (Example.mkParsed "" "" true "" Example.H264TcpArgs_default)
           Hpre).
Defined.

Lemma longer_name_taken_for_flag_witness :
  Example.parse_arg (fun _ => None) (fun _ => None) "--tokens" (Some "abc")
    (Example.mkParsed "" "" false "" Example.H264TcpArgs_default)
  = Some (Example.mkParsed "" "abc" false "" Example.H264TcpArgs_default,
          true).
Proof.
  assert (H : In "--token" Example.eq_form_flags).
  { right. right. right. right. right. left. reflexivity. }
  assert (Hx : forall x', "s" <> String "="%char x').
  { intros x' E. discriminate E. }
  exact (longer_name_taken_for_flag
           (fun _ => None) (fun _ => None) "--token" "s" (Some "abc")
           (Example.mkParsed "" "" false "" Example.H264TcpArgs_default)
           H Hx).
Defined.

End CommandLineExample.
